(** * The CSG cell subsystem of OpenMC: a shallow embedding of [src/cell.cpp]

    The development follows the source file function by function:
    [tokenize], [generate_rpn], the [Cell] constructor's classification of
    the postfix form, [Cell::contains] with its two evaluators,
    [Cell::distance], and the three C-API functions
    [openmc_cell_get_fill], [openmc_cell_set_fill] and
    [openmc_cell_set_temperature]; then the Fortran compatibility
    functions, the region grammar the compiler is written for, the
    region string of [Cell::to_hdf5], [read_cells] with the universe
    table, [Universe::to_hdf5], and the [Cell] constructor.

    Conventions of the embedding.
    - An [int32_t] is a [Z]; a [std::vector<int32_t>] is a [list Z] whose
      head is element 0.  The operator stack of [generate_rpn] and the
      boolean stack of [contains_complex] are lists whose head is the top
      ([stack.back()], [stack[i_stack]]).
    - [int] loop counters are positions in a list; inputs are assumed short
      enough (fewer than 2^30 characters) for no counter to overflow.  The
      one unsigned expression of the file, [tokens.size()-1], is written
      out with its wrap-around ([size_minus_1]).
    - Operand tokens are signed surface references whose magnitude fits an
      [int32_t], so [abs(token)] and [-token] do not overflow: they are
      [Z.abs] and [Z.opp].
    - Code that can fail returns an [outcome]: [fatal_error], the
      exceptions of [std::stoi], and element accesses outside a vector or
      array are distinct failures.
      The constructor and [read_cells], which add [fatal_error] calls of
      their own, return a [checked] value that wraps these failures.
    - The headers that declare the operator codes, the fill kinds, the
      error code and the floating-point constants are not part of the
      sources at hand; these constants are fields of the classes [OpCodes],
      [ApiConstants] and [Doubles], and the theorems state what they
      assume about them. *)

From Stdlib Require Import ZArith String Ascii List Bool Lia.
From Stdlib Require Import Floats.
From Stdlib Require Import Permutation.
Import ListNotations.

#[local] Open Scope Z_scope.

(** ** Machine integers *)

(** [std::numeric_limits<int32_t>::max()] and [::min()]. *)
Definition INT_MAX : Z := 2147483647.
Definition INT_MIN : Z := -2147483648.

(** The largest [size_t] of a 64-bit target. *)
Definition SIZE_MAX : Z := 18446744073709551615.

(** ** Outcomes *)

Inductive failure : Type :=
| InvalidCharacter (c : ascii)
  (* fatal_error: Region specification contains invalid character *)
| MismatchedParentheses (cell_id : Z)
  (* fatal_error: Mismatched parentheses in region specification for cell <id> *)
| StoiInvalidArgument
  (* std::invalid_argument thrown by std::stoi *)
| StoiOutOfRange
  (* std::out_of_range thrown by std::stoi *)
| OutOfRangeAccess
  (* an element is read or written outside its vector or array *)
| OutOfFuel.
  (* the loop bound of the embedding was reached; see the totality lemmas *)

Inductive outcome (A : Type) : Type :=
| Ok (a : A)
| Fail (f : failure).

Arguments Ok {A} a.
Arguments Fail {A} f.

Definition bind {A B : Type} (m : outcome A) (k : A -> outcome B) : outcome B :=
  match m with
  | Ok a => k a
  | Fail f => Fail f
  end.

Notation "x <- m ;; k" := (bind m (fun x => k))
  (at level 61, m at next level, right associativity).
Notation "' p <- m ;; k" := (bind m (fun x => match x with p => k end))
  (at level 61, p pattern, m at next level, right associativity).

(** ** Token model: operator codes

    [cell.h] declares the five operator codes as [int32_t] constants.  The
    code distinguishes operands from operators by [token < OP_UNION],
    regular operators from parentheses by [token < OP_RIGHT_PAREN]
    (commented "Regular operators union, intersection, complement"), and
    recognises a leftover parenthesis by [op >= OP_RIGHT_PAREN]
    (commented "If the operator is a parenthesis it is mismatched").
    Both comments put the left parenthesis above the right one; the data
    model of the specification lists them the other way round, an order
    under which the same comparisons let "((1" through
    ([swapped_parentheses_compile] below). *)

Class OpCodes : Type := {
  OP_LEFT_PAREN : Z;
  OP_RIGHT_PAREN : Z;
  OP_COMPLEMENT : Z;
  OP_INTERSECTION : Z;
  OP_UNION : Z
}.

(** The order the comparisons of [generate_rpn] rely on: precedence grows
    from union to complement, both parentheses lie above the regular
    operators with the right one first, and every code is an [int32_t]. *)
Definition codes_ordered `{OpCodes} : Prop :=
  INT_MIN <= OP_UNION /\
  OP_UNION < OP_INTERSECTION /\
  OP_INTERSECTION < OP_COMPLEMENT /\
  OP_COMPLEMENT < OP_RIGHT_PAREN /\
  OP_RIGHT_PAREN < OP_LEFT_PAREN /\
  OP_LEFT_PAREN <= INT_MAX.

(** The five largest [int32_t] values, the left parenthesis on top. *)
Definition top_codes : OpCodes := {|
  OP_LEFT_PAREN := INT_MAX;
  OP_RIGHT_PAREN := INT_MAX - 1;
  OP_COMPLEMENT := INT_MAX - 2;
  OP_INTERSECTION := INT_MAX - 3;
  OP_UNION := INT_MAX - 4
|}.

(** The same values with the two parentheses exchanged, as a contrast:
    the order [OP_LEFT_PAREN < OP_RIGHT_PAREN]. *)
Definition swapped_paren_codes : OpCodes := {|
  OP_LEFT_PAREN := INT_MAX - 1;
  OP_RIGHT_PAREN := INT_MAX;
  OP_COMPLEMENT := INT_MAX - 2;
  OP_INTERSECTION := INT_MAX - 3;
  OP_UNION := INT_MAX - 4
|}.

(** ** Characters and [std::stoi] *)

Definition isdigit (c : ascii) : bool :=
  let n := nat_of_ascii c in ((48 <=? n) && (n <=? 57))%nat.

(** [std::isspace] in the C locale: space, and the controls \t \n \v \f \r. *)
Definition isspace (c : ascii) : bool :=
  let n := nat_of_ascii c in ((n =? 32) || ((9 <=? n) && (n <=? 13)))%nat.

Definition digit_value (c : ascii) : Z := Z.of_nat (nat_of_ascii c) - 48.

Definition decimal (ds : list ascii) : Z :=
  fold_left (fun acc c => 10 * acc + digit_value c) ds 0.

Fixpoint take_digits (s : list ascii) : list ascii :=
  match s with
  | c :: tl => if isdigit c then c :: take_digits tl else []
  | [] => []
  end.

Fixpoint drop_digits (s : list ascii) : list ascii :=
  match s with
  | c :: tl => if isdigit c then drop_digits tl else s
  | [] => []
  end.

(** [std::stoi(str)] on a string that starts with a sign or a digit: an
    optional sign, then the longest run of decimal digits.  No digit throws
    [std::invalid_argument]; a value outside [int] throws
    [std::out_of_range]. *)
Definition stoi (str : list ascii) : outcome Z :=
  let '(negative, body) :=
    match str with
    | "-"%char :: tl => (true, tl)
    | "+"%char :: tl => (false, tl)
    | _ => (false, str)
    end in
  match take_digits body with
  | [] => Fail StoiInvalidArgument
  | ds =>
      let v := if negative then - decimal ds else decimal ds in
      if (INT_MIN <=? v) && (v <=? INT_MAX) then Ok v else Fail StoiOutOfRange
  end.

(** ** [tokenize] *)

Section Tokenizer.
Context `{OpCodes}.

(** The first loop of [tokenize].  [rest] is [region_spec] from position
    [i] on and [tokens] the vector built so far; [i++] drops one character
    and [i = j] drops the literal that [substr(i, j-i)] extracted. *)
Fixpoint scan_tokens (fuel : nat) (rest : list ascii) (tokens : list Z)
  : outcome (list Z) :=
  match rest with
  | [] => Ok tokens
  | c :: tl =>
      match fuel with
      | O => Fail OutOfFuel
      | S fuel' =>
          if (c =? "(")%char then
            scan_tokens fuel' tl (tokens ++ [OP_LEFT_PAREN])
          else if (c =? ")")%char then
            scan_tokens fuel' tl (tokens ++ [OP_RIGHT_PAREN])
          else if (c =? "|")%char then
            scan_tokens fuel' tl (tokens ++ [OP_UNION])
          else if (c =? "~")%char then
            scan_tokens fuel' tl (tokens ++ [OP_COMPLEMENT])
          else if (c =? "-")%char || (c =? "+")%char || isdigit c then
            (* int j = i + 1; while (j < size && isdigit(region_spec[j])) j++ *)
            v <- stoi (c :: take_digits tl) ;;
            scan_tokens fuel' (drop_digits tl) (tokens ++ [v])
          else if isspace c then
            scan_tokens fuel' tl tokens
          else
            Fail (InvalidCharacter c)
      end
  end.

Definition left_compat (t : Z) : bool :=
  (t <? OP_UNION) || (t =? OP_RIGHT_PAREN).

Definition right_compat (t : Z) : bool :=
  (t <? OP_UNION) || (t =? OP_LEFT_PAREN) || (t =? OP_COMPLEMENT).

(** [tokens.size()-1] in [size_t] arithmetic: the empty vector gives
    [SIZE_MAX], not -1. *)
Definition size_minus_1 (tokens : list Z) : Z :=
  match tokens with
  | [] => SIZE_MAX
  | _ :: tl => Z.of_nat (length tl)
  end.

(** [tokens[i]]. *)
Definition vec_get (tokens : list Z) (i : Z) : outcome Z :=
  if i <? 0 then Fail OutOfRangeAccess
  else match nth_error tokens (Z.to_nat i) with
       | Some t => Ok t
       | None => Fail OutOfRangeAccess
       end.

(** [tokens.insert(tokens.begin()+i, t)]. *)
Definition vec_insert (tokens : list Z) (i : Z) (t : Z) : list Z :=
  firstn (Z.to_nat i) tokens ++ t :: skipn (Z.to_nat i) tokens.

(** The second loop of [tokenize]: [while (i < tokens.size()-1)]. *)
Fixpoint insert_intersections (fuel : nat) (i : Z) (tokens : list Z)
  : outcome (list Z) :=
  match fuel with
  | O => Fail OutOfFuel
  | S fuel' =>
      if i <? size_minus_1 tokens then
        ti <- vec_get tokens i ;;
        ti1 <- vec_get tokens (i + 1) ;;
        let tokens' :=
          if left_compat ti && right_compat ti1
          then vec_insert tokens (i + 1) OP_INTERSECTION
          else tokens in
        insert_intersections fuel' (i + 1) tokens'
      else Ok tokens
  end.

(** The second loop from [i = 0]; it runs at most twice per token. *)
Definition add_intersections (tokens : list Z) : outcome (list Z) :=
  insert_intersections (2 * length tokens + 1) 0 tokens.

Definition tokenize (region_spec : string) : outcome (list Z) :=
  let s := list_ascii_of_string region_spec in
  match s with
  | [] => Ok []
  | _ =>
      tokens <- scan_tokens (length s) s [] ;;
      add_intersections tokens
  end.

(** What the second pass is meant to compute, in the words of the
    specification: [OP_INTERSECTION] goes between two adjacent tokens
    exactly when the left one is left-compatible and the right one is
    right-compatible. *)
Fixpoint with_intersections (tokens : list Z) : list Z :=
  match tokens with
  | [] => []
  | t :: tl =>
      match tl with
      | [] => [t]
      | t' :: _ =>
          if left_compat t && right_compat t'
          then t :: OP_INTERSECTION :: with_intersections tl
          else t :: with_intersections tl
      end
  end.

(** [s1, OP_INTERSECTION, s2, ..., OP_INTERSECTION, sn]. *)
Fixpoint intersperse_intersection (operands : list Z) : list Z :=
  match operands with
  | [] => []
  | [s] => [s]
  | s :: tl => s :: OP_INTERSECTION :: intersperse_intersection tl
  end.

(** A signed integer literal of the region grammar: an optional sign and
    at least one decimal digit. *)
Definition is_literal (lit : list ascii) : bool :=
  match lit with
  | [] => false
  | c :: ds =>
      if (c =? "-")%char || (c =? "+")%char
      then negb (length ds =? 0)%nat && forallb isdigit ds
      else isdigit c && forallb isdigit ds
  end.

(** The integer a literal denotes. *)
Definition literal_value (lit : list ascii) : Z :=
  match lit with
  | "-"%char :: ds => - decimal ds
  | "+"%char :: ds => decimal ds
  | _ => decimal lit
  end.

(** A literal whose value is an operand token: an [int32_t] below every
    operator code. *)
Definition operand_literal (lit : list ascii) : Prop :=
  is_literal lit = true /\ INT_MIN <= literal_value lit < OP_UNION.

(** The text after a literal does not continue it. *)
Definition no_leading_digit (rest : list ascii) : Prop :=
  match rest with
  | [] => True
  | c :: _ => isdigit c = false
  end.

(** A separator: whitespace, at least one character. *)
Definition separator (sep : list ascii) : Prop :=
  sep <> [] /\ forallb isspace sep = true.

(** [lit1 sep2 lit2 ... sepn litn] between optional leading and trailing
    whitespace; [more] lists the pairs [(sep_k, lit_k)]. *)
Definition spaced_literals (lead lit1 : list ascii)
  (more : list (list ascii * list ascii)) (trail : list ascii) : string :=
  string_of_list_ascii
    (lead ++ lit1 ++ flat_map (fun p => fst p ++ snd p) more ++ trail).

End Tokenizer.

(** ** [generate_rpn]: the shunting-yard compiler *)

Section Compiler.
Context `{OpCodes}.

(** The inner [while (stack.size() > 0)] of the operator branch: operators
    on top of the stack that bind at least as tightly as [token] (more
    tightly when [token] is the right-associative complement) move to the
    output. *)
Fixpoint pop_operators (token : Z) (rpn stack : list Z) : list Z * list Z :=
  match stack with
  | [] => (rpn, [])
  | op :: below =>
      if (op <? OP_RIGHT_PAREN) &&
         (((token =? OP_COMPLEMENT) && (token <? op)) ||
          (negb (token =? OP_COMPLEMENT) && (token <=? op)))
      then pop_operators token (rpn ++ [op]) below
      else (rpn, stack)
  end.

(** The loop of the right-parenthesis branch,
    [for (auto it = stack.rbegin(); *it != OP_LEFT_PAREN; it++)].
    Each round pops the element [it] points at, so [it] is always the
    reverse-begin of the current stack.  The loop condition reads [*it]
    before the body compares [it] with [stack.rend()]: on an exhausted
    stack that read is one element before the first, and the body with its
    [fatal_error] is entered only after it. *)
Fixpoint pop_to_left_paren (cell_id : Z) (rpn stack : list Z)
  : outcome (list Z * list Z) :=
  match stack with
  | [] => Fail OutOfRangeAccess
  | op :: below =>
      if op =? OP_LEFT_PAREN
      then Ok (rpn, below)
      else pop_to_left_paren cell_id (rpn ++ [op]) below
  end.

(** [for (int32_t token : infix)]. *)
Fixpoint rpn_loop (cell_id : Z) (infix rpn stack : list Z)
  : outcome (list Z * list Z) :=
  match infix with
  | [] => Ok (rpn, stack)
  | token :: rest =>
      if token <? OP_UNION then
        rpn_loop cell_id rest (rpn ++ [token]) stack
      else if token <? OP_RIGHT_PAREN then
        let '(rpn', stack') := pop_operators token rpn stack in
        rpn_loop cell_id rest rpn' (token :: stack')
      else if token =? OP_LEFT_PAREN then
        rpn_loop cell_id rest rpn (token :: stack)
      else
        '(rpn', stack') <- pop_to_left_paren cell_id rpn stack ;;
        rpn_loop cell_id rest rpn' stack'
  end.

(** The final [while (stack.size() > 0)]. *)
Fixpoint drain_stack (cell_id : Z) (rpn stack : list Z) : outcome (list Z) :=
  match stack with
  | [] => Ok rpn
  | op :: below =>
      if OP_RIGHT_PAREN <=? op
      then Fail (MismatchedParentheses cell_id)
      else drain_stack cell_id (rpn ++ [op]) below
  end.

Definition generate_rpn (cell_id : Z) (infix : list Z) : outcome (list Z) :=
  '(rpn, stack) <- rpn_loop cell_id infix [] [] ;;
  drain_stack cell_id rpn stack.

(** The nesting depth of parentheses after [infix], following the
    branches of [generate_rpn]: a token below [OP_RIGHT_PAREN] is no
    parenthesis, [OP_LEFT_PAREN] opens, and every other token takes the
    right-parenthesis branch.  [None] when a right parenthesis has no
    left parenthesis to close. *)
Fixpoint paren_depth (infix : list Z) (open : nat) : option nat :=
  match infix with
  | [] => Some open
  | token :: rest =>
      if token <? OP_RIGHT_PAREN then paren_depth rest open
      else if token =? OP_LEFT_PAREN then paren_depth rest (S open)
      else match open with
           | O => None
           | S d => paren_depth rest d
           end
  end.

(** Left parentheses waiting on the operator stack. *)
Fixpoint open_parens (stack : list Z) : nat :=
  match stack with
  | [] => O
  | op :: below =>
      if op =? OP_LEFT_PAREN then S (open_parens below) else open_parens below
  end.

(** The operator stack holds regular operators and left parentheses. *)
Definition stack_ok (stack : list Z) : Prop :=
  Forall (fun op => op < OP_RIGHT_PAREN \/ op = OP_LEFT_PAREN) stack.

(** The "simple cell" loop of the constructor. *)
Fixpoint is_simple (rpn : list Z) : bool :=
  match rpn with
  | [] => true
  | token :: rest =>
      if (token =? OP_COMPLEMENT) || (token =? OP_UNION)
      then false
      else is_simple rest
  end.

(** [r = copysign(surface_map[abs(r)] + 1, r)] for the operands of the
    region; [surface_map] sends a user id to a dense surface index. *)
Definition bind_surface (surface_map : Z -> Z) (r : Z) : Z :=
  if r <? OP_UNION
  then (if r <? 0 then - Z.abs (surface_map (Z.abs r) + 1)
        else Z.abs (surface_map (Z.abs r) + 1))
  else r.

(** The region part of the [Cell] constructor: tokenize, bind the user
    ids, compile, classify.  The result is [(region, rpn, simple)]. *)
Definition compile_region (cell_id : Z) (surface_map : Z -> Z)
  (region_spec : string) : outcome (list Z * list Z * bool) :=
  tokens <- tokenize region_spec ;;
  let region := map (bind_surface surface_map) tokens in
  rpn <- generate_rpn cell_id region ;;
  Ok (region, rpn, is_simple rpn).

End Compiler.

(** ** Floating-point numbers

    [Cell::distance] compares and divides [double]s.  The operations it
    uses, and the two constants [INFTY] and [FP_PRECISION] of the missing
    [constants.h], form an interface; its instance below is IEEE 754
    binary64 (Rocq's primitive floats). *)

Class Doubles : Type := {
  double : Type;
  INFTY : double;
  FP_PRECISION : double;
  d_lt : double -> double -> bool;    (* a < b *)
  d_ge : double -> double -> bool;    (* a >= b *)
  d_sub : double -> double -> double; (* a - b *)
  d_div : double -> double -> double; (* a / b *)
  d_abs : double -> double            (* std::abs(a) *)
}.

(** Binary64, with the constants supplied by the caller. *)
Definition binary64 (infty eps : float) : Doubles := {|
  double := float;
  INFTY := infty;
  FP_PRECISION := eps;
  d_lt := PrimFloat.ltb;
  d_ge := fun a b => PrimFloat.leb b a;
  d_sub := PrimFloat.sub;
  d_div := PrimFloat.div;
  d_abs := PrimFloat.abs
|}.

(** ** Cells, surfaces and the two queries *)

Section Geometry.
Context `{OpCodes} `{Doubles}.

Record Position : Type := { pos_x : double; pos_y : double; pos_z : double }.
Record Direction : Type := { dir_x : double; dir_y : double; dir_z : double }.

(** The two operations the cell code asks of a surface. *)
Record Surface : Type := {
  sense : Position -> Direction -> bool;
  distance : Position -> Direction -> bool -> double
}.

Record Cell : Type := {
  id : Z;
  type : Z;
  universe : Z;
  fill : Z;
  material : list Z;
  sqrtkT : list double;
  region : list Z;
  rpn : list Z;
  simple : bool
}.

(** [global_surfaces[k]], a total function of the index: by the data
    model every operand of a compiled region names an existing surface. *)
Variable global_surfaces : Z -> Surface.

Variables (r : Position) (u : Direction) (on_surface : Z).

Fixpoint contains_simple_rpn (tokens : list Z) : bool :=
  match tokens with
  | [] => true
  | token :: rest =>
      if token <? OP_UNION then
        if token =? on_surface then contains_simple_rpn rest
        else if - token =? on_surface then false
        else
          let s := sense (global_surfaces (Z.abs token - 1)) r u in
          if negb (Bool.eqb s (0 <? token)) then false
          else contains_simple_rpn rest
      else contains_simple_rpn rest
  end.

Definition contains_simple (c : Cell) : bool := contains_simple_rpn (rpn c).

(** The three-case rule of the specification for one operand: satisfied
    when the particle is on the operand's surface with its orientation,
    unsatisfied when it is there with the opposite one, and the surface's
    sense against the operand's sign otherwise. *)
Definition operand_decision (token : Z) : bool :=
  if token =? on_surface then true
  else if - token =? on_surface then false
  else Bool.eqb (sense (global_surfaces (Z.abs token - 1)) r u) (0 <? token).

(** One round of the loop of [contains_complex].  [stack] lists
    [stack[i_stack]], ..., [stack[0]]; [i_stack] is its length minus one.
    Reading or writing [stack[i_stack-1]] with fewer than two entries, or
    [stack[i_stack]] with none, is outside the array. *)
Definition complex_step (stack : list bool) (token : Z) : outcome (list bool) :=
  if token =? OP_UNION then
    match stack with
    | b :: a :: below => Ok ((a || b) :: below)
    | _ => Fail OutOfRangeAccess
    end
  else if token =? OP_INTERSECTION then
    match stack with
    | b :: a :: below => Ok ((a && b) :: below)
    | _ => Fail OutOfRangeAccess
    end
  else if token =? OP_COMPLEMENT then
    match stack with
    | b :: below => Ok (negb b :: below)
    | _ => Fail OutOfRangeAccess
    end
  else if token =? on_surface then Ok (true :: stack)
  else if - token =? on_surface then Ok (false :: stack)
  else
    let s := sense (global_surfaces (Z.abs token - 1)) r u in
    Ok (Bool.eqb s (0 <? token) :: stack).

Fixpoint complex_loop (tokens : list Z) (stack : list bool)
  : outcome (list bool) :=
  match tokens with
  | [] => Ok stack
  | token :: rest =>
      stack' <- complex_step stack token ;;
      complex_loop rest stack'
  end.

Definition contains_complex_rpn (tokens : list Z) : outcome bool :=
  stack <- complex_loop tokens [] ;;
  match stack with
  | [b] => Ok b       (* i_stack == 0 *)
  | _ => Ok true
  end.

Definition contains_complex (c : Cell) : outcome bool :=
  contains_complex_rpn (rpn c).

Definition contains (c : Cell) : outcome bool :=
  if simple c then Ok (contains_simple c) else contains_complex c.

(** The candidate distance of an operand. *)
Definition candidate (token : Z) : double :=
  distance (global_surfaces (Z.abs token - 1)) r u (token =? on_surface).

(** The two tests that guard the assignment to [min_dist]. *)
Definition displaces (d min_dist : double) : bool :=
  d_lt d min_dist &&
  d_ge (d_div (d_abs (d_sub d min_dist)) min_dist) FP_PRECISION.

Definition distance_step (acc : double * Z) (token : Z) : double * Z :=
  let '(min_dist, i_surf) := acc in
  if OP_UNION <=? token then acc
  else
    let d := candidate token in
    if d_lt d min_dist then
      if d_ge (d_div (d_abs (d_sub d min_dist)) min_dist) FP_PRECISION
      then (d, - token)
      else acc
    else acc.

Definition distance_rpn (tokens : list Z) (acc : double * Z) : double * Z :=
  fold_left distance_step tokens acc.

Definition Cell_distance (c : Cell) : double * Z :=
  distance_rpn (rpn c) (INFTY, INT_MAX).

(** The postfix form is well formed (invariant 5 of the data model) when
    the boolean stack never runs short and ends with exactly one entry, or
    the form is empty.  [stack_depth] replays the stack discipline. *)
Fixpoint stack_depth (tokens : list Z) (depth : nat) : option nat :=
  match tokens with
  | [] => Some depth
  | token :: rest =>
      if token <? OP_UNION then stack_depth rest (S depth)
      else if (token =? OP_UNION) || (token =? OP_INTERSECTION) then
        match depth with
        | S (S d) => stack_depth rest (S d)
        | _ => None
        end
      else if token =? OP_COMPLEMENT then
        match depth with
        | S d => stack_depth rest (S d)
        | O => None
        end
      else None
  end.

Definition well_formed_rpn (tokens : list Z) : bool :=
  match tokens with
  | [] => true
  | _ => match stack_depth tokens 0 with
         | Some 1%nat => true
         | _ => false
         end
  end.

(** Every entry of the boolean stack is true. *)
Definition all_true (stack : list bool) : bool := forallb (fun b => b) stack.

(** What the constructor leaves in the fields of a cell read from
    [region_spec], with [surface_map] the binding of surface ids. *)
Definition constructed (surface_map : Z -> Z) (region_spec : string)
  (c : Cell) : Prop :=
  compile_region (id c) surface_map region_spec
  = Ok (region c, rpn c, simple c).

End Geometry.

(** ** The C-API functions *)

(** Constants of the missing headers [constants.h] and [openmc.h]. *)
Class ApiConstants : Type := {
  FILL_MATERIAL : Z;
  FILL_UNIVERSE : Z;
  FILL_LATTICE : Z;
  MATERIAL_VOID : Z;
  OPENMC_E_OUT_OF_BOUNDS : Z
}.

(** What the theorems need of them: the three fill kinds differ and the
    error code is not the success code 0. *)
Definition api_constants_distinct `{ApiConstants} : Prop :=
  FILL_MATERIAL <> FILL_UNIVERSE /\
  FILL_MATERIAL <> FILL_LATTICE /\
  FILL_UNIVERSE <> FILL_LATTICE /\
  OPENMC_E_OUT_OF_BOUNDS <> 0.

Definition sample_constants : ApiConstants := {|
  FILL_MATERIAL := 1;
  FILL_UNIVERSE := 2;
  FILL_LATTICE := 3;
  MATERIAL_VOID := -1;
  OPENMC_E_OUT_OF_BOUNDS := -14
|}.

Section CApi.
Context `{Doubles} `{ApiConstants}.

(** [std::sqrt(K_BOLTZMANN * T)]. *)
Variable sqrt_kT : double -> double.

(** The globals the three functions touch: the cells behind
    [global_cells], [global_materials.size()], and the message buffer. *)
Record State : Type := {
  global_cells : list Cell;
  n_materials : Z;
  openmc_err_msg : string
}.

Definition with_type (c : Cell) (t : Z) : Cell :=
  {| id := id c; type := t; universe := universe c; fill := fill c;
     material := material c; sqrtkT := sqrtkT c; region := region c;
     rpn := rpn c; simple := simple c |}.

Definition with_material (c : Cell) (m : list Z) : Cell :=
  {| id := id c; type := type c; universe := universe c; fill := fill c;
     material := m; sqrtkT := sqrtkT c; region := region c;
     rpn := rpn c; simple := simple c |}.

Definition with_sqrtkT (c : Cell) (ts : list double) : Cell :=
  {| id := id c; type := type c; universe := universe c; fill := fill c;
     material := material c; sqrtkT := ts; region := region c;
     rpn := rpn c; simple := simple c |}.

Fixpoint list_set {A : Type} (l : list A) (n : nat) (x : A) : list A :=
  match l, n with
  | [], _ => []
  | _ :: tl, O => x :: tl
  | a :: tl, S n' => a :: list_set tl n' x
  end.

(** [index >= 1 && index <= global_cells.size()], then
    [global_cells[index - 1]]. *)
Definition cell_at (st : State) (index : Z) : option Cell :=
  if (1 <=? index) && (index <=? Z.of_nat (length (global_cells st)))
  then nth_error (global_cells st) (Z.to_nat (index - 1))
  else None.

(** The cell behind [Cell& c] after the function has written to it. *)
Definition store_cell (st : State) (index : Z) (c : Cell) : State :=
  {| global_cells := list_set (global_cells st) (Z.to_nat (index - 1)) c;
     n_materials := n_materials st;
     openmc_err_msg := openmc_err_msg st |}.

Definition with_err_msg (st : State) (msg : string) : State :=
  {| global_cells := global_cells st;
     n_materials := n_materials st;
     openmc_err_msg := msg |}.

(** Returns the code and, on success, [*type], the [*n] values behind
    [*indices], and [*n]. *)
Definition openmc_cell_get_fill (index : Z) (st : State)
  : Z * option (Z * list Z * Z) * State :=
  match cell_at st index with
  | Some c =>
      if type c =? FILL_MATERIAL
      then (0, Some (type c, material c, Z.of_nat (length (material c))), st)
      else (0, Some (type c, [fill c], 1), st)
  | None =>
      (OPENMC_E_OUT_OF_BOUNDS, None,
       with_err_msg st "Index in cells array is out of bounds.")
  end.

(** The loop over [indices[0..n-1]] of [openmc_cell_set_fill]: the
    material vector when the loop ends, and [false] when it ended through
    the [return] of the out-of-bounds branch. *)
Fixpoint push_materials (n_mat : Z) (indices material : list Z)
  : list Z * bool :=
  match indices with
  | [] => (material, true)
  | i_mat :: rest =>
      if i_mat =? MATERIAL_VOID then
        push_materials n_mat rest (material ++ [MATERIAL_VOID])
      else if (1 <=? i_mat) && (i_mat <=? n_mat) then
        push_materials n_mat rest (material ++ [i_mat - 1])
      else (material, false)
  end.

(** A material index the function accepts: the void sentinel, or a
    1-based index into [global_materials]. *)
Definition material_index_ok (n_mat i_mat : Z) : bool :=
  (i_mat =? MATERIAL_VOID) || ((1 <=? i_mat) && (i_mat <=? n_mat)).

(** What the function stores for an accepted material index. *)
Definition internal_material (i_mat : Z) : Z :=
  if i_mat =? MATERIAL_VOID then MATERIAL_VOID else i_mat - 1.

(** [indices] holds the [n] values the caller passes. *)
Definition openmc_cell_set_fill (index type_ : Z) (indices : list Z)
  (st : State) : Z * State :=
  match cell_at st index with
  | Some c =>
      if type_ =? FILL_MATERIAL then
        (* c.type = FILL_MATERIAL; c.material.clear(); *)
        let c1 := with_material (with_type c FILL_MATERIAL) [] in
        match push_materials (n_materials st) indices (material c1) with
        | (m, true) => (0, store_cell st index (with_material c1 m))
        | (m, false) =>
            (OPENMC_E_OUT_OF_BOUNDS,
             with_err_msg (store_cell st index (with_material c1 m))
               "Index in materials array is out of bounds.")
        end
      else if type_ =? FILL_UNIVERSE then
        (0, store_cell st index (with_type c FILL_UNIVERSE))
      else
        (0, store_cell st index (with_type c FILL_LATTICE))
  | None =>
      (OPENMC_E_OUT_OF_BOUNDS,
       with_err_msg st "Index in cells array is out of bounds.")
  end.

(** [instance] is [None] for a null pointer. *)
Definition openmc_cell_set_temperature (index : Z) (T : double)
  (instance : option Z) (st : State) : Z * State :=
  match cell_at st index with
  | Some c =>
      match instance with
      | Some k =>
          if (0 <=? k) && (k <? Z.of_nat (length (sqrtkT c))) then
            (0, store_cell st index
                  (with_sqrtkT c (list_set (sqrtkT c) (Z.to_nat k) (sqrt_kT T))))
          else
            (OPENMC_E_OUT_OF_BOUNDS,
             with_err_msg st "Distribcell instance is out of bounds.")
      | None =>
          (0, store_cell st index
                (with_sqrtkT c (map (fun _ => sqrt_kT T) (sqrtkT c))))
      end
  | None =>
      (OPENMC_E_OUT_OF_BOUNDS,
       with_err_msg st "Index in cells array is out of bounds.")
  end.

End CApi.

(** ** Concrete data for the examples and witnesses *)

(** The largest finite binary64 number, and 1e-14 rounded to binary64. *)
Definition DBL_MAX : float := 0x1.fffffffffffffp+1023%float.
Definition EPS_14 : float := 0x1.6849b86a12b9bp-47%float.

Definition binary64_doubles : Doubles := binary64 DBL_MAX EPS_14.

Definition origin : @Position binary64_doubles :=
  @Build_Position binary64_doubles 0%float 0%float 0%float.

Definition heading : @Direction binary64_doubles :=
  @Build_Direction binary64_doubles 1%float 0%float 0%float.

(** A surface that reports the same sense and distance everywhere. *)
Definition flat_surface (s : bool) (d : float) : @Surface binary64_doubles :=
  @Build_Surface binary64_doubles (fun _ _ => s) (fun _ _ _ => d).

(** Every point lies on the negative side of every surface. *)
Definition negative_surfaces (k : Z) : @Surface binary64_doubles :=
  flat_surface false 1%float.

(** Surface 1 (index 0) is at distance 1, every other surface one unit in
    the last place nearer. *)
Definition near_surfaces (k : Z) : @Surface binary64_doubles :=
  if k =? 0 then flat_surface true 1%float
  else flat_surface true 0x1.fffffffffffffp-1%float.

(** Surface 1 at distance 9, surface 2 at distance 5, and every other
    surface at 5 (1 + eps / 2). *)
Definition tie_surfaces (k : Z) : @Surface binary64_doubles :=
  if k =? 0 then flat_surface true 9%float
  else if k =? 1 then flat_surface true 5%float
  else flat_surface true
         (5 * (1 + EPS_14 / 2))%float.

(** Surface 1 at distance 9, surface 2 at distance 5, and every other
    surface at 5 (1 - eps / 2): nearer than surface 2, by less than the
    tolerance. *)
Definition close_surfaces (k : Z) : @Surface binary64_doubles :=
  if k =? 0 then flat_surface true 9%float
  else if k =? 1 then flat_surface true 5%float
  else flat_surface true
         (5 * (1 - EPS_14 / 2))%float.

(** Surface 1 at distance 1, surface 2 at 1 - 5/8 eps, and every other
    surface at 1 - 9/8 eps: each of the last two is within the tolerance
    of its predecessor, the last is not within the tolerance of the
    first. *)
Definition drift_surfaces (k : Z) : @Surface binary64_doubles :=
  if k =? 0 then flat_surface true 1%float
  else if k =? 1 then flat_surface true (1 - EPS_14 * 5 / 8)%float
  else flat_surface true (1 - EPS_14 * 9 / 8)%float.

(** A cell with the given identifier, fill kind, materials, temperatures
    and region fields. *)
Definition sample_cell `{Doubles} (cell_id kind : Z) (mats : list Z)
  (temps : list double) (infix postfix : list Z) (is_simple_cell : bool)
  : Cell :=
  {| id := cell_id; type := kind; universe := 0; fill := 0;
     material := mats; sqrtkT := temps; region := infix; rpn := postfix;
     simple := is_simple_cell |}.

(** Scenario 1 of the specification: region "1 -2 3". *)
Definition cell_1 : @Cell binary64_doubles :=
  @sample_cell binary64_doubles 1 1 [0] []
    [1; INT_MAX - 3; -2; INT_MAX - 3; 3]
    [1; -2; INT_MAX - 3; 3; INT_MAX - 3] true.

(** A cell read from the region "1 ()". *)
Definition cell_7 : @Cell binary64_doubles :=
  @sample_cell binary64_doubles 7 1 [0] []
    [1; INT_MAX - 3; INT_MAX; INT_MAX - 1]
    [1; INT_MAX - 3] true.

(** Scenario 5 of the specification: region "1 2 3". *)
Definition cell_5 : @Cell binary64_doubles :=
  @sample_cell binary64_doubles 5 1 [0] []
    [1; INT_MAX - 3; 2; INT_MAX - 3; 3]
    [1; 2; INT_MAX - 3; 3; INT_MAX - 3] true.

(** A cell read from the region "1". *)
Definition cell_8 : @Cell binary64_doubles :=
  @sample_cell binary64_doubles 8 1 [0] [] [1] [1] true.

(** [std::sqrt(K_BOLTZMANN * T)] in binary64.  The constant [K_BOLTZMANN]
    is declared in [constants.h], which is not among the sources: it is
    an argument. *)
Definition sqrt_kT_binary64 (K_BOLTZMANN T : float) : float :=
  PrimFloat.sqrt (K_BOLTZMANN * T)%float.

(** A value to run the examples with; it stands for the constant of
    [constants.h] and is not the program's value.  No example depends on
    it. *)
Definition sample_K_BOLTZMANN : float := 0x1p-13%float.

Definition sample_sqrt_kT : float -> float :=
  sqrt_kT_binary64 sample_K_BOLTZMANN.

(** One universe-filled cell, two materials. *)
Definition universe_state : @State binary64_doubles :=
  @Build_State binary64_doubles
    [@sample_cell binary64_doubles 1 2 [] [] [] [] true] 2 "".

(** One material-filled cell with one temperature, two materials. *)
Definition material_state : @State binary64_doubles :=
  @Build_State binary64_doubles
    [@sample_cell binary64_doubles 1 1 [0] [1%float] [] [] true] 2 "".

(** ** The Fortran compatibility functions *)

(** [v[i]] with an unchecked index. *)
Definition at_index {A : Type} (v : list A) (i : Z) : outcome A :=
  if i <? 0 then Fail OutOfRangeAccess
  else match nth_error v (Z.to_nat i) with
       | Some a => Ok a
       | None => Fail OutOfRangeAccess
       end.

Section Accessors.
Context `{Doubles} `{ApiConstants}.

(** [global_cells[cell_ind]]: a 0-based, unchecked index. *)
Definition cell_pointer (st : State) (cell_ind : Z) : outcome Cell :=
  at_index (global_cells st) cell_ind.

Definition cell_id (c : Cell) : Z := id c.

Definition cell_set_id (c : Cell) (new_id : Z) : Cell :=
  {| id := new_id; type := type c; universe := universe c; fill := fill c;
     material := material c; sqrtkT := sqrtkT c; region := region c;
     rpn := rpn c; simple := simple c |}.

Definition cell_type (c : Cell) : Z := type c.
Definition cell_universe (c : Cell) : Z := universe c.
Definition cell_fill (c : Cell) : Z := fill c.

Definition cell_material_size (c : Cell) : Z := Z.of_nat (length (material c)).

(** [c->material[i-1]], handed back 1-based unless it is the void
    sentinel. *)
Definition cell_material (c : Cell) (i : Z) : outcome Z :=
  mat <- at_index (material c) (i - 1) ;;
  if mat =? MATERIAL_VOID then Ok MATERIAL_VOID else Ok (mat + 1).

Definition cell_sqrtkT_size (c : Cell) : Z := Z.of_nat (length (sqrtkT c)).

(** [c->sqrtkT[i]]: a 0-based, unchecked index. *)
Definition cell_sqrtkT (c : Cell) (i : Z) : outcome double :=
  at_index (sqrtkT c) i.

End Accessors.

(** ** Region expressions

    The grammar the compiler is written for: half-spaces, parenthesised
    groups, complement, intersection and union, in falling precedence. *)

Inductive region_expr : Type :=
| Halfspace (s : Z)
| Paren (e : region_expr)
| Complement (e : region_expr)
| Intersection (a b : region_expr)
| Union (a b : region_expr).

Section RegionExpr.
Context `{OpCodes}.

(** The code of the outermost operator; a half-space and a group stand
    above every operator. *)
Definition precedence (e : region_expr) : Z :=
  match e with
  | Halfspace _ | Paren _ => OP_RIGHT_PAREN
  | Complement _ => OP_COMPLEMENT
  | Intersection _ _ => OP_INTERSECTION
  | Union _ _ => OP_UNION
  end.

(** The infix tokens of [e] where an operand of an operator of code
    [level] is expected: parentheses are added around an expression of
    lower precedence.  Binary operators associate to the left and the
    complement to the right. *)
Fixpoint infix_at (level : Z) (e : region_expr) : list Z :=
  let body :=
    match e with
    | Halfspace s => [s]
    | Paren a => OP_LEFT_PAREN :: infix_at OP_UNION a ++ [OP_RIGHT_PAREN]
    | Complement a => OP_COMPLEMENT :: infix_at OP_COMPLEMENT a
    | Intersection a b =>
        infix_at OP_INTERSECTION a
          ++ OP_INTERSECTION :: infix_at OP_COMPLEMENT b
    | Union a b =>
        infix_at OP_UNION a ++ OP_UNION :: infix_at OP_INTERSECTION b
    end in
  if precedence e <? level
  then OP_LEFT_PAREN :: body ++ [OP_RIGHT_PAREN]
  else body.

Definition infix_of (e : region_expr) : list Z := infix_at OP_UNION e.

(** The postorder of [e]. *)
Fixpoint postfix_of (e : region_expr) : list Z :=
  match e with
  | Halfspace s => [s]
  | Paren a => postfix_of a
  | Complement a => postfix_of a ++ [OP_COMPLEMENT]
  | Intersection a b => postfix_of a ++ postfix_of b ++ [OP_INTERSECTION]
  | Union a b => postfix_of a ++ postfix_of b ++ [OP_UNION]
  end.

(** Every half-space of [e] is an operand token. *)
Fixpoint operands_ok (e : region_expr) : Prop :=
  match e with
  | Halfspace s => s < OP_UNION
  | Paren a | Complement a => operands_ok a
  | Intersection a b | Union a b => operands_ok a /\ operands_ok b
  end.

(** [e] is a pure intersection of half-spaces. *)
Fixpoint conjunctive (e : region_expr) : bool :=
  match e with
  | Halfspace _ => true
  | Paren a => conjunctive a
  | Complement _ | Union _ _ => false
  | Intersection a b => conjunctive a && conjunctive b
  end.

(** The expression after the constructor's binding of surface ids. *)
Fixpoint bind_expr (surface_map : Z -> Z) (e : region_expr) : region_expr :=
  match e with
  | Halfspace s => Halfspace (bind_surface surface_map s)
  | Paren a => Paren (bind_expr surface_map a)
  | Complement a => Complement (bind_expr surface_map a)
  | Intersection a b =>
      Intersection (bind_expr surface_map a) (bind_expr surface_map b)
  | Union a b => Union (bind_expr surface_map a) (bind_expr surface_map b)
  end.

(** The operator stack while an operand of an operator of code [level]
    is compiled: it holds operator codes and left parentheses, and its
    top does not bind as tightly as [level]. *)
Definition shelf_ok (level : Z) (stack : list Z) : Prop :=
  Forall (fun op => op = OP_LEFT_PAREN \/ op = OP_UNION \/
                    op = OP_INTERSECTION \/ op = OP_COMPLEMENT) stack /\
  (level = OP_COMPLEMENT \/
   match stack with
   | [] => True
   | op :: _ => op = OP_LEFT_PAREN \/ op < level
   end).

(** Operators waiting on the stack for an expression compiled at
    [level]. *)
Definition pending_ok (level : Z) (pending : list Z) : Prop :=
  Forall (fun op => (op = OP_UNION \/ op = OP_INTERSECTION \/
                     op = OP_COMPLEMENT) /\ level <= op) pending.

(** What the main loop has done after the tokens of an expression. *)
Definition compiled_at (cell_id level : Z) (e : region_expr)
    (tokens : list Z) : Prop :=
  forall (rest rpn stack : list Z),
    shelf_ok level stack ->
    exists out pending,
      rpn_loop cell_id (tokens ++ rest) rpn stack
      = rpn_loop cell_id rest (rpn ++ out) (pending ++ stack) /\
      out ++ pending = postfix_of e /\
      pending_ok level pending.

End RegionExpr.

Section Meaning.
Context `{OpCodes} `{Doubles}.
Variable global_surfaces : Z -> Surface.
Variables (r : Position) (u : Direction) (on_surface : Z).

(** Whether the particle is in the region [e]. *)
Fixpoint holds (e : region_expr) : bool :=
  match e with
  | Halfspace s => operand_decision global_surfaces r u on_surface s
  | Paren a => holds a
  | Complement a => negb (holds a)
  | Intersection a b => holds a && holds b
  | Union a b => holds a || holds b
  end.

End Meaning.

(** The region "1 -2 | ~(3 4)" and a cell read from it. *)
Definition sample_region : region_expr :=
  Union (Intersection (Halfspace 1) (Halfspace (-2)))
        (Complement (Paren (Intersection (Halfspace 3) (Halfspace 4)))).

Definition cell_9 : @Cell binary64_doubles :=
  @sample_cell binary64_doubles 9 1 [0] []
    [1; INT_MAX - 3; -2; INT_MAX - 4; INT_MAX - 2; INT_MAX; 3; INT_MAX - 3; 4;
     INT_MAX - 1]
    [1; -2; INT_MAX - 3; 3; 4; INT_MAX - 3; INT_MAX - 2; INT_MAX - 4] false.

(** ** [Cell::to_hdf5]: the region string

    [copysign(global_surfaces[abs(token)-1]->id, token)] is
    [std::copysign] on two integers: both are converted to [double] and
    the result is a [double].  The stream prints it in the default
    floating-point format: [%g] with six significant digits. *)

Definition digit_char (d : Z) : ascii := ascii_of_nat (Z.to_nat (48 + d)).

(** The decimal digits of [n >= 0], most significant first. *)
Fixpoint digits_of (fuel : nat) (n : Z) : list ascii :=
  match fuel with
  | O => []
  | S fuel' =>
      if n <? 10 then [digit_char n]
      else digits_of fuel' (n / 10) ++ [digit_char (n mod 10)]
  end.

Definition decimal_digits (n : Z) : list ascii :=
  digits_of (S (Z.to_nat (Z.log2 n))) n.

Fixpoint strip_trailing_zeros (ds : list ascii) : list ascii :=
  match ds with
  | [] => []
  | d :: tl =>
      match strip_trailing_zeros tl with
      | [] => if (d =? "0")%char then [] else [d]
      | tl' => d :: tl'
      end
  end.

(** [%g] of an integer-valued magnitude [m]: the integer itself below
    [10^6]; from there on the scientific style, the mantissa rounded to
    six significant digits (ties to even), trailing zeros and an empty
    fraction removed, and an exponent of at least two digits. *)
Definition stream_magnitude (m : Z) : list ascii :=
  if m <? 10 ^ 6 then decimal_digits m
  else
    let k := Z.of_nat (length (decimal_digits m)) in
    let scale := 10 ^ (k - 6) in
    let q := m / scale in
    let rem := m mod scale in
    let q' := if (scale <? 2 * rem) || ((scale =? 2 * rem) && Z.odd q)
              then q + 1 else q in
    let '(mantissa, x) := if q' =? 10 ^ 6 then (10 ^ 5, k) else (q', k - 1) in
    let ds := decimal_digits mantissa in
    let fraction := strip_trailing_zeros (skipn 1 ds) in
    firstn 1 ds
      ++ match fraction with [] => [] | _ => "."%char :: fraction end
      ++ ["e"%char; "+"%char]
      ++ (if x <? 10 then ["0"%char] else []) ++ decimal_digits x.

(** [region_spec << copysign(id, token)]: the sign is the one of
    [token], the magnitude the one of [id]. *)
Definition stream_copysign (id_ token : Z) : list ascii :=
  (if token <? 0 then ["-"%char] else []) ++ stream_magnitude (Z.abs id_).

Section RegionText.
Context `{OpCodes}.

(** [surface_id k] is [global_surfaces[k]->id]. *)
Variable surface_id : Z -> Z.

(** One round of the loop over [region]. *)
Definition token_text (token : Z) : list ascii :=
  if token =? OP_LEFT_PAREN then [" "%char; "("%char]
  else if token =? OP_RIGHT_PAREN then [" "%char; ")"%char]
  else if token =? OP_COMPLEMENT then [" "%char; "~"%char]
  else if token =? OP_INTERSECTION then []
  else if token =? OP_UNION then [" "%char; "|"%char]
  else " "%char :: stream_copysign (surface_id (Z.abs token - 1)) token.

(** The string written as the [region] attribute; a cell with an empty
    region writes none. *)
Definition region_text (region : list Z) : option string :=
  match region with
  | [] => None
  | _ => Some (string_of_list_ascii (flat_map token_text region))
  end.

(** The integer [copysign(id, token)] of an operand, any other token
    as it is. *)
Definition user_token (token : Z) : Z :=
  if token <? OP_UNION then
    (if token <? 0 then - Z.abs (surface_id (Z.abs token - 1))
     else Z.abs (surface_id (Z.abs token - 1)))
  else token.

(** A token whose text reads back: an operator, or an operand whose
    surface id has at most six digits and is itself an operand. *)
Definition readable (token : Z) : Prop :=
  token = OP_LEFT_PAREN \/ token = OP_RIGHT_PAREN \/
  token = OP_COMPLEMENT \/ token = OP_INTERSECTION \/ token = OP_UNION \/
  (token < OP_UNION /\
   Z.abs (surface_id (Z.abs token - 1)) < 10 ^ 6 /\
   Z.abs (surface_id (Z.abs token - 1)) < OP_UNION).

End RegionText.

Section SecondPassForm.
Context `{OpCodes}.

(** The tokens the first pass produced for [tokens]: the second pass
    adds intersections and nothing else. *)
Definition without_intersections (tokens : list Z) : list Z :=
  filter (fun t => negb (t =? OP_INTERSECTION)) tokens.

(** The intersections of [tokens] are exactly the ones the second pass
    of the tokenizer puts in. *)
Definition second_pass_form (tokens : list Z) : Prop :=
  with_intersections (without_intersections tokens) = tokens.

(** A token sequence in that form which opens like an operand and closes
    like one: it can stand on either side of an implicit intersection. *)
Definition operand_form (tokens : list Z) : Prop :=
  second_pass_form tokens /\
  (exists q ys, without_intersections tokens = q :: ys /\
                right_compat q = true) /\
  (exists xs p, without_intersections tokens = xs ++ [p] /\
                left_compat p = true).

End SecondPassForm.

(** The half-spaces of an expression, left to right. *)
Fixpoint halfspaces (e : region_expr) : list Z :=
  match e with
  | Halfspace s => [s]
  | Paren a | Complement a => halfspaces a
  | Intersection a b | Union a b => halfspaces a ++ halfspaces b
  end.

(** The surface a half-space [s] of the input names is in the model:
    [surface_map] gives it an index, and the surface at that index
    carries its id. *)
Definition surface_known `{OpCodes} (surface_map surface_id : Z -> Z)
    (s : Z) : Prop :=
  0 <= surface_map (Z.abs s) /\
  surface_map (Z.abs s) + 1 < OP_UNION /\
  surface_id (surface_map (Z.abs s)) = Z.abs s.

(** ** [read_cells] and the universe table *)

(** The calls of [fatal_error] in the constructor and in [read_cells];
    [Raised] is an exception or an access outside a vector. *)
Inductive fatal : Type :=
| NoCellsFound
| MissingCellId
| NeitherMaterialNorFill (cell_id : Z)
| BothMaterialAndFill (cell_id : Z)
| EmptyMaterial (cell_id : Z)
| TemperatureWithoutMaterial (cell_id : Z)
| NegativeTemperature (cell_id : Z)
| TranslationWithoutFill (cell_id : Z)
| Non3DTranslation (cell_id : Z)
| RotationWithoutFill (cell_id : Z)
| Non3DRotation (cell_id : Z)
| Raised (f : failure).

Inductive checked (A : Type) : Type :=
| Done (a : A)
| Fatal (e : fatal).

Arguments Done {A} a.
Arguments Fatal {A} e.

Module Universe.

Record t : Type := {
  id : Z;             (* unique user-defined id *)
  cells : list Z      (* indices into global_cells *)
}.

End Universe.

Module Globals.
Section Fields.
Context `{Doubles}.

(** The global variables [read_cells] works on; [universe_map] lists
    its entries, the latest first. *)
Record t : Type := {
  n_cells : Z;
  global_cells : list Cell;
  global_universes : list Universe.t;
  universe_map : list (Z * Z);
  overlap_check_count : list Z
}.

End Fields.
End Globals.

(** [universe_map.find(uid)]. *)
Fixpoint map_find (entries : list (Z * Z)) (key : Z) : option Z :=
  match entries with
  | [] => None
  | (k, v) :: tl => if k =? key then Some v else map_find tl key
  end.

(** [v.resize(n, 0)]. *)
Definition resize (v : list Z) (n : Z) : list Z :=
  firstn (Z.to_nat n) v ++ repeat 0 (Z.to_nat n - length v).

Section ReadCells.
Context `{Doubles}.

(** The XML cell elements and the constructor [Cell(cell_node)]. *)
Variable Node : Type.
Variable construct : Node -> checked Cell.
Variable openmc_check_overlaps : bool.

(** [for (cell_node : children) global_cells.push_back(new Cell(cell_node))]. *)
Fixpoint construct_cells (nodes : list Node) (cells : list Cell)
  : checked (list Cell) :=
  match nodes with
  | [] => Done cells
  | node :: rest =>
      match construct node with
      | Done c => construct_cells rest (cells ++ [c])
      | Fatal e => Fatal e
      end
  end.

(** One round of the loop that populates the universe vector and map,
    for the cell [c] at index [i]. *)
Definition populate_step (i : Z) (c : Cell)
    (universes : list Universe.t) (entries : list (Z * Z))
  : outcome (list Universe.t * list (Z * Z)) :=
  let uid := universe c in
  match map_find entries uid with
  | None =>
      Ok (universes ++ [{| Universe.id := uid; Universe.cells := [i] |}],
          (uid, Z.of_nat (length universes)) :: entries)
  | Some k =>
      u <- at_index universes k ;;
      Ok (list_set universes (Z.to_nat k)
            {| Universe.id := Universe.id u;
               Universe.cells := Universe.cells u ++ [i] |},
          entries)
  end.

(** [for (int i = 0; i < global_cells.size(); i++)], from index [i] on;
    [cells] are the cells from there. *)
Fixpoint populate (cells : list Cell) (i : Z)
    (universes : list Universe.t) (entries : list (Z * Z))
  : outcome (list Universe.t * list (Z * Z)) :=
  match cells with
  | [] => Ok (universes, entries)
  | c :: rest =>
      '(universes', entries') <- populate_step i c universes entries ;;
      populate rest (i + 1) universes' entries'
  end.

Definition read_cells (nodes : list Node) (g : Globals.t)
  : checked Globals.t :=
  let n := Globals.n_cells g + Z.of_nat (length nodes) in
  if n =? 0 then Fatal NoCellsFound
  else
    match construct_cells nodes (Globals.global_cells g) with
    | Fatal e => Fatal e
    | Done cells =>
        match populate cells 0 (Globals.global_universes g)
                (Globals.universe_map g) with
        | Fail f => Fatal (Raised f)
        | Ok (universes, entries) =>
            Done {| Globals.n_cells := n;
                    Globals.global_cells := cells;
                    Globals.global_universes := universes;
                    Globals.universe_map := entries;
                    Globals.overlap_check_count :=
                      if openmc_check_overlaps
                      then resize (Globals.overlap_check_count g) n
                      else Globals.overlap_check_count g |}
        end
    end.

(** The globals before the first call. *)
Definition no_globals : Globals.t :=
  {| Globals.n_cells := 0;
     Globals.global_cells := [];
     Globals.global_universes := [];
     Globals.universe_map := [];
     Globals.overlap_check_count := [] |}.

(** [for (auto i_cell : cells) cell_ids.push_back(global_cells[i_cell]->id)]. *)
Fixpoint cell_ids (g : Globals.t) (indices : list Z) : outcome (list Z) :=
  match indices with
  | [] => Ok []
  | i_cell :: rest =>
      c <- at_index (Globals.global_cells g) i_cell ;;
      written <- cell_ids g rest ;;
      Ok (id c :: written)
  end.

(** [Universe::to_hdf5]: the [cells] dataset, [None] when the universe
    has no cell and nothing is written. *)
Definition Universe_to_hdf5 (g : Globals.t) (u : Universe.t)
  : outcome (option (list Z)) :=
  match Universe.cells u with
  | [] => Ok None
  | indices => written <- cell_ids g indices ;; Ok (Some written)
  end.

(** [universe_id(i_univ)]. *)
Definition universe_id (g : Globals.t) (i_univ : Z) : outcome Z :=
  u <- at_index (Globals.global_universes g) i_univ ;;
  Ok (Universe.id u).

(** The universe ids of [cells] in the order of their first cell. *)
Fixpoint distinct_first (ids : list Z) : list Z :=
  match ids with
  | [] => []
  | x :: rest => x :: remove Z.eq_dec x (distinct_first rest)
  end.

(** The position of the first [x] in [ids], counted from [i]. *)
Fixpoint index_of (x : Z) (ids : list Z) (i : Z) : option Z :=
  match ids with
  | [] => None
  | y :: rest => if y =? x then Some i else index_of x rest (i + 1)
  end.

(** The indices, counted from [i], of the cells of universe [uid]. *)
Fixpoint cells_in (uid : Z) (cells : list Cell) (i : Z) : list Z :=
  match cells with
  | [] => []
  | c :: rest =>
      if universe c =? uid
      then i :: cells_in uid rest (i + 1)
      else cells_in uid rest (i + 1)
  end.

(** The universe table of [cells]: one universe for every universe id,
    in the order of first appearance, each with the indices of its
    cells in rising order. *)
Definition universes_of (cells : list Cell) : list Universe.t :=
  map (fun uid => {| Universe.id := uid;
                     Universe.cells := cells_in uid cells 0 |})
      (distinct_first (map universe cells)).

End ReadCells.

(** Three cells, the first and the last in universe 5, the second in
    universe 7. *)
Definition cell_in_universe (cell_id uid : Z) : @Cell binary64_doubles :=
  @Build_Cell binary64_doubles cell_id 1 uid 0 [0] [] [] [] true.

Definition three_cells : list (@Cell binary64_doubles) :=
  [cell_in_universe 10 5; cell_in_universe 11 7; cell_in_universe 12 5].

(** ** The [Cell] constructor

    The constructor reads an XML element through [check_for_node],
    [get_node_value] and [get_node_array] of the missing
    [xml_interface.h].  An element is modelled by what these return:
    [None] where [check_for_node] is false, the text where
    [get_node_value] is used, and the entries where [get_node_array]
    is. *)

Definition and_then {A B : Type} (m : checked A) (k : A -> checked B)
  : checked B :=
  match m with
  | Done a => k a
  | Fatal e => Fatal e
  end.

(** An exception or an [outcome] failure ends the constructor. *)
Definition raise {A : Type} (m : outcome A) : checked A :=
  match m with
  | Ok a => Done a
  | Fail f => Fatal (Raised f)
  end.

Notation "x <~ m ;; k" := (and_then m (fun x => k))
  (at level 61, m at next level, right associativity).

Fixpoint skip_spaces (s : list ascii) : list ascii :=
  match s with
  | c :: tl => if isspace c then skip_spaces tl else s
  | [] => []
  end.

(** [std::stoi(str)] on any string: leading whitespace is skipped. *)
Definition std_stoi (str : string) : outcome Z :=
  stoi (skip_spaces (list_ascii_of_string str)).

Section Constructor.
Context `{OpCodes} `{Doubles} `{ApiConstants}.

Record cell_node : Type := {
  node_id : option string;
  node_name : option string;
  node_universe : option string;
  node_fill : option string;
  node_material : option (list string);
  node_temperature : option (list double);
  node_region : option string;
  node_translation : option (list double);
  node_rotation : option (list double)
}.

(** The members of a cell besides those of [Cell]. *)
Record cell_extras : Type := {
  name : string;
  translation : list double;
  rotation : list double
}.

(** [C_NONE] of the missing [constants.h], the [double] zero, the
    conversion [std::sqrt(K_BOLTZMANN * T)], and the nine entries of the
    rotation matrix, which the constructor computes from the three
    angles with [std::cos] and [std::sin]. *)
Variable C_NONE : Z.
Variable zero : double.
Variable sqrt_kT : double -> double.
Variable rotation_matrix : double -> double -> double -> list double.

(** [surface_map] of [surface.h]. *)
Variable surface_map : Z -> Z.

(** The value of the member [type], which the constructor does not
    assign. *)
Variable unassigned_type : Z.

(** [if (mat.compare("void") == 0) MATERIAL_VOID else std::stoi(mat)]. *)
Definition read_material (mat : string) : outcome Z :=
  if String.eqb mat "void" then Ok MATERIAL_VOID else std_stoi mat.

Fixpoint read_materials (mats : list string) : outcome (list Z) :=
  match mats with
  | [] => Ok []
  | mat :: rest =>
      m <- read_material mat ;;
      ms <- read_materials rest ;;
      Ok (m :: ms)
  end.

(** The material element. *)
Definition read_material_node (cell_id : Z) (node : cell_node)
  : checked (list Z) :=
  match node_material node with
  | None => Done []
  | Some [] => Fatal (EmptyMaterial cell_id)
  | Some mats => raise (read_materials mats)
  end.

(** The temperature element. *)
Definition read_temperature_node (cell_id : Z) (material : list Z)
    (node : cell_node) : checked (list double) :=
  match node_temperature node with
  | None => Done []
  | Some temps =>
      match material with
      | [] => Fatal (TemperatureWithoutMaterial cell_id)
      | _ =>
          if existsb (fun T => d_lt T zero) temps
          then Fatal (NegativeTemperature cell_id)
          else Done (map sqrt_kT temps)
      end
  end.

(** The translation element. *)
Definition read_translation_node (cell_id fill : Z) (node : cell_node)
  : checked (list double) :=
  match node_translation node with
  | None => Done []
  | Some xyz =>
      if fill =? C_NONE then Fatal (TranslationWithoutFill cell_id)
      else if negb (length xyz =? 3)%nat then Fatal (Non3DTranslation cell_id)
      else Done xyz
  end.

(** The rotation element. *)
Definition read_rotation_node (cell_id fill : Z) (node : cell_node)
  : checked (list double) :=
  match node_rotation node with
  | None => Done []
  | Some rot =>
      if fill =? C_NONE then Fatal (RotationWithoutFill cell_id)
      else
        match rot with
        | [phi; theta; psi] =>
            Done ([phi; theta; psi] ++ rotation_matrix phi theta psi)
        | _ => Fatal (Non3DRotation cell_id)
        end
  end.

(** [Cell::Cell(pugi::xml_node cell_node)]. *)
Definition Cell_new (node : cell_node) : checked (Cell * cell_extras) :=
  cell_id <~ match node_id node with
             | Some text => raise (std_stoi text)
             | None => Fatal MissingCellId
             end ;;
  let cell_name := match node_name node with Some text => text | None => ""%string end in
  cell_universe <~ match node_universe node with
                   | Some text => raise (std_stoi text)
                   | None => Done 0
                   end ;;
  match node_fill node, node_material node with
  | None, None => Fatal (NeitherMaterialNorFill cell_id)
  | Some _, Some _ => Fatal (BothMaterialAndFill cell_id)
  | _, _ =>
      cell_fill <~ match node_fill node with
                   | Some text => raise (std_stoi text)
                   | None => Done C_NONE
                   end ;;
      cell_material <~ read_material_node cell_id node ;;
      cell_sqrtkT <~ read_temperature_node cell_id cell_material node ;;
      compiled <~ raise (compile_region cell_id surface_map
                           match node_region node with
                           | Some text => text
                           | None => ""%string
                           end) ;;
      cell_translation <~ read_translation_node cell_id cell_fill node ;;
      cell_rotation <~ read_rotation_node cell_id cell_fill node ;;
      Done ({| id := cell_id; type := unassigned_type;
               universe := cell_universe; fill := cell_fill;
               material := cell_material; sqrtkT := cell_sqrtkT;
               region := fst (fst compiled); rpn := snd (fst compiled);
               simple := snd compiled |},
            {| name := cell_name; translation := cell_translation;
               rotation := cell_rotation |})
  end.

(** The constructor as [read_cells] uses it. *)
Definition construct_cell (node : cell_node) : checked Cell :=
  built <~ Cell_new node ;; Done (fst built).

End Constructor.

(** A cell element: id 3, materials 1 and void, one temperature, and
    the region "1 -2". *)
Definition sample_node : @cell_node binary64_doubles :=
  @Build_cell_node binary64_doubles (Some "3"%string) None None None
    (Some ["1"; "void"]%string) (Some [300%float]) (Some "1 -2"%string)
    None None.

Definition sample_Cell_new :=
  @Cell_new top_codes binary64_doubles sample_constants (-1) 0%float
    sample_sqrt_kT (fun _ _ _ => []) (fun k => k - 1) 0.

(** ** Characters of the region syntax *)

(** A character the first loop of [tokenize] has a branch for. *)
Definition region_char (c : ascii) : bool :=
  (c =? "(")%char || (c =? ")")%char || (c =? "|")%char || (c =? "~")%char ||
  (c =? "-")%char || (c =? "+")%char || isdigit c || isspace c.

(** ** Written regions

    A region as a user writes it: the spellings of its tokens, each
    after some whitespace (possibly none), and whitespace at the end.
    An intersection has no spelling. *)

Section WrittenRegions.
Context `{OpCodes}.

(** [text] spells the token [t]. *)
Definition spells (text : list ascii) (t : Z) : Prop :=
  (text = ["("%char] /\ t = OP_LEFT_PAREN) \/
  (text = [")"%char] /\ t = OP_RIGHT_PAREN) \/
  (text = ["|"%char] /\ t = OP_UNION) \/
  (text = ["~"%char] /\ t = OP_COMPLEMENT) \/
  (operand_literal text /\ t = literal_value text).

Definition written (items : list (list ascii * list ascii))
    (trail : list ascii) : list ascii :=
  flat_map (fun p => fst p ++ snd p) items ++ trail.

(** The whitespace is whitespace, and no digit follows a literal
    directly. *)
Fixpoint well_spaced (items : list (list ascii * list ascii))
    (trail : list ascii) : Prop :=
  match items with
  | [] => forallb isspace trail = true
  | (sep, text) :: rest =>
      forallb isspace sep = true /\
      (is_literal text = true -> no_leading_digit (written rest trail)) /\
      well_spaced rest trail
  end.

End WrittenRegions.

(** * Part II: properties *)

(** ** The tokenizer *)

Section SecondPass.
Context `{OpCodes}.

Lemma size_minus_1_app (done rest : list Z) (t : Z) :
  size_minus_1 (done ++ t :: rest) = Z.of_nat (length done + length rest).
Proof.
  unfold size_minus_1.
  destruct done as [|d done']; simpl; [reflexivity|].
  rewrite length_app. simpl. f_equal. lia.
Qed.

Lemma vec_get_here (done rest : list Z) (t : Z) :
  vec_get (done ++ t :: rest) (Z.of_nat (length done)) = Ok t.
Proof.
  unfold vec_get.
  destruct (Z.ltb_spec (Z.of_nat (length done)) 0) as [Hneg|_]; [lia|].
  rewrite Nat2Z.id, nth_error_app2 by lia.
  now rewrite Nat.sub_diag.
Qed.

Lemma vec_get_next (done rest : list Z) (t t' : Z) :
  vec_get (done ++ t :: t' :: rest) (Z.of_nat (length done) + 1) = Ok t'.
Proof.
  replace (done ++ t :: t' :: rest) with ((done ++ [t]) ++ t' :: rest)
    by now rewrite <- app_assoc.
  replace (Z.of_nat (length done) + 1) with (Z.of_nat (length (done ++ [t])))
    by (rewrite length_app; simpl; lia).
  apply vec_get_here.
Qed.

Lemma vec_insert_next (done rest : list Z) (t x : Z) :
  vec_insert (done ++ t :: rest) (Z.of_nat (length done) + 1) x
  = done ++ t :: x :: rest.
Proof.
  unfold vec_insert.
  replace (Z.to_nat (Z.of_nat (length done) + 1)) with (length (done ++ [t]))
    by (rewrite length_app; simpl; lia).
  replace (done ++ t :: rest) with ((done ++ [t]) ++ rest)
    by now rewrite <- app_assoc.
  rewrite firstn_app, skipn_app, Nat.sub_diag, firstn_all, skipn_all.
  simpl. rewrite app_nil_r, <- app_assoc. reflexivity.
Qed.

Lemma left_compat_intersection :
  codes_ordered -> left_compat OP_INTERSECTION = false.
Proof.
  unfold codes_ordered, left_compat. intros Hc.
  apply orb_false_iff. split; [apply Z.ltb_ge|apply Z.eqb_neq]; lia.
Qed.

(** The loop invariant of the second pass: the tokens before position
    [i] are final, and from position [i] on the loop produces what
    [with_intersections] prescribes.  The bound of two rounds per token
    is enough. *)
Lemma insert_intersections_from (Hc : codes_ordered) :
  forall (rest : list Z) (t : Z) (done : list Z) (fuel : nat),
    (2 * length rest + 1 <= fuel)%nat ->
    insert_intersections fuel (Z.of_nat (length done)) (done ++ t :: rest)
    = Ok (done ++ with_intersections (t :: rest)).
Proof.
  induction rest as [|t' rest IH]; intros t done fuel Hfuel.
  - destruct fuel as [|fuel]; [simpl in Hfuel; lia|]. simpl.
    rewrite size_minus_1_app. simpl.
    destruct (Z.ltb_spec (Z.of_nat (length done)) (Z.of_nat (length done + 0)));
      [lia|reflexivity].
  - destruct fuel as [|fuel]; [simpl in Hfuel; lia|].
    cbn [insert_intersections].
    rewrite size_minus_1_app.
    destruct (Z.ltb_spec (Z.of_nat (length done))
                (Z.of_nat (length done + length (t' :: rest)))) as [_|Hge];
      [|simpl in Hge; lia].
    rewrite vec_get_here, vec_get_next. cbn [bind].
    cbn [with_intersections].
    destruct (left_compat t && right_compat t') eqn:Hcompat.
    + rewrite vec_insert_next.
      destruct fuel as [|fuel]; [simpl in Hfuel; lia|].
      cbn [insert_intersections].
      replace (done ++ t :: OP_INTERSECTION :: t' :: rest)
        with ((done ++ [t]) ++ OP_INTERSECTION :: t' :: rest)
        by now rewrite <- app_assoc.
      replace (Z.of_nat (length done) + 1)
        with (Z.of_nat (length (done ++ [t])))
        by (rewrite length_app; simpl; lia).
      rewrite size_minus_1_app.
      destruct (Z.ltb_spec (Z.of_nat (length (done ++ [t])))
                  (Z.of_nat (length (done ++ [t]) + length (t' :: rest))))
        as [_|Hge]; [|simpl in Hge; lia].
      rewrite vec_get_here, vec_get_next. cbn [bind].
      rewrite (left_compat_intersection Hc). cbn [andb].
      replace ((done ++ [t]) ++ OP_INTERSECTION :: t' :: rest)
        with ((done ++ [t; OP_INTERSECTION]) ++ t' :: rest)
        by now rewrite <- !app_assoc.
      replace (Z.of_nat (length (done ++ [t])) + 1)
        with (Z.of_nat (length (done ++ [t; OP_INTERSECTION])))
        by (rewrite !length_app; simpl; lia).
      rewrite IH by (simpl in Hfuel; lia).
      now rewrite <- app_assoc.
    + replace (done ++ t :: t' :: rest) with ((done ++ [t]) ++ t' :: rest)
        by now rewrite <- app_assoc.
      replace (Z.of_nat (length done) + 1)
        with (Z.of_nat (length (done ++ [t])))
        by (rewrite length_app; simpl; lia).
      rewrite IH by (simpl in Hfuel; lia).
      now rewrite <- app_assoc.
Qed.

Lemma add_intersections_nonempty (Hc : codes_ordered) (t : Z) (rest : list Z) :
  add_intersections (t :: rest) = Ok (with_intersections (t :: rest)).
Proof.
  unfold add_intersections.
  apply (insert_intersections_from Hc rest t []).
  simpl. lia.
Qed.

Lemma add_intersections_empty : add_intersections [] = Fail OutOfRangeAccess.
Proof. reflexivity. Qed.

Lemma with_intersections_operands (operands : list Z) :
  Forall (fun s => s < OP_UNION) operands ->
  with_intersections operands = intersperse_intersection operands.
Proof.
  induction operands as [|s [|s' tl'] IH]; intros Hall; try reflexivity.
  inversion Hall as [|? ? Hs Htl]; subst.
  specialize (IH Htl).
  change (with_intersections (s :: s' :: tl'))
    with (if left_compat s && right_compat s'
          then s :: OP_INTERSECTION :: with_intersections (s' :: tl')
          else s :: with_intersections (s' :: tl')).
  change (intersperse_intersection (s :: s' :: tl'))
    with (s :: OP_INTERSECTION :: intersperse_intersection (s' :: tl')).
  rewrite IH.
  inversion Htl as [|? ? Hs' _]; subst.
  unfold left_compat, right_compat.
  rewrite (proj2 (Z.ltb_lt s OP_UNION) Hs), (proj2 (Z.ltb_lt s' OP_UNION) Hs').
  reflexivity.
Qed.


End SecondPass.

(** A whitespace character takes none of the earlier branches of the
    first loop. *)
Lemma isspace_class (c : ascii) :
  isspace c = true ->
  (c =? "(")%char = false /\ (c =? ")")%char = false /\
  (c =? "|")%char = false /\ (c =? "~")%char = false /\
  (c =? "-")%char = false /\ (c =? "+")%char = false /\
  isdigit c = false.
Proof.
  destruct c as [[] [] [] [] [] [] [] []]; intros Hs; vm_compute in Hs;
    try discriminate Hs; repeat split; reflexivity.
Qed.

(** The first character of a literal takes the literal branch. *)
Lemma literal_head_class (c : ascii) (ds : list ascii) :
  is_literal (c :: ds) = true ->
  (c =? "(")%char = false /\ (c =? ")")%char = false /\
  (c =? "|")%char = false /\ (c =? "~")%char = false /\
  ((c =? "-")%char || (c =? "+")%char || isdigit c) = true /\
  forallb isdigit ds = true.
Proof.
  unfold is_literal.
  destruct c as [[] [] [] [] [] [] [] []]; cbn -[forallb Nat.eqb length];
    intros Hl; try discriminate Hl;
    repeat split; try reflexivity;
    apply andb_true_iff in Hl; tauto.
Qed.

Lemma take_digits_app (ds rest : list ascii) :
  forallb isdigit ds = true -> no_leading_digit rest ->
  take_digits (ds ++ rest) = ds.
Proof.
  intros Hds Hrest.
  induction ds as [|d ds IH]; cbn [app take_digits drop_digits].
  - destruct rest as [|c rest]; [reflexivity|].
    unfold no_leading_digit in Hrest.
    cbn [take_digits drop_digits]. now rewrite Hrest.
  - cbn [forallb] in Hds. apply andb_true_iff in Hds as [Hd Hds].
    now rewrite Hd, IH.
Qed.

Lemma drop_digits_app (ds rest : list ascii) :
  forallb isdigit ds = true -> no_leading_digit rest ->
  drop_digits (ds ++ rest) = rest.
Proof.
  intros Hds Hrest.
  induction ds as [|d ds IH]; cbn [app take_digits drop_digits].
  - destruct rest as [|c rest]; [reflexivity|].
    unfold no_leading_digit in Hrest.
    cbn [take_digits drop_digits]. now rewrite Hrest.
  - cbn [forallb] in Hds. apply andb_true_iff in Hds as [Hd Hds].
    now rewrite Hd, IH.
Qed.

Lemma take_digits_all (ds : list ascii) :
  forallb isdigit ds = true -> take_digits ds = ds.
Proof.
  intros Hds. rewrite <- (app_nil_r ds) at 1.
  now apply take_digits_app.
Qed.

Lemma drop_digits_length (s : list ascii) :
  (length (drop_digits s) <= length s)%nat.
Proof.
  induction s as [|c s IH]; cbn [drop_digits length]; [lia|].
  destruct (isdigit c); cbn [length]; lia.
Qed.

(** [std::stoi] returns the value of a literal that fits an [int]. *)
Lemma stoi_literal (lit : list ascii) :
  is_literal lit = true ->
  INT_MIN <= literal_value lit <= INT_MAX ->
  stoi lit = Ok (literal_value lit).
Proof.
  destruct lit as [|c ds]; [discriminate|].
  intros Hlit Hrange.
  assert (Hin : (INT_MIN <=? literal_value (c :: ds)) &&
                (literal_value (c :: ds) <=? INT_MAX) = true).
  { apply andb_true_iff. split; apply Z.leb_le; lia. }
  clear Hrange.
  unfold is_literal in Hlit.
  destruct c as [[] [] [] [] [] [] [] []];
    cbn -[forallb Nat.eqb length] in Hlit; try discriminate Hlit;
    apply andb_true_iff in Hlit as [Hhead Hds].
  all: unfold stoi, literal_value in *.
  all: try (rewrite (take_digits_all ds Hds);
            destruct ds as [|d ds']; [discriminate Hhead|];
            now rewrite Hin).
  all: change (take_digits (?c :: ds)) with (c :: take_digits ds).
  all: rewrite (take_digits_all ds Hds); cbv beta iota; now rewrite Hin.
Qed.

Section FirstPass.
Context `{OpCodes}.

(** The first loop does not depend on the bound once the bound covers
    the characters left. *)
Lemma scan_tokens_fuel :
  forall (f1 f2 : nat) (s : list ascii) (tokens : list Z),
    (length s <= f1)%nat -> (length s <= f2)%nat ->
    scan_tokens f1 s tokens = scan_tokens f2 s tokens.
Proof.
  induction f1 as [|f1 IH]; intros f2 s tokens H1 H2.
  - destruct s; [destruct f2; reflexivity|simpl in H1; lia].
  - destruct s as [|c tl]; [destruct f2; reflexivity|].
    destruct f2 as [|f2]; [simpl in H2; lia|].
    simpl in H1, H2. cbn [scan_tokens].
    pose proof (drop_digits_length tl) as Hdrop.
    repeat match goal with
           | |- (if ?b then _ else _) = _ => destruct b
           end;
      try reflexivity; try (apply IH; lia).
    destruct (stoi (c :: take_digits tl)); cbn [bind];
      [apply IH; lia|reflexivity].
Qed.

Lemma scan_tokens_space :
  forall (ws rest : list ascii) (tokens : list Z) (fuel : nat),
    forallb isspace ws = true ->
    (length (ws ++ rest) <= fuel)%nat ->
    scan_tokens fuel (ws ++ rest) tokens = scan_tokens fuel rest tokens.
Proof.
  induction ws as [|c ws IH]; intros rest tokens fuel Hws Hfuel;
    [reflexivity|].
  simpl in Hws. apply andb_true_iff in Hws as [Hc Hws].
  destruct fuel as [|fuel]; [simpl in Hfuel; lia|].
  cbn [app length] in Hfuel. rewrite length_app in Hfuel.
  destruct (isspace_class c Hc) as (E1 & E2 & E3 & E4 & E5 & E6 & E7).
  transitivity (scan_tokens fuel rest tokens);
    [|apply scan_tokens_fuel; lia].
  rewrite <- (IH rest tokens fuel Hws) by (rewrite length_app; lia).
  cbn [app scan_tokens]. now rewrite E1, E2, E3, E4, E5, E6, E7, Hc.
Qed.

Lemma scan_tokens_literal :
  forall (lit rest : list ascii) (tokens : list Z) (fuel : nat),
    is_literal lit = true ->
    INT_MIN <= literal_value lit <= INT_MAX ->
    no_leading_digit rest ->
    (length (lit ++ rest) <= fuel)%nat ->
    scan_tokens fuel (lit ++ rest) tokens
    = scan_tokens fuel rest (tokens ++ [literal_value lit]).
Proof.
  intros lit rest tokens fuel Hlit Hrange Hrest Hfuel.
  destruct lit as [|c ds]; [discriminate|].
  destruct (literal_head_class c ds Hlit) as (E1 & E2 & E3 & E4 & E5 & Hds).
  destruct fuel as [|fuel]; [simpl in Hfuel; lia|].
  cbn [app length] in Hfuel. rewrite length_app in Hfuel.
  transitivity (scan_tokens fuel rest (tokens ++ [literal_value (c :: ds)]));
    [|apply scan_tokens_fuel; lia].
  cbn [app scan_tokens]. rewrite E1, E2, E3, E4, E5.
  rewrite (take_digits_app ds rest Hds Hrest),
          (drop_digits_app ds rest Hds Hrest).
  now rewrite (stoi_literal (c :: ds) Hlit Hrange).
Qed.

End FirstPass.

Section TokenizerTheorems.
Context `{OpCodes}.

Lemma space_no_leading_digit (ws rest : list ascii) :
  ws <> [] -> forallb isspace ws = true -> no_leading_digit (ws ++ rest).
Proof.
  destruct ws as [|c ws]; [congruence|]. intros _ Hws.
  cbn [forallb] in Hws. apply andb_true_iff in Hws as [Hc _].
  exact (proj2 (proj2 (proj2 (proj2 (proj2 (proj2 (isspace_class c Hc))))))).
Qed.

Lemma trail_no_leading_digit (trail : list ascii) :
  forallb isspace trail = true -> no_leading_digit trail.
Proof.
  destruct trail as [|c trail]; [exact (fun _ => I)|]. intros Hws.
  rewrite <- (app_nil_r (c :: trail)).
  now apply space_no_leading_digit.
Qed.

Lemma more_no_leading_digit
  (more : list (list ascii * list ascii)) (trail : list ascii) :
  Forall (fun p => separator (fst p)) more ->
  forallb isspace trail = true ->
  no_leading_digit (flat_map (fun p => fst p ++ snd p) more ++ trail).
Proof.
  intros Hmore Htrail. destruct Hmore as [|[sep lit] more [Hne Hsp] _].
  - now apply trail_no_leading_digit.
  - cbn [flat_map fst snd]. rewrite <- !app_assoc.
    now apply space_no_leading_digit.
Qed.

Lemma operand_literal_range (Hc : codes_ordered) (lit : list ascii) :
  operand_literal lit ->
  is_literal lit = true /\ INT_MIN <= literal_value lit <= INT_MAX.
Proof. unfold operand_literal, codes_ordered in *. intuition lia. Qed.

Lemma scan_tokens_more (Hc : codes_ordered) :
  forall (more : list (list ascii * list ascii)) (tokens : list Z)
         (fuel : nat) (trail : list ascii),
    Forall (fun p => separator (fst p)) more ->
    Forall operand_literal (map snd more) ->
    forallb isspace trail = true ->
    (length (flat_map (fun p => fst p ++ snd p) more ++ trail) <= fuel)%nat ->
    scan_tokens fuel (flat_map (fun p => fst p ++ snd p) more ++ trail) tokens
    = Ok (tokens ++ map literal_value (map snd more)).
Proof.
  induction more as [|[sep lit] more IH];
    intros tokens fuel trail Hseps Hlits Htrail Hfuel.
  - cbn [flat_map map app] in *. rewrite app_nil_r.
    rewrite <- (app_nil_r trail).
    rewrite scan_tokens_space
      by (assumption || (rewrite app_nil_r; exact Hfuel)).
    destruct fuel; reflexivity.
  - inversion Hseps as [|? ? [Hne Hsp] Hseps']; subst.
    inversion Hlits as [|? ? Hlit Hlits']; subst.
    cbn [fst snd] in *.
    destruct (operand_literal_range Hc lit Hlit) as [Hl Hr].
    cbn [flat_map map fst snd] in *. rewrite <- !app_assoc in *.
    rewrite scan_tokens_space by assumption.
    rewrite scan_tokens_literal;
      [ | assumption | assumption | now apply more_no_leading_digit
        | rewrite length_app in Hfuel; lia ].
    rewrite IH; [ now rewrite <- app_assoc | assumption .. | ].
    rewrite !length_app in Hfuel. rewrite length_app. lia.
Qed.

Lemma scan_tokens_spaced (Hc : codes_ordered)
  (lead lit1 : list ascii) (more : list (list ascii * list ascii))
  (trail : list ascii) (fuel : nat) :
  forallb isspace lead = true ->
  forallb isspace trail = true ->
  Forall (fun p => separator (fst p)) more ->
  Forall operand_literal (lit1 :: map snd more) ->
  (length (lead ++ lit1 ++ flat_map (fun p => fst p ++ snd p) more ++ trail)
   <= fuel)%nat ->
  scan_tokens fuel
    (lead ++ lit1 ++ flat_map (fun p => fst p ++ snd p) more ++ trail) []
  = Ok (map literal_value (lit1 :: map snd more)).
Proof.
  intros Hlead Htrail Hseps Hlits Hfuel.
  inversion Hlits as [|? ? Hlit Hlits']; subst.
  destruct (operand_literal_range Hc lit1 Hlit) as [Hl Hr].
  rewrite scan_tokens_space by assumption.
  rewrite scan_tokens_literal;
    [ | assumption | assumption | now apply more_no_leading_digit
      | rewrite length_app in Hfuel; lia ].
  rewrite (scan_tokens_more Hc); [reflexivity | assumption .. | ].
  rewrite !length_app in Hfuel. rewrite length_app. lia.
Qed.

(** C8. A list of signed integer literals separated by whitespace, each
    denoting an operand (an [int32_t] below [OP_UNION]), tokenizes to
    their values with [OP_INTERSECTION] between neighbours.  More
    generally, on a nonempty token vector the second pass inserts
    [OP_INTERSECTION] between two adjacent tokens exactly when the left
    one is an operand or a right parenthesis and the right one is an
    operand, a left parenthesis or a complement
    ([with_intersections]). *)
Theorem tokenize_operator_free_input (Hc : codes_ordered) :
  (forall (lead lit1 : list ascii) (more : list (list ascii * list ascii))
          (trail : list ascii),
      forallb isspace lead = true ->
      forallb isspace trail = true ->
      Forall (fun p => separator (fst p)) more ->
      Forall operand_literal (lit1 :: map snd more) ->
      tokenize (spaced_literals lead lit1 more trail)
      = Ok (intersperse_intersection
              (map literal_value (lit1 :: map snd more))))
  /\
  (forall (t : Z) (tokens : list Z),
      add_intersections (t :: tokens) = Ok (with_intersections (t :: tokens))).
Proof.
  split; [|intros t tokens; now apply add_intersections_nonempty].
  intros lead lit1 more trail Hlead Htrail Hseps Hlits.
  unfold tokenize, spaced_literals.
  rewrite list_ascii_of_string_of_list_ascii.
  set (s := lead ++ lit1 ++ flat_map (fun p => fst p ++ snd p) more ++ trail).
  assert (Hs : s <> []).
  { subst s. intros Hnil.
    apply app_eq_nil in Hnil as [_ Hnil].
    apply app_eq_nil in Hnil as [Hnil _]. subst lit1.
    inversion Hlits as [|? ? [Hl _] _]. discriminate Hl. }
  destruct s as [|c s'] eqn:Es; [congruence|].
  rewrite <- Es.
  subst s. rewrite (scan_tokens_spaced Hc) by (assumption || lia).
  cbn [bind map].
  rewrite (add_intersections_nonempty Hc). f_equal.
  apply with_intersections_operands.
  change (Forall (fun s => s < OP_UNION)
            (map literal_value (lit1 :: map snd more))).
  apply Forall_map.
  eapply Forall_impl; [|exact Hlits].
  intros lit [_ Hv]. lia.
Qed.

(** C10.  A nonempty region of whitespace only leaves the token vector
    empty after the first loop; [tokens.size()-1] is then [SIZE_MAX], the
    second loop is entered and reads [tokens[0]] outside the vector. *)
Theorem tokenize_blank_input_out_of_range (ws : list ascii) :
  ws <> [] -> forallb isspace ws = true ->
  tokenize (string_of_list_ascii ws) = Fail OutOfRangeAccess.
Proof.
  intros Hne Hws. unfold tokenize.
  rewrite list_ascii_of_string_of_list_ascii.
  destruct ws as [|c ws'] eqn:E; [congruence|]. rewrite <- E in *.
  rewrite <- (app_nil_r ws), scan_tokens_space
    by (assumption || (rewrite app_nil_r; lia)).
  destruct (length (ws ++ [])); reflexivity.
Qed.

(** The bounds of the embedding are never reached. *)
Lemma scan_tokens_total :
  forall (fuel : nat) (s : list ascii) (tokens : list Z),
    (length s <= fuel)%nat -> scan_tokens fuel s tokens <> Fail OutOfFuel.
Proof.
  induction fuel as [|fuel IH]; intros s tokens Hlen.
  - destruct s; [discriminate|simpl in Hlen; lia].
  - destruct s as [|c tl]; [discriminate|].
    cbn [length] in Hlen. cbn [scan_tokens].
    pose proof (drop_digits_length tl) as Hdrop.
    repeat match goal with
           | |- (if ?b then _ else _) <> _ => destruct b
           end;
      try discriminate; try (apply IH; lia).
    destruct (stoi (c :: take_digits tl)) as [v|f] eqn:Ev; cbn [bind];
      [apply IH; lia|].
    unfold stoi in Ev.
    repeat match type of Ev with
           | context [match ?x with _ => _ end] => destruct x
           end; congruence.
Qed.

(** [tokenize] finishes on every string: neither of its loops reaches
    the bound the embedding gives it. *)
Lemma tokenize_total (Hc : codes_ordered) (region_spec : string) :
  tokenize region_spec <> Fail OutOfFuel.
Proof.
  unfold tokenize.
  destruct (list_ascii_of_string region_spec) as [|c s] eqn:E;
    [discriminate|]. rewrite <- E.
  destruct (scan_tokens _ _ _) as [tokens|f] eqn:Escan; cbn [bind].
  - destruct tokens as [|t tokens]; [discriminate|].
    now rewrite (add_intersections_nonempty Hc).
  - intros Hf. injection Hf as ->.
    now apply (scan_tokens_total (length (list_ascii_of_string region_spec))
                 (list_ascii_of_string region_spec) []) in Escan.
Qed.

End TokenizerTheorems.

(** ** The compiler *)

Section CompilerFacts.
Context `{OpCodes}.

Hypothesis Hc : codes_ordered.

(** The operator branch pops regular operators only. *)
Lemma pop_operators_stack (token : Z) :
  forall (stack rpn : list Z),
    stack_ok stack ->
    stack_ok (snd (pop_operators token rpn stack)) /\
    open_parens (snd (pop_operators token rpn stack)) = open_parens stack.
Proof.
  induction stack as [|op below IH]; intros rpn Hok; [now split|].
  inversion Hok as [|? ? Hop Hbelow]; subst.
  cbn [pop_operators].
  destruct (Z.ltb_spec op OP_RIGHT_PAREN) as [Hlt|Hge]; cbn [andb].
  - destruct (_ || _).
    + destruct (IH (rpn ++ [op]) Hbelow) as [IH1 IH2].
      split; [exact IH1|]. rewrite IH2. cbn [open_parens].
      destruct (Z.eqb_spec op OP_LEFT_PAREN) as [E|_]; [|reflexivity].
      unfold codes_ordered in Hc. lia.
    + now split.
  - now split.
Qed.

Lemma pop_to_left_paren_none (cell_id : Z) :
  forall (stack rpn : list Z),
    open_parens stack = O ->
    pop_to_left_paren cell_id rpn stack = Fail OutOfRangeAccess.
Proof.
  induction stack as [|op below IH]; intros rpn Hopen; [reflexivity|].
  cbn [pop_to_left_paren open_parens] in *.
  destruct (op =? OP_LEFT_PAREN); [discriminate|]. now apply IH.
Qed.

Lemma pop_to_left_paren_some (cell_id : Z) :
  forall (stack rpn : list Z) (d : nat),
    stack_ok stack ->
    open_parens stack = S d ->
    exists rpn' stack',
      pop_to_left_paren cell_id rpn stack = Ok (rpn', stack') /\
      stack_ok stack' /\ open_parens stack' = d.
Proof.
  induction stack as [|op below IH]; intros rpn d Hok Hopen;
    [discriminate|].
  inversion Hok as [|? ? Hop Hbelow]; subst.
  cbn [pop_to_left_paren open_parens] in *.
  destruct (op =? OP_LEFT_PAREN).
  - exists rpn, below. injection Hopen as Hopen. now repeat split.
  - now apply IH.
Qed.

(** The main loop keeps as many left parentheses on the stack as are
    open in the input, and runs off the stack at the first right
    parenthesis that closes none. *)
Lemma rpn_loop_parens (cell_id : Z) :
  forall (infix rpn stack : list Z),
    stack_ok stack ->
    match paren_depth infix (open_parens stack) with
    | None => rpn_loop cell_id infix rpn stack = Fail OutOfRangeAccess
    | Some d =>
        exists rpn' stack',
          rpn_loop cell_id infix rpn stack = Ok (rpn', stack') /\
          stack_ok stack' /\ open_parens stack' = d
    end.
Proof.
  unfold codes_ordered in Hc.
  induction infix as [|token rest IH]; intros rpn stack Hok.
  - cbn. now exists rpn, stack.
  - cbn [paren_depth rpn_loop].
    destruct (Z.ltb_spec token OP_UNION) as [Hoperand|Hoperator].
    + destruct (Z.ltb_spec token OP_RIGHT_PAREN) as [_|Hge]; [|lia].
      now apply IH.
    + destruct (Z.ltb_spec token OP_RIGHT_PAREN) as [Hreg|Hparen].
      * destruct (pop_operators token rpn stack) as [rpn' stack'] eqn:Epop.
        destruct (pop_operators_stack token stack rpn Hok) as [Hok' Hopen'].
        rewrite Epop in Hok', Hopen'. cbn [snd] in Hok', Hopen'.
        assert (Hpush : stack_ok (token :: stack'))
          by (constructor; [now left|exact Hok']).
        specialize (IH rpn' (token :: stack') Hpush).
        cbn [open_parens] in IH.
        destruct (Z.eqb_spec token OP_LEFT_PAREN) as [E|_]; [lia|].
        now rewrite Hopen' in IH.
      * destruct (Z.eqb_spec token OP_LEFT_PAREN) as [E|Hne].
        -- assert (Hpush : stack_ok (token :: stack))
             by (constructor; [now right|exact Hok]).
           specialize (IH rpn (token :: stack) Hpush).
           cbn [open_parens] in IH.
           now rewrite (proj2 (Z.eqb_eq token OP_LEFT_PAREN) E) in IH.
        -- destruct (open_parens stack) as [|d] eqn:Eopen.
           ++ now rewrite pop_to_left_paren_none.
           ++ destruct (pop_to_left_paren_some cell_id stack rpn d Hok Eopen)
                as (rpn' & stack' & Epop & Hok' & Hopen').
              rewrite Epop. cbn [bind].
              specialize (IH rpn' stack' Hok'). now rewrite Hopen' in IH.
Qed.

Lemma drain_stack_parens (cell_id : Z) :
  forall (stack rpn : list Z),
    stack_ok stack ->
    match open_parens stack with
    | O => exists rpn', drain_stack cell_id rpn stack = Ok rpn'
    | S _ => drain_stack cell_id rpn stack = Fail (MismatchedParentheses cell_id)
    end.
Proof.
  unfold codes_ordered in Hc.
  induction stack as [|op below IH]; intros rpn Hok.
  - now exists rpn.
  - inversion Hok as [|? ? Hop Hbelow]; subst.
    cbn [drain_stack open_parens].
    destruct (Z.eqb_spec op OP_LEFT_PAREN) as [E|Hne].
    + destruct (Z.leb_spec OP_RIGHT_PAREN op); [reflexivity|lia].
    + destruct (Z.leb_spec OP_RIGHT_PAREN op); [lia|].
      now apply IH.
Qed.

(** [generate_rpn] against the balance of parentheses: an unmatched
    right parenthesis ends in a read outside the operator stack, a
    leftover left parenthesis in the fatal error that names the cell, and
    balanced parentheses in a postfix form. *)
Lemma generate_rpn_parens (cell_id : Z) (infix : list Z) :
  match paren_depth infix O with
  | None => generate_rpn cell_id infix = Fail OutOfRangeAccess
  | Some (S _) =>
      generate_rpn cell_id infix = Fail (MismatchedParentheses cell_id)
  | Some O => exists rpn, generate_rpn cell_id infix = Ok rpn
  end.
Proof.
  unfold generate_rpn.
  pose proof (rpn_loop_parens cell_id infix [] [] (Forall_nil _)) as Hloop.
  cbn [open_parens] in Hloop.
  destruct (paren_depth infix O) as [d|].
  - destruct Hloop as (rpn & stack & Eloop & Hok & Hopen).
    rewrite Eloop. cbn [bind].
    pose proof (drain_stack_parens cell_id stack rpn Hok) as Hdrain.
    rewrite Hopen in Hdrain. destruct d; exact Hdrain.
  - now rewrite Hloop.
Qed.

End CompilerFacts.

(** C1.  When a right parenthesis arrives with no left parenthesis on
    the operator stack, the loop that looks for one reads [*it] past the
    bottom of the stack; the [fatal_error] behind it is not reached, so
    the region does not fail with the mismatched-parentheses error. *)
Theorem generate_rpn_unmatched_right_paren `{OpCodes}
  (cell_id : Z) (infix : list Z) :
  codes_ordered ->
  paren_depth infix O = None ->
  generate_rpn cell_id infix = Fail OutOfRangeAccess.
Proof.
  intros Hc Hdepth.
  pose proof (generate_rpn_parens Hc cell_id infix) as Hg.
  now rewrite Hdepth in Hg.
Qed.

(** A left parenthesis that is still open at the end of the region fails
    with the mismatched-parentheses error naming the cell. *)
Theorem generate_rpn_leftover_left_paren `{OpCodes}
  (cell_id : Z) (infix : list Z) (d : nat) :
  codes_ordered ->
  paren_depth infix O = Some (S d) ->
  generate_rpn cell_id infix = Fail (MismatchedParentheses cell_id).
Proof.
  intros Hc Hdepth.
  pose proof (generate_rpn_parens Hc cell_id infix) as Hg.
  now rewrite Hdepth in Hg.
Qed.

(** A region whose parentheses balance compiles. *)
Theorem generate_rpn_balanced `{OpCodes} (cell_id : Z) (infix : list Z) :
  codes_ordered ->
  paren_depth infix O = Some O ->
  exists rpn, generate_rpn cell_id infix = Ok rpn.
Proof.
  intros Hc Hdepth.
  pose proof (generate_rpn_parens Hc cell_id infix) as Hg.
  now rewrite Hdepth in Hg.
Qed.

(** ** Containment *)

Section SimpleFlag.
Context `{OpCodes}.

Lemma is_simple_cons (token : Z) (rest : list Z) :
  is_simple (token :: rest) = true ->
  token <> OP_COMPLEMENT /\ token <> OP_UNION /\ is_simple rest = true.
Proof.
  cbn [is_simple].
  destruct (Z.eqb_spec token OP_COMPLEMENT); [discriminate|].
  destruct (Z.eqb_spec token OP_UNION); [discriminate|]. now auto.
Qed.

Lemma is_simple_iff (tokens : list Z) :
  is_simple tokens = true <->
  ~ In OP_UNION tokens /\ ~ In OP_COMPLEMENT tokens.
Proof.
  induction tokens as [|t tokens IH]; [cbn; tauto|].
  cbn [is_simple In].
  destruct (Z.eqb_spec t OP_COMPLEMENT) as [E|N1]; cbn [orb].
  - split; [discriminate|]. intros [_ Hn]. exfalso. apply Hn. now left.
  - destruct (Z.eqb_spec t OP_UNION) as [E|N2].
    + split; [discriminate|]. intros [Hn _]. exfalso. apply Hn. now left.
    + rewrite IH. split.
      * intros [H1 H2]. split; intros [E|Hin]; congruence || tauto.
      * intros [H1 H2]. split; intros Hin; [apply H1|apply H2]; now right.
Qed.

End SimpleFlag.

Section ContainsFacts.
Context `{OpCodes} `{Doubles}.
Hypothesis Hc : codes_ordered.
Variable global_surfaces : Z -> Surface.
Variables (r : Position) (u : Direction) (on_surface : Z).

#[local] Abbreviation simple_rpn := (contains_simple_rpn global_surfaces r u on_surface).
#[local] Abbreviation decision := (operand_decision global_surfaces r u on_surface).
#[local] Abbreviation step := (complex_step global_surfaces r u on_surface).
#[local] Abbreviation loop := (complex_loop global_surfaces r u on_surface).

Lemma contains_simple_rpn_operand (token : Z) (rest : list Z) :
  token < OP_UNION ->
  simple_rpn (token :: rest) = decision token && simple_rpn rest.
Proof.
  intros Hop. cbn [contains_simple_rpn]. unfold operand_decision.
  rewrite (proj2 (Z.ltb_lt _ _) Hop).
  destruct (token =? on_surface); [reflexivity|].
  destruct (- token =? on_surface); [reflexivity|].
  destruct (Bool.eqb _ _); reflexivity.
Qed.

Lemma contains_simple_rpn_operator (token : Z) (rest : list Z) :
  OP_UNION <= token -> simple_rpn (token :: rest) = simple_rpn rest.
Proof.
  intros Hop. cbn [contains_simple_rpn].
  now rewrite (proj2 (Z.ltb_ge _ _) Hop).
Qed.

Lemma contains_simple_rpn_app (pre post : list Z) :
  simple_rpn (pre ++ post) = simple_rpn pre && simple_rpn post.
Proof.
  induction pre as [|t pre IH]; [reflexivity|].
  cbn [app]. destruct (Z.lt_ge_cases t OP_UNION) as [Hop|Hop].
  - now rewrite !contains_simple_rpn_operand, IH, andb_assoc.
  - now rewrite !contains_simple_rpn_operator.
Qed.

(** The simple path is the conjunction of the decisions of the operands,
    in their order. *)
Lemma contains_simple_rpn_decisions (tokens : list Z) :
  simple_rpn tokens
  = forallb decision (filter (fun t => t <? OP_UNION) tokens).
Proof.
  induction tokens as [|t tokens IH]; [reflexivity|].
  cbn [filter]. destruct (Z.ltb_spec t OP_UNION) as [Hop|Hop].
  - rewrite contains_simple_rpn_operand by exact Hop.
    cbn [forallb]. now rewrite IH.
  - now rewrite contains_simple_rpn_operator.
Qed.

Lemma complex_step_operand (stack : list bool) (token : Z) :
  token < OP_UNION -> step stack token = Ok (decision token :: stack).
Proof.
  unfold codes_ordered in Hc. intros Hop.
  unfold complex_step, operand_decision.
  destruct (Z.eqb_spec token OP_UNION); [lia|].
  destruct (Z.eqb_spec token OP_INTERSECTION); [lia|].
  destruct (Z.eqb_spec token OP_COMPLEMENT); [lia|].
  destruct (token =? on_surface); [reflexivity|].
  destruct (- token =? on_surface); reflexivity.
Qed.

Lemma complex_step_intersection (a b : bool) (below : list bool) :
  step (b :: a :: below) OP_INTERSECTION = Ok ((a && b) :: below).
Proof.
  unfold codes_ordered in Hc. unfold complex_step.
  destruct (Z.eqb_spec OP_INTERSECTION OP_UNION); [lia|].
  now rewrite Z.eqb_refl.
Qed.

(** On a simple, well-formed postfix form the boolean stack carries, as
    the conjunction of its entries, the decisions met so far. *)
Lemma complex_loop_simple :
  forall (tokens : list Z) (stack : list bool) (n : nat),
    is_simple tokens = true ->
    stack_depth tokens (length stack) = Some n ->
    exists stack',
      loop tokens stack = Ok stack' /\
      length stack' = n /\
      all_true stack' = all_true stack && simple_rpn tokens.
Proof.
  unfold codes_ordered in Hc.
  induction tokens as [|t tokens IH]; intros stack n Hsimple Hdepth.
  - cbn in Hdepth. injection Hdepth as <-. exists stack.
    cbn. now rewrite andb_true_r.
  - apply is_simple_cons in Hsimple as (Hnc & Hnu & Hsimple).
    cbn [stack_depth] in Hdepth. cbn [complex_loop].
    destruct (Z.ltb_spec t OP_UNION) as [Hop|Hop].
    + rewrite complex_step_operand by exact Hop. cbn [bind].
      destruct (IH (decision t :: stack) n Hsimple Hdepth)
        as (stack' & Eloop & Hlen & Hand).
      exists stack'. repeat split; [exact Eloop|exact Hlen|].
      rewrite Hand, contains_simple_rpn_operand by exact Hop.
      unfold all_true. cbn [forallb].
      now rewrite (andb_comm (decision t)), andb_assoc.
    + destruct (Z.eqb_spec t OP_UNION) as [E|_]; [contradiction|].
      cbn [orb] in Hdepth.
      destruct (Z.eqb_spec t OP_INTERSECTION) as [E|_].
      * subst t. destruct stack as [|b [|a below]]; try discriminate Hdepth.
        rewrite complex_step_intersection. cbn [bind].
        destruct (IH ((a && b) :: below) n Hsimple Hdepth)
          as (stack' & Eloop & Hlen & Hand).
        exists stack'. repeat split; [exact Eloop|exact Hlen|].
        rewrite Hand, contains_simple_rpn_operator by lia.
        unfold all_true. cbn [forallb].
        now rewrite (andb_comm a b), andb_assoc.
      * destruct (Z.eqb_spec t OP_COMPLEMENT) as [E|_];
          [contradiction|discriminate].
Qed.

Lemma contains_complex_simple (tokens : list Z) :
  is_simple tokens = true ->
  well_formed_rpn tokens = true ->
  contains_complex_rpn global_surfaces r u on_surface tokens
  = Ok (simple_rpn tokens).
Proof.
  intros Hsimple Hwf. unfold contains_complex_rpn.
  destruct tokens as [|t tokens]; [reflexivity|].
  unfold well_formed_rpn in Hwf.
  destruct (stack_depth (t :: tokens) 0) as [[|[|n]]|] eqn:Hdepth;
    try discriminate Hwf.
  destruct (complex_loop_simple (t :: tokens) [] 1 Hsimple Hdepth)
    as (stack' & Eloop & Hlen & Hand).
  rewrite Eloop. cbn [bind].
  destruct stack' as [|b [|b' stack']]; try discriminate Hlen.
  cbn in Hand. rewrite andb_true_r in Hand.
  now rewrite Hand.
Qed.

End ContainsFacts.

Section OverrideFacts.
Context `{OpCodes} `{Doubles}.
Variables (r : Position) (u : Direction).

(** The last branch of the stack evaluator pushes the three-case
    decision. *)
Lemma complex_step_decision (surfaces : Z -> Surface) (on_surface : Z)
  (stack : list bool) (token : Z) :
  token <> OP_UNION -> token <> OP_INTERSECTION -> token <> OP_COMPLEMENT ->
  complex_step surfaces r u on_surface stack token
  = Ok (operand_decision surfaces r u on_surface token :: stack).
Proof.
  intros Nu Ni Nc. unfold complex_step, operand_decision.
  rewrite (proj2 (Z.eqb_neq _ _) Nu), (proj2 (Z.eqb_neq _ _) Ni),
          (proj2 (Z.eqb_neq _ _) Nc).
  destruct (token =? on_surface); [reflexivity|].
  destruct (- token =? on_surface); reflexivity.
Qed.

Lemma operand_decision_on (surfaces : Z -> Surface) (s : Z) :
  operand_decision surfaces r u s s = true.
Proof. unfold operand_decision. now rewrite Z.eqb_refl. Qed.

Lemma operand_decision_opposite (surfaces : Z -> Surface) (s : Z) :
  s <> 0 -> operand_decision surfaces r u (- s) s = false.
Proof.
  intros Hs. unfold operand_decision.
  destruct (Z.eqb_spec s (- s)); [lia|]. now rewrite Z.eqb_refl.
Qed.

Lemma operand_decision_off (surfaces : Z -> Surface) (s : Z) :
  s <> 0 ->
  operand_decision surfaces r u 0 s
  = Bool.eqb (sense (surfaces (Z.abs s - 1)) r u) (0 <? s).
Proof.
  intros Hs. unfold operand_decision.
  destruct (Z.eqb_spec s 0); [lia|].
  destruct (Z.eqb_spec (- s) 0); [lia|reflexivity].
Qed.

(** With the particle on surface [s], in either orientation, no decision
    depends on the sense of that surface. *)
Lemma operand_decision_independent (surfaces surfaces' : Z -> Surface)
  (s on_surface : Z) :
  (forall k, k <> Z.abs s - 1 ->
             sense (surfaces k) r u = sense (surfaces' k) r u) ->
  on_surface = s \/ on_surface = - s ->
  forall token,
    operand_decision surfaces r u on_surface token
    = operand_decision surfaces' r u on_surface token.
Proof.
  intros Hagree Hon token. unfold operand_decision.
  destruct (Z.eqb_spec token on_surface) as [|N1]; [reflexivity|].
  destruct (Z.eqb_spec (- token) on_surface) as [|N2]; [reflexivity|].
  rewrite Hagree; [reflexivity|]. lia.
Qed.

Section Independence.
Variables (surfaces surfaces' : Z -> Surface) (on_surface : Z).
Hypothesis decisions_agree :
  forall token,
    operand_decision surfaces r u on_surface token
    = operand_decision surfaces' r u on_surface token.

Lemma contains_simple_rpn_independent (tokens : list Z) :
  contains_simple_rpn surfaces r u on_surface tokens
  = contains_simple_rpn surfaces' r u on_surface tokens.
Proof.
  induction tokens as [|t tokens IH]; [reflexivity|].
  destruct (Z.lt_ge_cases t OP_UNION) as [Hop|Hop].
  - now rewrite !contains_simple_rpn_operand, decisions_agree, IH.
  - now rewrite !contains_simple_rpn_operator.
Qed.

Lemma complex_step_independent (stack : list bool) (token : Z) :
  complex_step surfaces r u on_surface stack token
  = complex_step surfaces' r u on_surface stack token.
Proof.
  destruct (Z.eq_dec token OP_UNION) as [E|Nu];
    [unfold complex_step; now rewrite (proj2 (Z.eqb_eq _ _) E)|].
  destruct (Z.eq_dec token OP_INTERSECTION) as [E|Ni];
    [unfold complex_step; rewrite (proj2 (Z.eqb_eq _ _) E);
     now destruct (token =? OP_UNION)|].
  destruct (Z.eq_dec token OP_COMPLEMENT) as [E|Nc];
    [unfold complex_step; rewrite (proj2 (Z.eqb_eq _ _) E);
     now destruct (token =? OP_UNION), (token =? OP_INTERSECTION)|].
  now rewrite !complex_step_decision, decisions_agree.
Qed.

Lemma complex_loop_independent (tokens : list Z) :
  forall stack,
    complex_loop surfaces r u on_surface tokens stack
    = complex_loop surfaces' r u on_surface tokens stack.
Proof.
  induction tokens as [|t tokens IH]; intros stack; [reflexivity|].
  cbn [complex_loop]. rewrite complex_step_independent.
  destruct (complex_step surfaces' r u on_surface stack t); cbn [bind];
    [apply IH|reflexivity].
Qed.

Lemma contains_independent (c : Cell) :
  contains surfaces r u on_surface c = contains surfaces' r u on_surface c.
Proof.
  unfold contains, contains_simple, contains_complex, contains_complex_rpn.
  now rewrite contains_simple_rpn_independent, complex_loop_independent.
Qed.

End Independence.

(** A cell whose postfix form is one operand contains the point exactly
    when the operand is decided satisfied, on either path. *)
Lemma contains_single_operand (surfaces : Z -> Surface) (on_surface : Z)
  (c : Cell) (s : Z) :
  codes_ordered -> s < OP_UNION -> rpn c = [s] ->
  contains surfaces r u on_surface c
  = Ok (operand_decision surfaces r u on_surface s).
Proof.
  intros Hc Hop Hrpn.
  unfold contains, contains_simple, contains_complex, contains_complex_rpn.
  rewrite Hrpn. destruct (simple c).
  - rewrite contains_simple_rpn_operand by exact Hop.
    cbn [contains_simple_rpn]. now rewrite andb_true_r.
  - cbn [complex_loop]. rewrite complex_step_operand by assumption.
    reflexivity.
Qed.

(** A simple cell does not contain a point that lies on the surface of
    one of its operands with the opposite orientation. *)
Lemma contains_simple_opposite (surfaces : Z -> Surface) (c : Cell) (s : Z) :
  s <> 0 -> s < OP_UNION -> simple c = true -> In s (rpn c) ->
  contains surfaces r u (- s) c = Ok false.
Proof.
  intros Hs Hop Hsimple Hin.
  apply in_split in Hin as (pre & post & Hrpn).
  unfold contains, contains_simple. rewrite Hsimple, Hrpn.
  rewrite contains_simple_rpn_app, contains_simple_rpn_operand by exact Hop.
  rewrite operand_decision_opposite by exact Hs.
  now rewrite andb_false_r.
Qed.

End OverrideFacts.

Lemma constructed_simple `{OpCodes} `{Doubles}
  (surface_map : Z -> Z) (region_spec : string) (c : Cell) :
  constructed surface_map region_spec c -> simple c = is_simple (rpn c).
Proof.
  unfold constructed, compile_region.
  destruct (tokenize region_spec) as [tokens|f]; cbn [bind]; [|discriminate].
  destruct (generate_rpn _ _) as [postfix|f]; cbn [bind]; [|discriminate].
  intros E. injection E as _ <- <-. reflexivity.
Qed.

(** C3, amended.  For a constructed cell the [simple] flag is true iff
    the postfix form holds neither [OP_UNION] nor [OP_COMPLEMENT]; and
    for a simple cell whose postfix form is well formed (the boolean stack
    never runs short and ends with one entry, or the form is empty),
    [contains_complex] returns what [contains_simple] returns, for every
    point, direction and [on_surface]. *)
Theorem simple_flag_and_simple_path `{OpCodes} `{Doubles}
  (surface_map : Z -> Z) (region_spec : string) (c : Cell) :
  codes_ordered ->
  constructed surface_map region_spec c ->
  (simple c = true <->
   ~ In OP_UNION (rpn c) /\ ~ In OP_COMPLEMENT (rpn c)) /\
  (simple c = true ->
   well_formed_rpn (rpn c) = true ->
   forall surfaces r u on_surface,
     contains_complex surfaces r u on_surface c
     = Ok (contains_simple surfaces r u on_surface c)).
Proof.
  intros Hc Hcons. apply constructed_simple in Hcons. rewrite Hcons.
  split; [apply is_simple_iff|].
  intros Hsimple Hwf surfaces r u on_surface.
  unfold contains_complex, contains_simple.
  now apply contains_complex_simple.
Qed.

(** ** Distance to the boundary *)

Section DistanceFacts.
Context `{OpCodes} `{Doubles}.
Variable global_surfaces : Z -> Surface.
Variables (r : Position) (u : Direction) (on_surface : Z).

#[local] Abbreviation cand := (candidate global_surfaces r u on_surface).
#[local] Abbreviation dstep := (distance_step global_surfaces r u on_surface).
#[local] Abbreviation drpn := (distance_rpn global_surfaces r u on_surface).

Lemma distance_step_spec (min_dist : double) (i_surf token : Z) :
  dstep (min_dist, i_surf) token
  = if (token <? OP_UNION) && displaces (cand token) min_dist
    then (cand token, - token)
    else (min_dist, i_surf).
Proof.
  unfold distance_step, displaces.
  destruct (Z.leb_spec OP_UNION token) as [Hop|Hop].
  - now rewrite (proj2 (Z.ltb_ge _ _) Hop).
  - rewrite (proj2 (Z.ltb_lt _ _) Hop). cbn [andb].
    destruct (d_lt _ _); [|reflexivity].
    destruct (d_ge _ _); reflexivity.
Qed.

Lemma distance_rpn_app (pre post : list Z) (acc : double * Z) :
  drpn (pre ++ post) acc = drpn post (drpn pre acc).
Proof. apply fold_left_app. Qed.

Lemma distance_rpn_stable (tokens : list Z) (min_dist : double) (i_surf : Z) :
  (forall t, In t tokens -> t < OP_UNION ->
             displaces (cand t) min_dist = false) ->
  drpn tokens (min_dist, i_surf) = (min_dist, i_surf).
Proof.
  induction tokens as [|t tokens IH]; intros Hnone; [reflexivity|].
  unfold distance_rpn. cbn [fold_left]. rewrite distance_step_spec.
  destruct (Z.ltb_spec t OP_UNION) as [Hop|Hop]; cbn [andb].
  - rewrite (Hnone t (or_introl eq_refl) Hop).
    apply IH. intros t' Hin. apply Hnone. now right.
  - apply IH. intros t' Hin. apply Hnone. now right.
Qed.

(** A step keeps the running minimum or puts a smaller candidate in its
    place. *)
Lemma distance_step_below (acc : double * Z) (token : Z) :
  fst (dstep acc token) = fst acc \/
  d_lt (fst (dstep acc token)) (fst acc) = true.
Proof.
  destruct acc as [m s]. rewrite distance_step_spec.
  destruct (token <? OP_UNION); cbn [andb]; [|now left].
  destruct (displaces (cand token) m) eqn:Hd; [|now left].
  right. cbn [fst]. unfold displaces in Hd.
  now apply andb_true_iff in Hd as [Hlt _].
Qed.

Section Order.
Hypothesis lt_trans :
  forall a b c : double,
    d_lt a b = true -> d_lt b c = true -> d_lt a c = true.

(** The running minimum never grows. *)
Lemma distance_rpn_below :
  forall (tokens : list Z) (acc : double * Z),
    fst (drpn tokens acc) = fst acc \/
    d_lt (fst (drpn tokens acc)) (fst acc) = true.
Proof.
  induction tokens as [|t tokens IH]; intros acc; [now left|].
  unfold distance_rpn. cbn [fold_left].
  fold (drpn tokens (dstep acc t)).
  destruct (IH (dstep acc t)) as [E|Hlt];
    destruct (distance_step_below acc t) as [E'|Hlt'].
  - left. now rewrite E.
  - right. now rewrite E.
  - right. now rewrite <- E'.
  - right. exact (lt_trans _ _ _ Hlt Hlt').
Qed.

End Order.

Section Settled.
Hypothesis lt_irrefl : forall d : double, d_lt d d = false.

(** After the step of an operand, its candidate does not pass the two
    tests against the running minimum. *)
Lemma distance_step_settled (acc : double * Z) (t : Z) :
  t < OP_UNION -> displaces (cand t) (fst (dstep acc t)) = false.
Proof.
  intros Hop. destruct acc as [m s].
  rewrite distance_step_spec, (proj2 (Z.ltb_lt _ _) Hop). cbn [andb].
  destruct (displaces (cand t) m) eqn:Hd; cbn [fst]; [|exact Hd].
  unfold displaces. now rewrite lt_irrefl.
Qed.

End Settled.

Lemma distance_rpn_argmin :
  forall (tokens : list Z) (acc : double * Z),
    drpn tokens acc = acc \/
    exists t, In t tokens /\ t < OP_UNION /\ drpn tokens acc = (cand t, - t).
Proof.
  induction tokens as [|t0 tokens IH]; intros [m s]; [now left|].
  unfold distance_rpn. cbn [fold_left]. rewrite distance_step_spec.
  destruct (Z.ltb_spec t0 OP_UNION) as [Hop0|Hop0]; cbn [andb].
  - destruct (displaces (cand t0) m).
    + right. destruct (IH (cand t0, - t0)) as [E|(t & Hin & Hop & E)].
      * exists t0. split; [now left|]. split; [exact Hop0|exact E].
      * exists t. split; [now right|]. split; [exact Hop|exact E].
    + destruct (IH (m, s)) as [E|(t & Hin & Hop & E)]; [now left|].
      right. exists t. split; [now right|]. split; [exact Hop|exact E].
  - destruct (IH (m, s)) as [E|(t & Hin & Hop & E)]; [now left|].
    right. exists t. split; [now right|]. split; [exact Hop|exact E].
Qed.

(** The pair after the loop is the one it started from, and then no
    operand passed the two tests against it; or it is the pair of the
    last operand that passed them against the running minimum. *)
Lemma distance_rpn_last :
  forall (tokens : list Z) (acc : double * Z),
    (drpn tokens acc = acc /\
     forall t, In t tokens -> t < OP_UNION ->
               displaces (cand t) (fst acc) = false) \/
    (exists pre a post,
        tokens = pre ++ a :: post /\
        a < OP_UNION /\
        displaces (cand a) (fst (drpn pre acc)) = true /\
        (forall t, In t post -> t < OP_UNION ->
                   displaces (cand t) (cand a) = false) /\
        drpn tokens acc = (cand a, - a)).
Proof.
  intros tokens acc.
  induction tokens as [|x tokens IH] using rev_ind.
  - left. split; [reflexivity|intros t []].
  - assert (Estep : drpn (tokens ++ [x]) acc = dstep (drpn tokens acc) x)
      by (rewrite distance_rpn_app; reflexivity).
    rewrite Estep. clear Estep.
    destruct (drpn tokens acc) as [m s] eqn:Eloop.
    rewrite distance_step_spec.
    destruct (Z.ltb_spec x OP_UNION) as [Hop|Hop]; cbn [andb].
    + destruct (displaces (cand x) m) eqn:Hd.
      * right. exists tokens, x, []. split; [reflexivity|].
        split; [exact Hop|]. rewrite Eloop. cbn [fst].
        split; [exact Hd|]. split; [intros t []|reflexivity].
      * destruct IH as [[E Hnone]|(pre & a & post & -> & Ha & Hpass & Hlater & E)].
        -- left. split; [exact E|]. intros t Hin Ht.
           apply in_app_or in Hin as [Hin|[<-|[]]]; [now apply Hnone|].
           rewrite <- E. exact Hd.
        -- right. exists pre, a, (post ++ [x]).
           split; [now rewrite <- app_assoc|]. split; [exact Ha|].
           split; [exact Hpass|]. split; [|exact E].
           intros t Hin Ht.
           apply in_app_or in Hin as [Hin|[<-|[]]]; [now apply Hlater|].
           injection E as Em _. rewrite <- Em. exact Hd.
    + destruct IH as [[E Hnone]|(pre & a & post & -> & Ha & Hpass & Hlater & E)].
      * left. split; [exact E|]. intros t Hin Ht.
        apply in_app_or in Hin as [Hin|[<-|[]]]; [now apply Hnone|lia].
      * right. exists pre, a, (post ++ [x]).
        split; [now rewrite <- app_assoc|]. split; [exact Ha|].
        split; [exact Hpass|]. split; [|exact E].
        intros t Hin Ht.
        apply in_app_or in Hin as [Hin|[<-|[]]]; [now apply Hlater|lia].
Qed.

End DistanceFacts.

(** ** The order of binary64

    [<] on binary64 numbers is irreflexive and transitive, infinities,
    zeros and NaN included. *)

Lemma finite_lt_pos (e1 e2 : Z) (m1 m2 : positive) :
  match (e1 ?= e2)%Z with
  | Eq => PosDef.Pos.compare_cont Eq m1 m2
  | Lt => Lt
  | Gt => Gt
  end = Lt <->
  (e1 < e2)%Z \/ (e1 = e2 /\ (m1 < m2)%positive).
Proof.
  change (PosDef.Pos.compare_cont Eq m1 m2) with (Pos.compare m1 m2).
  destruct (Z.compare_spec e1 e2); destruct (Pos.compare_spec m1 m2);
    split; intros; try discriminate; try lia; try reflexivity.
Qed.

Lemma finite_lt_neg (e1 e2 : Z) (m1 m2 : positive) :
  match (e1 ?= e2)%Z with
  | Eq => CompOpp (PosDef.Pos.compare_cont Eq m1 m2)
  | Lt => Gt
  | Gt => Lt
  end = Lt <->
  (e2 < e1)%Z \/ (e1 = e2 /\ (m2 < m1)%positive).
Proof.
  change (PosDef.Pos.compare_cont Eq m1 m2) with (Pos.compare m1 m2).
  destruct (Z.compare_spec e1 e2); destruct (Pos.compare_spec m1 m2);
    split; cbn; intros; try discriminate; try lia; try reflexivity.
Qed.

Lemma spec_lt_compare (x y : spec_float) :
  SFltb x y = true <-> SFcompare x y = Some Lt.
Proof.
  unfold SFltb. destruct (SFcompare x y) as [[| |]|]; split;
    intros; try discriminate; reflexivity.
Qed.

Lemma spec_lt_irrefl (x : spec_float) : SFltb x x = false.
Proof.
  destruct (SFltb x x) eqn:E; [|reflexivity].
  apply spec_lt_compare in E. unfold SFcompare in E.
  destruct x as [s|s| |s m e]; try (destruct s; discriminate);
    try discriminate.
  injection E as E. destruct s.
  - apply finite_lt_neg in E. lia.
  - apply finite_lt_pos in E. lia.
Qed.

Lemma spec_lt_trans (x y z : spec_float) :
  SFltb x y = true -> SFltb y z = true -> SFltb x z = true.
Proof.
  rewrite !spec_lt_compare. unfold SFcompare.
  destruct x as [sx|sx| |sx mx ex], y as [sy|sy| |sy my ey],
           z as [sz|sz| |sz mz ez];
    try destruct sx; try destruct sy; try destruct sz;
    try discriminate; try reflexivity;
    intros [= H1] [= H2]; f_equal.
  - apply finite_lt_neg in H1. apply finite_lt_neg in H2.
    apply finite_lt_neg. lia.
  - apply finite_lt_pos in H1. apply finite_lt_pos in H2.
    apply finite_lt_pos. lia.
Qed.

Lemma binary64_lt_irrefl (x : float) : PrimFloat.ltb x x = false.
Proof. rewrite ltb_spec. apply spec_lt_irrefl. Qed.

Lemma binary64_lt_trans (x y z : float) :
  PrimFloat.ltb x y = true -> PrimFloat.ltb y z = true ->
  PrimFloat.ltb x z = true.
Proof. rewrite !ltb_spec. apply spec_lt_trans. Qed.

(** C7, amended.  A candidate displaces the running minimum exactly when
    it passes the two tests, [d < min_dist] and
    [|d - min_dist| / min_dist >= FP_PRECISION], and then [i_surf] is the
    negated token.  The tests compare a candidate with the running
    minimum, not with the other candidates: an operand that displaced
    the running minimum is the one returned when every later operand's
    candidate fails the tests against it; when no candidate passes them
    against [INFTY] the initial pair [(INFTY, INT_MAX)] is returned; and
    in every case the pair returned is the initial one or that of the
    last operand that passed the tests against the running minimum. *)
Theorem distance_tie_breaking `{OpCodes} `{Doubles}
  (surfaces : Z -> Surface) (r : Position) (u : Direction) (on_surface : Z) :
  (forall min_dist i_surf token,
      distance_step surfaces r u on_surface (min_dist, i_surf) token
      = if (token <? OP_UNION)
           && displaces (candidate surfaces r u on_surface token) min_dist
        then (candidate surfaces r u on_surface token, - token)
        else (min_dist, i_surf)) /\
  (forall c pre a post,
      rpn c = pre ++ a :: post ->
      a < OP_UNION ->
      displaces (candidate surfaces r u on_surface a)
        (fst (distance_rpn surfaces r u on_surface pre (INFTY, INT_MAX)))
      = true ->
      (forall t, In t post -> t < OP_UNION ->
                 displaces (candidate surfaces r u on_surface t)
                   (candidate surfaces r u on_surface a) = false) ->
      Cell_distance surfaces r u on_surface c
      = (candidate surfaces r u on_surface a, - a)) /\
  (forall c,
      (forall t, In t (rpn c) -> t < OP_UNION ->
                 displaces (candidate surfaces r u on_surface t) INFTY = false) ->
      Cell_distance surfaces r u on_surface c = (INFTY, INT_MAX)) /\
  (forall c,
      (Cell_distance surfaces r u on_surface c = (INFTY, INT_MAX) /\
       forall t, In t (rpn c) -> t < OP_UNION ->
                 displaces (candidate surfaces r u on_surface t) INFTY = false) \/
      (exists pre a post,
          rpn c = pre ++ a :: post /\
          a < OP_UNION /\
          displaces (candidate surfaces r u on_surface a)
            (fst (distance_rpn surfaces r u on_surface pre (INFTY, INT_MAX)))
          = true /\
          (forall t, In t post -> t < OP_UNION ->
                     displaces (candidate surfaces r u on_surface t)
                       (candidate surfaces r u on_surface a) = false) /\
          Cell_distance surfaces r u on_surface c
          = (candidate surfaces r u on_surface a, - a))).
Proof.
  split; [intros; apply distance_step_spec|]. split; [|split].
  - intros c pre a post Hrpn Hop Hfirst Hties.
    unfold Cell_distance. rewrite Hrpn, distance_rpn_app.
    destruct (distance_rpn surfaces r u on_surface pre (INFTY, INT_MAX))
      as [m s] eqn:Epre.
    cbn [fst] in Hfirst.
    unfold distance_rpn at 1. cbn [fold_left].
    rewrite distance_step_spec, Hfirst, (proj2 (Z.ltb_lt _ _) Hop).
    cbn [andb]. now apply distance_rpn_stable.
  - intros c Hnone. unfold Cell_distance. now apply distance_rpn_stable.
  - intros c. unfold Cell_distance.
    exact (distance_rpn_last surfaces r u on_surface (rpn c)
             (INFTY, INT_MAX)).
Qed.

Section Binary64Distance.
Context `{OpCodes}.
Variables (infty eps : float).

#[local] Abbreviation B64 := (binary64 infty eps).

Variable surfaces : Z -> @Surface B64.
Variables (r : @Position B64) (u : @Direction B64) (on_surface : Z).

(** C6, amended.  In binary64, with any [INFTY] and [FP_PRECISION]: the
    distance [Cell::distance] returns is bounded by the surfaces'
    distances only up to the tolerance of the two tests.  For every
    operand [t] of the postfix form, once the loop has dealt with [t]
    its candidate does not pass the two tests against the running
    minimum (it is not smaller than it by a relative margin of
    [FP_PRECISION] or more), and the distance returned is that running
    minimum or smaller; it is also [INFTY] or smaller.  The pair
    returned is the initial one or the candidate and negated token of an
    operand of the cell.  The candidate of an operand other than
    [on_surface] is its surface's [distance(r, u, false)]. *)
Theorem distance_running_minimum (c : @Cell B64) (pre post : list Z) (t : Z) :
  rpn c = pre ++ t :: post ->
  t < OP_UNION ->
  @displaces B64 (candidate surfaces r u on_surface t)
    (fst (distance_rpn surfaces r u on_surface (pre ++ [t])
            (infty, INT_MAX))) = false /\
  (fst (Cell_distance surfaces r u on_surface c)
   = fst (distance_rpn surfaces r u on_surface (pre ++ [t]) (infty, INT_MAX)) \/
   PrimFloat.ltb
     (fst (Cell_distance surfaces r u on_surface c))
     (fst (distance_rpn surfaces r u on_surface (pre ++ [t]) (infty, INT_MAX)))
   = true) /\
  (fst (Cell_distance surfaces r u on_surface c) = infty \/
   PrimFloat.ltb (fst (Cell_distance surfaces r u on_surface c)) infty
   = true) /\
  (Cell_distance surfaces r u on_surface c = (infty, INT_MAX) \/
   exists t', In t' (rpn c) /\ t' < OP_UNION /\
              Cell_distance surfaces r u on_surface c
              = (candidate surfaces r u on_surface t', - t')) /\
  (forall t', t' <> on_surface ->
              candidate surfaces r u on_surface t'
              = distance (surfaces (Z.abs t' - 1)) r u false).
Proof.
  intros Hrpn Hop.
  assert (Hsplit :
            Cell_distance surfaces r u on_surface c
            = distance_rpn surfaces r u on_surface post
                (distance_rpn surfaces r u on_surface (pre ++ [t])
                   (infty, INT_MAX))).
  { unfold Cell_distance. rewrite Hrpn.
    change (pre ++ t :: post) with (pre ++ [t] ++ post).
    rewrite app_assoc. apply distance_rpn_app. }
  split; [|split; [|split; [|split]]].
  - rewrite distance_rpn_app. unfold distance_rpn at 1. cbn [fold_left].
    apply (@distance_step_settled _ B64 surfaces r u on_surface
             binary64_lt_irrefl); exact Hop.
  - rewrite Hsplit.
    apply (@distance_rpn_below _ B64 surfaces r u on_surface
             binary64_lt_trans).
  - apply (@distance_rpn_below _ B64 surfaces r u on_surface
             binary64_lt_trans (rpn c) (infty, INT_MAX)).
  - apply (@distance_rpn_argmin _ B64 surfaces r u on_surface (rpn c)
             (infty, INT_MAX)).
  - intros t' Hne. unfold candidate.
    now rewrite (proj2 (Z.eqb_neq _ _) Hne).
Qed.

End Binary64Distance.

(** ** The C-API functions *)

Section ApiFacts.
Context `{Doubles} `{ApiConstants}.
Variable sqrt_kT : double -> double.

Lemma list_set_length {A : Type} (l : list A) (n : nat) (x : A) :
  length (list_set l n x) = length l.
Proof.
  revert n. induction l as [|a l IH]; intros [|n]; cbn; congruence.
Qed.

Lemma list_set_nth_error {A : Type} (l : list A) (n : nat) (x : A) :
  (n < length l)%nat -> nth_error (list_set l n x) n = Some x.
Proof.
  revert n. induction l as [|a l IH]; intros [|n] Hn; cbn in *;
    try lia; [reflexivity|]. apply IH. lia.
Qed.

Lemma cell_at_some (st : State) (index : Z) (c : Cell) :
  cell_at st index = Some c <->
  1 <= index <= Z.of_nat (length (global_cells st)) /\
  nth_error (global_cells st) (Z.to_nat (index - 1)) = Some c.
Proof.
  unfold cell_at.
  destruct (Z.leb_spec 1 index), (Z.leb_spec index (Z.of_nat (length (global_cells st))));
    cbn [andb]; split; try discriminate; try tauto; intros [Hr _]; lia.
Qed.

Lemma cell_at_none (st : State) (index : Z) :
  cell_at st index = None <->
  ~ (1 <= index <= Z.of_nat (length (global_cells st))).
Proof.
  unfold cell_at.
  destruct (Z.leb_spec 1 index), (Z.leb_spec index (Z.of_nat (length (global_cells st))));
    cbn [andb]; try (split; [intros _; lia|reflexivity]).
  split; [|lia]. intros Hnone. apply nth_error_None in Hnone. lia.
Qed.

Lemma cell_at_store (st : State) (index : Z) (c c' : Cell) :
  cell_at st index = Some c ->
  cell_at (store_cell st index c') index = Some c'.
Proof.
  intros Hc. apply cell_at_some in Hc as [Hr Hn].
  apply cell_at_some. cbn [store_cell global_cells].
  rewrite list_set_length. split; [exact Hr|].
  apply list_set_nth_error. lia.
Qed.

(** The loop over the material indices, on accepted indices and up to
    the first rejected one. *)
Lemma push_materials_valid (n_mat : Z) :
  forall (indices material : list Z),
    forallb (material_index_ok n_mat) indices = true ->
    push_materials n_mat indices material
    = (material ++ map internal_material indices, true).
Proof.
  induction indices as [|i indices IH]; intros material Hok.
  - cbn. now rewrite app_nil_r.
  - cbn [forallb] in Hok. apply andb_true_iff in Hok as [Hi Hok].
    cbn [push_materials map]. unfold material_index_ok in Hi.
    unfold internal_material at 1.
    destruct (i =? MATERIAL_VOID); cbn [orb] in Hi.
    + rewrite IH by exact Hok. now rewrite <- app_assoc.
    + rewrite Hi, IH by exact Hok. now rewrite <- app_assoc.
Qed.

Lemma push_materials_invalid (n_mat : Z) :
  forall (valid : list Z) (bad : Z) (rest material : list Z),
    forallb (material_index_ok n_mat) valid = true ->
    material_index_ok n_mat bad = false ->
    push_materials n_mat (valid ++ bad :: rest) material
    = (material ++ map internal_material valid, false).
Proof.
  induction valid as [|i valid IH]; intros bad rest material Hok Hbad.
  - cbn [app push_materials map]. unfold material_index_ok in Hbad.
    apply orb_false_iff in Hbad as [-> ->]. now rewrite app_nil_r.
  - cbn [forallb] in Hok. apply andb_true_iff in Hok as [Hi Hok].
    cbn [app push_materials map]. unfold material_index_ok in Hi.
    unfold internal_material at 1.
    destruct (i =? MATERIAL_VOID); cbn [orb] in Hi.
    + rewrite IH by assumption. now rewrite <- app_assoc.
    + rewrite Hi, IH by assumption. now rewrite <- app_assoc.
Qed.

(** Every list of indices is all accepted, or splits at its first
    rejected index. *)
Lemma material_indices_split (n_mat : Z) (indices : list Z) :
  forallb (material_index_ok n_mat) indices = true \/
  exists valid bad rest,
    indices = valid ++ bad :: rest /\
    forallb (material_index_ok n_mat) valid = true /\
    material_index_ok n_mat bad = false.
Proof.
  induction indices as [|i indices IH]; [now left|].
  destruct (material_index_ok n_mat i) eqn:Hi.
  - destruct IH as [Hall|(valid & bad & rest & -> & Hv & Hb)].
    + left. cbn [forallb]. now rewrite Hi.
    + right. exists (i :: valid), bad, rest. cbn [forallb app].
      now rewrite Hi.
  - right. now exists [], i, indices.
Qed.


Lemma material_index_ok_iff (n_mat i_mat : Z) :
  material_index_ok n_mat i_mat = true <->
  i_mat = MATERIAL_VOID \/ 1 <= i_mat <= n_mat.
Proof.
  unfold material_index_ok.
  rewrite orb_true_iff, andb_true_iff, Z.eqb_eq, !Z.leb_le. tauto.
Qed.

Lemma with_material_twice (c : Cell) (m m' : list Z) :
  with_material (with_material c m) m' = with_material c m'.
Proof. reflexivity. Qed.

Lemma set_fill_material_ok (st : State) (index : Z) (c : Cell)
  (indices : list Z) :
  cell_at st index = Some c ->
  forallb (material_index_ok (n_materials st)) indices = true ->
  openmc_cell_set_fill index FILL_MATERIAL indices st
  = (0, store_cell st index
          (with_material (with_type c FILL_MATERIAL)
             (map internal_material indices))).
Proof.
  intros Hcell Hok. unfold openmc_cell_set_fill.
  rewrite Hcell, Z.eqb_refl. cbn [material with_material].
  now rewrite (push_materials_valid _ _ _ Hok).
Qed.

Lemma set_fill_material_bad (st : State) (index : Z) (c : Cell)
  (valid : list Z) (bad : Z) (rest : list Z) :
  cell_at st index = Some c ->
  forallb (material_index_ok (n_materials st)) valid = true ->
  material_index_ok (n_materials st) bad = false ->
  openmc_cell_set_fill index FILL_MATERIAL (valid ++ bad :: rest) st
  = (OPENMC_E_OUT_OF_BOUNDS,
     with_err_msg
       (store_cell st index
          (with_material (with_type c FILL_MATERIAL)
             (map internal_material valid)))
       "Index in materials array is out of bounds.").
Proof.
  intros Hcell Hok Hbad. unfold openmc_cell_set_fill.
  rewrite Hcell, Z.eqb_refl. cbn [material with_material].
  now rewrite (push_materials_invalid _ _ _ _ _ Hok Hbad).
Qed.

Lemma set_fill_other (st : State) (index type_ : Z) (c : Cell)
  (indices : list Z) :
  cell_at st index = Some c ->
  type_ <> FILL_MATERIAL ->
  openmc_cell_set_fill index type_ indices st
  = (0, store_cell st index
          (with_type c (if type_ =? FILL_UNIVERSE
                        then FILL_UNIVERSE else FILL_LATTICE))).
Proof.
  intros Hcell Hne. unfold openmc_cell_set_fill.
  rewrite Hcell, (proj2 (Z.eqb_neq _ _) Hne).
  now destruct (type_ =? FILL_UNIVERSE).
Qed.

Lemma api_bad_cell_index (st : State) (index : Z) :
  cell_at st index = None ->
  openmc_cell_get_fill index st
  = (OPENMC_E_OUT_OF_BOUNDS, None,
     with_err_msg st "Index in cells array is out of bounds.") /\
  (forall type_ indices,
      openmc_cell_set_fill index type_ indices st
      = (OPENMC_E_OUT_OF_BOUNDS,
         with_err_msg st "Index in cells array is out of bounds.")) /\
  (forall T instance,
      openmc_cell_set_temperature sqrt_kT index T instance st
      = (OPENMC_E_OUT_OF_BOUNDS,
         with_err_msg st "Index in cells array is out of bounds.")).
Proof.
  intros Hnone.
  unfold openmc_cell_get_fill, openmc_cell_set_fill,
    openmc_cell_set_temperature.
  now rewrite Hnone.
Qed.

End ApiFacts.

(** C4, amended.  An error return of [openmc_cell_set_temperature]
    leaves every cell as it was.  An error return of
    [openmc_cell_set_fill] either comes from the cell index and leaves
    every cell as it was, or comes from a material index: the fill kind
    of the cell is then [FILL_MATERIAL] and its material list holds the
    translated indices that precede the rejected one. *)
Theorem api_error_effects `{Doubles} `{ApiConstants}
  (sqrt_kT : double -> double) (st : State) (index : Z) :
  api_constants_distinct ->
  (forall T instance st',
      openmc_cell_set_temperature sqrt_kT index T instance st
      = (OPENMC_E_OUT_OF_BOUNDS, st') ->
      global_cells st' = global_cells st) /\
  (forall type_ indices st',
      openmc_cell_set_fill index type_ indices st
      = (OPENMC_E_OUT_OF_BOUNDS, st') ->
      (cell_at st index = None /\ global_cells st' = global_cells st) \/
      (exists c valid bad rest,
          cell_at st index = Some c /\
          type_ = FILL_MATERIAL /\
          indices = valid ++ bad :: rest /\
          forallb (material_index_ok (n_materials st)) valid = true /\
          material_index_ok (n_materials st) bad = false /\
          global_cells st'
          = list_set (global_cells st) (Z.to_nat (index - 1))
              (with_material (with_type c FILL_MATERIAL)
                 (map internal_material valid)))).
Proof.
  intros (_ & _ & _ & Herr). split.
  - intros T instance st'. unfold openmc_cell_set_temperature.
    destruct (cell_at st index) as [c|];
      [destruct instance as [k|]; [destruct (_ && _)|]|];
      intros E; inversion E; subst; try congruence; reflexivity.
  - intros type_ indices st' Hret.
    destruct (cell_at st index) as [c|] eqn:Hcell.
    + right. destruct (Z.eq_dec type_ FILL_MATERIAL) as [->|Hne].
      * destruct (material_indices_split (n_materials st) indices)
          as [Hall|(valid & bad & rest & -> & Hv & Hb)].
        -- rewrite (set_fill_material_ok st index c indices Hcell Hall)
             in Hret.
           inversion Hret; congruence.
        -- rewrite (set_fill_material_bad st index c valid bad rest
                      Hcell Hv Hb) in Hret.
           inversion Hret; subst.
           now exists c, valid, bad, rest.
      * rewrite (set_fill_other st index type_ c indices Hcell Hne) in Hret.
        inversion Hret; congruence.
    + left. split; [reflexivity|].
      destruct (api_bad_cell_index sqrt_kT st index Hcell) as (_ & Hfill & _).
      rewrite Hfill in Hret. inversion Hret; subst. reflexivity.
Qed.

(** C5, amended.  A call of [openmc_cell_set_fill] with a kind other than
    [FILL_MATERIAL] succeeds on every existing cell, sets its fill kind to
    [FILL_UNIVERSE] or [FILL_LATTICE], and leaves its material list as it
    was. *)
Theorem set_fill_keeps_material_list `{Doubles} `{ApiConstants}
  (st : State) (index type_ : Z) (indices : list Z) (c : Cell) :
  cell_at st index = Some c ->
  type_ <> FILL_MATERIAL ->
  exists c',
    openmc_cell_set_fill index type_ indices st = (0, store_cell st index c') /\
    cell_at (store_cell st index c') index = Some c' /\
    type c' = (if type_ =? FILL_UNIVERSE then FILL_UNIVERSE else FILL_LATTICE) /\
    material c' = material c.
Proof.
  intros Hcell Hne.
  exists (with_type c (if type_ =? FILL_UNIVERSE
                       then FILL_UNIVERSE else FILL_LATTICE)).
  split; [now apply set_fill_other|].
  split; [now apply cell_at_store with (c := c)|].
  now split.
Qed.

(** C9, amended.  The cell index of the three functions is 1-based:
    index [i] names [global_cells[i-1]], and an index outside
    [1..global_cells.size()] fails with [OPENMC_E_OUT_OF_BOUNDS].  A
    material index passed to [openmc_cell_set_fill] with
    [FILL_MATERIAL] is the void sentinel, stored as it is, or 1-based and
    stored minus one; any other value fails with
    [OPENMC_E_OUT_OF_BOUNDS].  The instance of
    [openmc_cell_set_temperature] is 0-based and used as it is: [k]
    names [sqrtkT[k]], and a value outside [0..sqrtkT.size()-1] fails
    with [OPENMC_E_OUT_OF_BOUNDS]. *)
Theorem api_index_conventions `{Doubles} `{ApiConstants}
  (sqrt_kT : double -> double) (st : State) :
  (forall index c,
      cell_at st index = Some c <->
      1 <= index <= Z.of_nat (length (global_cells st)) /\
      nth_error (global_cells st) (Z.to_nat (index - 1)) = Some c) /\
  (forall index,
      ~ (1 <= index <= Z.of_nat (length (global_cells st))) ->
      fst (fst (openmc_cell_get_fill index st)) = OPENMC_E_OUT_OF_BOUNDS /\
      (forall type_ indices,
          fst (openmc_cell_set_fill index type_ indices st)
          = OPENMC_E_OUT_OF_BOUNDS) /\
      (forall T instance,
          fst (openmc_cell_set_temperature sqrt_kT index T instance st)
          = OPENMC_E_OUT_OF_BOUNDS)) /\
  (forall index c,
      cell_at st index = Some c ->
      openmc_cell_get_fill index st
      = (0,
         Some (if type c =? FILL_MATERIAL
               then (type c, material c, Z.of_nat (length (material c)))
               else (type c, [fill c], 1)),
         st)) /\
  (forall n_mat i_mat,
      material_index_ok n_mat i_mat = true <->
      i_mat = MATERIAL_VOID \/ 1 <= i_mat <= n_mat) /\
  (forall i_mat, i_mat <> MATERIAL_VOID -> internal_material i_mat = i_mat - 1) /\
  (forall index c indices,
      cell_at st index = Some c ->
      forallb (material_index_ok (n_materials st)) indices = true ->
      openmc_cell_set_fill index FILL_MATERIAL indices st
      = (0, store_cell st index
              (with_material (with_type c FILL_MATERIAL)
                 (map internal_material indices)))) /\
  (forall index c indices,
      cell_at st index = Some c ->
      forallb (material_index_ok (n_materials st)) indices = false ->
      fst (openmc_cell_set_fill index FILL_MATERIAL indices st)
      = OPENMC_E_OUT_OF_BOUNDS) /\
  (forall index c T k,
      cell_at st index = Some c ->
      0 <= k < Z.of_nat (length (sqrtkT c)) ->
      openmc_cell_set_temperature sqrt_kT index T (Some k) st
      = (0, store_cell st index
              (with_sqrtkT c
                 (list_set (sqrtkT c) (Z.to_nat k) (sqrt_kT T))))) /\
  (forall index c T k,
      cell_at st index = Some c ->
      ~ (0 <= k < Z.of_nat (length (sqrtkT c))) ->
      openmc_cell_set_temperature sqrt_kT index T (Some k) st
      = (OPENMC_E_OUT_OF_BOUNDS,
         with_err_msg st "Distribcell instance is out of bounds.")).
Proof.
  split; [intros; apply cell_at_some|].
  split.
  { intros index Hout. apply cell_at_none in Hout.
    destruct (api_bad_cell_index sqrt_kT st index Hout) as (Hg & Hf & Ht).
    rewrite Hg. split; [reflexivity|].
    split; intros; [now rewrite Hf|now rewrite Ht]. }
  split.
  { intros index c Hcell. unfold openmc_cell_get_fill. rewrite Hcell.
    now destruct (type c =? FILL_MATERIAL). }
  split; [intros; apply material_index_ok_iff|].
  split.
  { intros i_mat Hne. unfold internal_material.
    now rewrite (proj2 (Z.eqb_neq _ _) Hne). }
  split; [intros; now apply set_fill_material_ok|].
  split.
  { intros index c indices Hcell Hbad.
    destruct (material_indices_split (n_materials st) indices)
      as [Hall|(valid & bad & rest & -> & Hv & Hb)]; [congruence|].
    now rewrite (set_fill_material_bad st index c valid bad rest Hcell Hv Hb). }
  split.
  { intros index c T k Hcell Hk. unfold openmc_cell_set_temperature.
    rewrite Hcell.
    destruct (Z.leb_spec 0 k), (Z.ltb_spec k (Z.of_nat (length (sqrtkT c))));
      try lia. reflexivity. }
  { intros index c T k Hcell Hk. unfold openmc_cell_set_temperature.
    rewrite Hcell.
    destruct (Z.leb_spec 0 k), (Z.ltb_spec k (Z.of_nat (length (sqrtkT c))));
      try lia; reflexivity. }
Qed.

(** ** Witnesses and counterexamples *)

Lemma top_codes_ordered : @codes_ordered top_codes.
Proof. repeat split; vm_compute; congruence. Qed.

Lemma sample_constants_distinct : @api_constants_distinct sample_constants.
Proof. repeat split; vm_compute; congruence. Qed.

(** Witness of C1: the region ")" of cell 6. *)
Lemma generate_rpn_unmatched_right_paren_witness :
  @tokenize top_codes ")" = Ok [INT_MAX - 1] /\
  @generate_rpn top_codes 6 [INT_MAX - 1] = Fail OutOfRangeAccess.
Proof.
  split; [reflexivity|].
  apply (@generate_rpn_unmatched_right_paren top_codes 6 [INT_MAX - 1]
           top_codes_ordered).
  reflexivity.
Defined.

(** Scenario 6: the region "((1" of cell 6. *)
Lemma generate_rpn_leftover_left_paren_witness :
  @tokenize top_codes "((1" = Ok [INT_MAX; INT_MAX; 1] /\
  @generate_rpn top_codes 6 [INT_MAX; INT_MAX; 1]
  = Fail (MismatchedParentheses 6).
Proof.
  split; [reflexivity|].
  apply (@generate_rpn_leftover_left_paren top_codes 6 [INT_MAX; INT_MAX; 1]
           1%nat top_codes_ordered).
  reflexivity.
Defined.

Lemma generate_rpn_balanced_witness :
  exists rpn, @generate_rpn top_codes 2
                [INT_MAX; 1; INT_MAX - 3; 2; INT_MAX - 1; INT_MAX - 4; -3]
              = Ok rpn.
Proof.
  apply (@generate_rpn_balanced top_codes 2 _ top_codes_ordered).
  reflexivity.
Defined.

(** Witness of C8: the region "1 -2 3" of scenario 1. *)
Lemma tokenize_operator_free_input_witness :
  @tokenize top_codes "1 -2 3" = Ok [1; INT_MAX - 3; -2; INT_MAX - 3; 3].
Proof.
  apply (proj1 (@tokenize_operator_free_input top_codes top_codes_ordered)
           [] ["1"%char]
           [([" "%char], ["-"%char; "2"%char]); ([" "%char], ["3"%char])]
           []).
  - reflexivity.
  - reflexivity.
  - repeat constructor; discriminate.
  - repeat constructor; discriminate.
Defined.

(** Witness of C10: the region " ". *)
Lemma tokenize_blank_input_out_of_range_witness :
  @tokenize top_codes " " = Fail OutOfRangeAccess.
Proof.
  apply (@tokenize_blank_input_out_of_range top_codes [" "%char]).
  - discriminate.
  - reflexivity.
Defined.

(** Witness of C3: the cell of scenario 1. *)
Lemma simple_flag_and_simple_path_witness :
  @contains_complex top_codes binary64_doubles negative_surfaces origin
    heading 0 cell_1
  = Ok (@contains_simple top_codes binary64_doubles negative_surfaces origin
          heading 0 cell_1).
Proof.
  apply (proj2 (@simple_flag_and_simple_path top_codes binary64_doubles
                  (fun k => k - 1) "1 -2 3" cell_1 top_codes_ordered
                  eq_refl)).
  - reflexivity.
  - reflexivity.
Defined.

(** Counterexample to C3: the region "1 ()" compiles to the postfix form
    [1, OP_INTERSECTION] and is classified simple; the simple path decides
    by surface 1 alone, while the stack evaluator pops two entries from a
    stack that holds one. *)
Lemma degenerate_region_breaks_equivalence :
  @constructed top_codes binary64_doubles (fun k => k - 1) "1 ()" cell_7 /\
  simple cell_7 = true /\
  @contains_simple top_codes binary64_doubles negative_surfaces origin
    heading 0 cell_7 = false /\
  @contains_complex top_codes binary64_doubles negative_surfaces origin
    heading 0 cell_7 = Fail OutOfRangeAccess /\
  @contains_complex top_codes binary64_doubles negative_surfaces origin
    heading 0 cell_7
  <> Ok (@contains_simple top_codes binary64_doubles negative_surfaces origin
           heading 0 cell_7).
Proof.
  split; [reflexivity|]. split; [reflexivity|]. split; [reflexivity|].
  split; [reflexivity|]. vm_compute. discriminate.
Qed.

(** Witness of C7: scenario 5, with surface 1 at distance 9, surface 2 at
    5 and surface 3 at 5 (1 - eps / 2).  Surface 3 is nearer than
    surface 2, by less than the tolerance; the pair returned is that of
    surface 2. *)
Lemma distance_tie_breaking_witness :
  @Cell_distance top_codes binary64_doubles close_surfaces origin heading 0
    cell_5
  = (@candidate binary64_doubles close_surfaces origin heading 0 2,
     -2) /\
  PrimFloat.ltb
    (@candidate binary64_doubles close_surfaces origin heading 0 3)
    (@candidate binary64_doubles close_surfaces origin heading 0 2)
  = true.
Proof.
  split; [|vm_compute; reflexivity].
  apply (proj1 (proj2 (@distance_tie_breaking top_codes binary64_doubles
                         close_surfaces origin heading 0))
           cell_5 [1] 2 [INT_MAX - 3; 3; INT_MAX - 3]).
  - reflexivity.
  - reflexivity.
  - vm_compute. reflexivity.
  - intros t Hin Hop.
    destruct Hin as [<-|[<-|[<-|[]]]];
      try (vm_compute in Hop; discriminate Hop).
    vm_compute. reflexivity.
Defined.

(** Counterexample to C7: the region "1 2 3" with surface 1 at distance
    1, surface 2 at 1 - 5/8 eps and surface 3 at 1 - 9/8 eps.  The
    candidates of surfaces 2 and 3 are equal within the tolerance, in
    both directions, and surface 2 is met first; surface 2 fails the
    tests against the running minimum 1, surface 3 passes them, and the
    pair returned is that of surface 3. *)
Lemma distance_later_tied_surface_wins :
  @Cell_distance top_codes binary64_doubles drift_surfaces origin heading 0
    cell_5
  = (@candidate binary64_doubles drift_surfaces origin heading 0 3, -3) /\
  PrimFloat.ltb
    (PrimFloat.div
       (PrimFloat.abs
          (PrimFloat.sub
             (@candidate binary64_doubles drift_surfaces origin heading 0 3)
             (@candidate binary64_doubles drift_surfaces origin heading 0 2)))
       (@candidate binary64_doubles drift_surfaces origin heading 0 2))
    (@FP_PRECISION binary64_doubles) = true /\
  PrimFloat.ltb
    (PrimFloat.div
       (PrimFloat.abs
          (PrimFloat.sub
             (@candidate binary64_doubles drift_surfaces origin heading 0 2)
             (@candidate binary64_doubles drift_surfaces origin heading 0 3)))
       (@candidate binary64_doubles drift_surfaces origin heading 0 3))
    (@FP_PRECISION binary64_doubles) = true /\
  @displaces binary64_doubles
    (@candidate binary64_doubles drift_surfaces origin heading 0 3)
    (@candidate binary64_doubles drift_surfaces origin heading 0 2) = false /\
  @displaces binary64_doubles
    (@candidate binary64_doubles drift_surfaces origin heading 0 2)
    (@candidate binary64_doubles drift_surfaces origin heading 0 3) = false /\
  rpn cell_5 = [1; 2; INT_MAX - 3; 3; INT_MAX - 3].
Proof. repeat split; vm_compute; reflexivity. Qed.

(** Counterexample to C6: the region "1 2 3" with surface 1 at distance 1
    and surfaces 2 and 3 at the next binary64 number below 1.  Surface 1
    takes the minimum from [INFTY]; the candidates of surfaces 2 and 3
    are smaller by 2^-53, below the tolerance, and are ignored.  The
    distance returned, 1, is not less than or equal to the distance of
    surface 2. *)
Lemma distance_exceeds_a_surface_distance :
  @Cell_distance top_codes binary64_doubles near_surfaces origin heading 0
    cell_5
  = (@distance binary64_doubles (near_surfaces 0) origin heading false, -1) /\
  @distance binary64_doubles (near_surfaces 0) origin heading false
  = 1%float /\
  @distance binary64_doubles (near_surfaces 1) origin heading false
  = 0x1.fffffffffffffp-1%float /\
  PrimFloat.leb
    (fst (@Cell_distance top_codes binary64_doubles near_surfaces origin
            heading 0 cell_5))
    (@distance binary64_doubles (near_surfaces 1) origin heading false)
  = false.
Proof. repeat split; vm_compute; reflexivity. Qed.

(** Witness of C6: the cell and the surfaces of the counterexample.  The
    candidate of surface 2 does not pass the tests against the running
    minimum after it, and the distance returned is that minimum. *)
Lemma distance_running_minimum_witness :
  @displaces binary64_doubles
    (@candidate binary64_doubles near_surfaces origin heading 0 2)
    (fst (@distance_rpn top_codes binary64_doubles near_surfaces origin
            heading 0 [1; 2] (DBL_MAX, INT_MAX)))
  = false /\
  (fst (@Cell_distance top_codes binary64_doubles near_surfaces origin
          heading 0 cell_5)
   = fst (@distance_rpn top_codes binary64_doubles near_surfaces origin
            heading 0 [1; 2] (DBL_MAX, INT_MAX)) \/
   PrimFloat.ltb
     (fst (@Cell_distance top_codes binary64_doubles near_surfaces origin
             heading 0 cell_5))
     (fst (@distance_rpn top_codes binary64_doubles near_surfaces origin
             heading 0 [1; 2] (DBL_MAX, INT_MAX)))
   = true).
Proof.
  destruct (@distance_running_minimum top_codes DBL_MAX EPS_14 near_surfaces
              origin heading 0 cell_5 [1] [INT_MAX - 3; 3; INT_MAX - 3] 2
              eq_refl eq_refl)
    as (Hsettled & Hbelow & _).
  split; [exact Hsettled|exact Hbelow].
Defined.

(** Counterexample to C4: a universe-filled cell with no material, two
    materials in the model.  [openmc_cell_set_fill] with [FILL_MATERIAL]
    and indices 1 and 7 returns the error code at index 7; by then the
    fill kind is [FILL_MATERIAL] and the material list holds index 0. *)
Lemma set_fill_error_modifies_cell :
  fst (@openmc_cell_set_fill binary64_doubles sample_constants 1 1 [1; 7]
         universe_state) = (@OPENMC_E_OUT_OF_BOUNDS sample_constants) /\
  map type (global_cells universe_state) = [2] /\
  map material (global_cells universe_state) = [[]] /\
  map type
    (global_cells
       (snd (@openmc_cell_set_fill binary64_doubles sample_constants 1 1
               [1; 7] universe_state))) = [1] /\
  map material
    (global_cells
       (snd (@openmc_cell_set_fill binary64_doubles sample_constants 1 1
               [1; 7] universe_state))) = [[0]].
Proof. repeat split; reflexivity. Qed.

(** Witness of C4: instance 5 of a cell with one temperature. *)
Lemma api_error_effects_witness :
  global_cells
    (snd (@openmc_cell_set_temperature binary64_doubles sample_constants
            sample_sqrt_kT 1 300%float (Some 5) material_state))
  = global_cells material_state.
Proof.
  apply (proj1 (@api_error_effects binary64_doubles sample_constants
                  sample_sqrt_kT material_state 1
                  sample_constants_distinct)
           300%float (Some 5)).
  reflexivity.
Defined.

(** Counterexample to C5: a material-filled cell with material list [0].
    [openmc_cell_set_fill] with [FILL_UNIVERSE] succeeds and the list is
    still [0]. *)
Lemma set_fill_universe_leaves_materials :
  map type (global_cells material_state) = [(@FILL_MATERIAL sample_constants)] /\
  fst (@openmc_cell_set_fill binary64_doubles sample_constants 1
         (@FILL_UNIVERSE sample_constants) [] material_state) = 0 /\
  map type
    (global_cells
       (snd (@openmc_cell_set_fill binary64_doubles sample_constants 1
               (@FILL_UNIVERSE sample_constants) [] material_state))) = [(@FILL_UNIVERSE sample_constants)] /\
  map material
    (global_cells
       (snd (@openmc_cell_set_fill binary64_doubles sample_constants 1
               (@FILL_UNIVERSE sample_constants) [] material_state))) = [[0]].
Proof. repeat split; reflexivity. Qed.

(** Witness of C5: the same call. *)
Lemma set_fill_keeps_material_list_witness :
  exists c',
    @openmc_cell_set_fill binary64_doubles sample_constants 1 2 []
      material_state = (0, store_cell material_state 1 c') /\
    cell_at (store_cell material_state 1 c') 1 = Some c' /\
    type c' = 2 /\
    material c' = [0].
Proof.
  apply (@set_fill_keeps_material_list binary64_doubles sample_constants
           material_state 1 2 []
           (@sample_cell binary64_doubles 1 1 [0] [1%float] [] [] true)).
  - reflexivity.
  - discriminate.
Defined.

(** Counterexample to C9: a cell with one temperature.  Instance 0 is
    accepted and instance 1, the only valid 1-based value, fails. *)
Lemma set_temperature_instance_is_zero_based :
  map (@length float) (map sqrtkT (global_cells material_state)) = [1%nat] /\
  fst (@openmc_cell_set_temperature binary64_doubles sample_constants
         sample_sqrt_kT 1 300%float (Some 0) material_state) = 0 /\
  fst (@openmc_cell_set_temperature binary64_doubles sample_constants
         sample_sqrt_kT 1 300%float (Some 1) material_state)
  = (@OPENMC_E_OUT_OF_BOUNDS sample_constants).
Proof. repeat split; reflexivity. Qed.

(** Witness of C9: the material indices 2, void and 1 are stored as 1,
    void and 0. *)
Lemma api_index_conventions_witness :
  fst (@openmc_cell_set_fill binary64_doubles sample_constants 1
         (@FILL_MATERIAL sample_constants) [2; -1; 1] material_state) = 0 /\
  map material
    (global_cells
       (snd (@openmc_cell_set_fill binary64_doubles sample_constants 1
               (@FILL_MATERIAL sample_constants) [2; -1; 1]
               material_state))) = [[1; -1; 0]].
Proof.
  pose proof (@api_index_conventions binary64_doubles sample_constants
                sample_sqrt_kT material_state)
    as (_ & _ & _ & _ & _ & Hfill & _).
  rewrite (Hfill 1 (@sample_cell binary64_doubles 1 1 [0] [1%float] [] [] true)
             [2; -1; 1] eq_refl eq_refl).
  split; reflexivity.
Defined.

(** ** The scenarios of the specification, evaluated *)

(** Scenario 1: "1 -2 3". *)
Example scenario_1_region :
  @compile_region top_codes 1 (fun k => k - 1) "1 -2 3"
  = Ok ([1; INT_MAX - 3; -2; INT_MAX - 3; 3],
        [1; -2; INT_MAX - 3; 3; INT_MAX - 3], true).
Proof. reflexivity. Qed.

(** Scenario 2: "(1 2) | -3". *)
Example scenario_2_region :
  @compile_region top_codes 2 (fun k => k - 1) "(1 2) | -3"
  = Ok ([INT_MAX; 1; INT_MAX - 3; 2; INT_MAX - 1; INT_MAX - 4; -3],
        [1; 2; INT_MAX - 3; -3; INT_MAX - 4], false).
Proof. reflexivity. Qed.

(** Scenario 3: "~(1 | 2)". *)
Example scenario_3_region :
  @compile_region top_codes 3 (fun k => k - 1) "~(1 | 2)"
  = Ok ([INT_MAX - 2; INT_MAX; 1; INT_MAX - 4; 2; INT_MAX - 1],
        [1; 2; INT_MAX - 4; INT_MAX - 2], false).
Proof. reflexivity. Qed.

(** Scenario 4: the empty region is everywhere and has no boundary. *)
Example scenario_4_region :
  @compile_region top_codes 4 (fun k => k - 1) "" = Ok ([], [], true) /\
  @contains_complex_rpn top_codes binary64_doubles negative_surfaces origin
    heading 0 [] = Ok true /\
  @contains_simple_rpn top_codes binary64_doubles negative_surfaces origin
    heading 0 [] = true /\
  @distance_rpn top_codes binary64_doubles negative_surfaces origin heading
    0 [] (@INFTY binary64_doubles, INT_MAX)
  = (@INFTY binary64_doubles, INT_MAX).
Proof. repeat split; reflexivity. Qed.

(** Scenario 5: surfaces 2 and 3 tie within the tolerance; the earlier
    one is reported. *)
Example scenario_5_distance :
  @Cell_distance top_codes binary64_doubles tie_surfaces origin heading 0
    cell_5 = (5%float, -2).
Proof. vm_compute. reflexivity. Qed.

(** Union binds more weakly than intersection. *)
Example union_binds_weakest :
  (tokens <- @tokenize top_codes "1 | 2 3" ;; @generate_rpn top_codes 1 tokens)
  = Ok [1; 2; 3; INT_MAX - 3; INT_MAX - 4] /\
  (tokens <- @tokenize top_codes "1 2 | 3" ;; @generate_rpn top_codes 1 tokens)
  = Ok [1; 2; INT_MAX - 3; 3; INT_MAX - 4].
Proof. split; reflexivity. Qed.

(** Complement is right-associative. *)
Example complement_twice :
  (tokens <- @tokenize top_codes "~ ~ 1" ;; @generate_rpn top_codes 1 tokens)
  = Ok [1; INT_MAX - 2; INT_MAX - 2].
Proof. reflexivity. Qed.

(** With the left parenthesis below the right one, the operator branch
    of [generate_rpn] takes a left parenthesis for a regular operator and
    the last loop lets it through: "((1" would compile.  The comments of
    the source exclude that order. *)
Example swapped_parentheses_compile :
  @generate_rpn swapped_paren_codes 6 [INT_MAX - 1; INT_MAX - 1; 1]
  = Ok [INT_MAX - 1; 1; INT_MAX - 1].
Proof. reflexivity. Qed.

(** [std::stoi] on three literals, and on a lone sign. *)
Example stoi_literals :
  stoi ["-"%char; "1"%char; "2"%char] = Ok (-12) /\
  stoi ["+"%char; "7"%char] = Ok 7 /\
  stoi ["0"%char; "4"%char; "2"%char] = Ok 42 /\
  stoi ["-"%char] = Fail StoiInvalidArgument.
Proof. repeat split; reflexivity. Qed.

(** The tokenizer finishes on the region of scenario 1. *)
Lemma tokenize_total_witness :
  @tokenize top_codes "1 -2 3" <> Fail OutOfFuel.
Proof.
  apply (@tokenize_total top_codes top_codes_ordered).
Defined.

Section AccessorFacts.

Lemma at_index_in_range {A : Type} (v : list A) (i : Z) :
  0 <= i < Z.of_nat (length v) -> exists a, at_index v i = Ok a /\ nth_error v (Z.to_nat i) = Some a.
Proof.
  intros Hi. unfold at_index.
  destruct (Z.ltb_spec i 0); [lia|].
  destruct (nth_error v (Z.to_nat i)) as [a|] eqn:E; [now exists a|].
  apply nth_error_None in E. lia.
Qed.

Lemma at_index_map {A B : Type} (f : A -> B) (v : list A) (i : Z) :
  at_index (map f v) i
  = match at_index v i with Ok a => Ok (f a) | Fail e => Fail e end.
Proof.
  unfold at_index. destruct (i <? 0); [reflexivity|].
  rewrite nth_error_map. now destruct (nth_error v (Z.to_nat i)).
Qed.

End AccessorFacts.

Section ApiComposition.
Context `{Doubles} `{ApiConstants}.

Lemma list_set_nth_error_other {A : Type} (l : list A) (n m : nat) (x : A) :
  n <> m -> nth_error (list_set l n x) m = nth_error l m.
Proof.
  revert n m. induction l as [|a l IH]; intros [|n] [|m] Hne; cbn;
    try reflexivity; try congruence.
  apply IH. congruence.
Qed.

Lemma cell_at_store_other (st : State) (index j : Z) (c c' : Cell) :
  cell_at st index = Some c -> j <> index ->
  cell_at (store_cell st index c') j = cell_at st j.
Proof.
  intros Hc Hne. apply cell_at_some in Hc as [Hr _].
  unfold cell_at. cbn [store_cell global_cells]. rewrite list_set_length.
  destruct (Z.leb_spec 1 j); [|reflexivity].
  destruct (Z.leb_spec j (Z.of_nat (length (global_cells st))));
    [|reflexivity].
  cbn [andb]. apply list_set_nth_error_other. lia.
Qed.

Lemma forallb_nth_error {A : Type} (f : A -> bool) (l : list A) (n : nat)
  (a : A) :
  forallb f l = true -> nth_error l n = Some a -> f a = true.
Proof.
  intros Hall Hn. rewrite forallb_forall in Hall.
  apply Hall. eapply nth_error_In. exact Hn.
Qed.

End ApiComposition.

(** After a successful [openmc_cell_set_fill] with kind MATERIAL the
    Fortran accessors read back what the caller passed: [cell_type] is
    MATERIAL, [cell_material_size] is the number of indices, and
    [cell_material] with the 1-based position [i] returns the [i]-th
    index as it was passed, the void sentinel included; outside
    [1..n] it reads outside the vector. *)
Theorem cell_material_after_set_fill `{Doubles} `{ApiConstants}
  (st : State) (index : Z) (c : Cell) (indices : list Z) :
  MATERIAL_VOID < 0 ->
  cell_at st index = Some c ->
  forallb (material_index_ok (n_materials st)) indices = true ->
  exists c',
    cell_at (snd (openmc_cell_set_fill index FILL_MATERIAL indices st)) index
    = Some c' /\
    cell_type c' = FILL_MATERIAL /\
    cell_material_size c' = Z.of_nat (length indices) /\
    forall i, cell_material c' i = at_index indices (i - 1).
Proof.
  intros Hvoid Hcell Hok.
  rewrite (set_fill_material_ok st index c indices Hcell Hok). cbn [snd].
  eexists. split; [now apply cell_at_store with (c := c)|].
  split; [reflexivity|].
  split; [unfold cell_material_size; cbn [material with_material];
          now rewrite length_map|].
  intros i. unfold cell_material. cbn [material with_material].
  rewrite at_index_map.
  destruct (at_index indices (i - 1)) as [x|f] eqn:Ex; cbn [bind];
    [|reflexivity].
  assert (Hx : material_index_ok (n_materials st) x = true).
  { unfold at_index in Ex. destruct (i - 1 <? 0); [discriminate|].
    destruct (nth_error indices (Z.to_nat (i - 1))) as [y|] eqn:Ey;
      [|discriminate].
    injection Ex as <-. exact (forallb_nth_error _ _ _ _ Hok Ey). }
  apply material_index_ok_iff in Hx. unfold internal_material.
  destruct (Z.eqb_spec x MATERIAL_VOID) as [->|Hne].
  - now rewrite Z.eqb_refl.
  - destruct (Z.eqb_spec (x - 1) MATERIAL_VOID) as [E|_]; [lia|].
    f_equal. lia.
Qed.

(** [openmc_cell_get_fill] after [openmc_cell_set_fill] on the same
    cell.  With kind MATERIAL and valid indices it reports the kind and
    the translated indices.  With any other kind it reports UNIVERSE or
    LATTICE and, as the single index, the [fill] the cell had before: the
    indices passed to [openmc_cell_set_fill] are not stored. *)
Theorem get_fill_after_set_fill `{Doubles} `{ApiConstants}
  (st : State) (index : Z) (c : Cell) (indices : list Z) :
  api_constants_distinct ->
  cell_at st index = Some c ->
  (forallb (material_index_ok (n_materials st)) indices = true ->
   openmc_cell_get_fill index
     (snd (openmc_cell_set_fill index FILL_MATERIAL indices st))
   = (0,
      Some (FILL_MATERIAL, map internal_material indices,
            Z.of_nat (length indices)),
      snd (openmc_cell_set_fill index FILL_MATERIAL indices st))) /\
  (forall type_,
      type_ <> FILL_MATERIAL ->
      openmc_cell_get_fill index
        (snd (openmc_cell_set_fill index type_ indices st))
      = (0,
         Some (if type_ =? FILL_UNIVERSE then FILL_UNIVERSE else FILL_LATTICE,
               [fill c], 1),
         snd (openmc_cell_set_fill index type_ indices st))).
Proof.
  intros (Hmu & Hml & _ & _) Hcell. split.
  - intros Hok.
    rewrite (set_fill_material_ok st index c indices Hcell Hok). cbn [snd].
    unfold openmc_cell_get_fill.
    rewrite (cell_at_store st index c _ Hcell).
    cbn [type with_type with_material material].
    now rewrite Z.eqb_refl, length_map.
  - intros type_ Hne.
    rewrite (set_fill_other st index type_ c indices Hcell Hne). cbn [snd].
    unfold openmc_cell_get_fill.
    rewrite (cell_at_store st index c _ Hcell).
    cbn [type with_type fill].
    destruct (type_ =? FILL_UNIVERSE).
    + now rewrite (proj2 (Z.eqb_neq FILL_UNIVERSE FILL_MATERIAL))
        by congruence.
    + now rewrite (proj2 (Z.eqb_neq FILL_LATTICE FILL_MATERIAL))
        by congruence.
Qed.

Lemma store_cell_frame `{Doubles} `{ApiConstants}
  (st : State) (index : Z) (c c' : Cell) :
  cell_at st index = Some c ->
  id c' = id c -> universe c' = universe c -> fill c' = fill c ->
  sqrtkT c' = sqrtkT c -> region c' = region c -> rpn c' = rpn c ->
  simple c' = simple c ->
  length (global_cells (store_cell st index c')) = length (global_cells st) /\
  n_materials (store_cell st index c') = n_materials st /\
  (forall j, j <> index -> cell_at (store_cell st index c') j = cell_at st j) /\
  (forall c0,
     Some c = Some c0 ->
     exists c1,
       cell_at (store_cell st index c') index = Some c1 /\
       id c1 = id c0 /\ universe c1 = universe c0 /\ fill c1 = fill c0 /\
       sqrtkT c1 = sqrtkT c0 /\ region c1 = region c0 /\ rpn c1 = rpn c0 /\
       simple c1 = simple c0).
Proof.
  intros Hcell E1 E2 E3 E4 E5 E6 E7.
  split; [apply list_set_length|]. split; [reflexivity|].
  split; [intros j Hj; now apply cell_at_store_other with (c := c)|].
  intros c0 [= <-]. exists c'.
  split; [now apply cell_at_store with (c := c)|]. now repeat split.
Qed.

(** What [openmc_cell_set_fill] never touches, whether it succeeds or
    fails: the number of cells, the number of materials, every other
    cell, and the id, universe, fill target, temperatures, region,
    postfix form and simple flag of the cell itself. *)
Theorem set_fill_frame `{Doubles} `{ApiConstants}
  (st : State) (index type_ : Z) (indices : list Z) :
  length (global_cells (snd (openmc_cell_set_fill index type_ indices st)))
  = length (global_cells st) /\
  n_materials (snd (openmc_cell_set_fill index type_ indices st))
  = n_materials st /\
  (forall j, j <> index ->
     cell_at (snd (openmc_cell_set_fill index type_ indices st)) j
     = cell_at st j) /\
  (forall c,
     cell_at st index = Some c ->
     exists c',
       cell_at (snd (openmc_cell_set_fill index type_ indices st)) index
       = Some c' /\
       id c' = id c /\ universe c' = universe c /\ fill c' = fill c /\
       sqrtkT c' = sqrtkT c /\ region c' = region c /\ rpn c' = rpn c /\
       simple c' = simple c).
Proof.
  unfold openmc_cell_set_fill.
  destruct (cell_at st index) as [c|] eqn:Hcell.
  - destruct (type_ =? FILL_MATERIAL);
      [destruct (push_materials _ _ _) as [m [|]]
      |destruct (type_ =? FILL_UNIVERSE)];
      cbn [snd];
      match goal with
      | |- context [store_cell st index ?c'] =>
          exact (store_cell_frame st index c c' Hcell
                   eq_refl eq_refl eq_refl eq_refl eq_refl eq_refl eq_refl)
      end.
  - cbn [snd]. repeat split; try reflexivity. intros c [=].
Qed.

(** A successful [openmc_cell_set_temperature] read back through
    [cell_sqrtkT]: the addressed instance (every instance when none is
    given) holds [sqrt(k T)], every other instance keeps its value, and
    nothing else of the cell or of any other cell changes. *)
Theorem set_temperature_effect `{Doubles} `{ApiConstants}
  (sqrt_kT : double -> double) (st : State) (index : Z) (T : double)
  (instance : option Z) (c : Cell) :
  cell_at st index = Some c ->
  match instance with
  | Some k => 0 <= k < Z.of_nat (length (sqrtkT c))
  | None => True
  end ->
  exists c',
    openmc_cell_set_temperature sqrt_kT index T instance st
    = (0, store_cell st index c') /\
    cell_at (store_cell st index c') index = Some c' /\
    cell_sqrtkT_size c' = cell_sqrtkT_size c /\
    (forall j, 0 <= j < cell_sqrtkT_size c ->
       cell_sqrtkT c' j
       = match instance with
         | Some k => if j =? k then Ok (sqrt_kT T) else cell_sqrtkT c j
         | None => Ok (sqrt_kT T)
         end) /\
    id c' = id c /\ type c' = type c /\ universe c' = universe c /\
    fill c' = fill c /\ material c' = material c /\ region c' = region c /\
    rpn c' = rpn c /\ simple c' = simple c /\
    (forall j, j <> index -> cell_at (store_cell st index c') j = cell_at st j).
Proof.
  intros Hcell Hinst. unfold openmc_cell_set_temperature. rewrite Hcell.
  destruct instance as [k|].
  - destruct (Z.leb_spec 0 k), (Z.ltb_spec k (Z.of_nat (length (sqrtkT c))));
      try lia. cbn [andb].
    eexists. split; [reflexivity|].
    split; [now apply cell_at_store with (c := c)|].
    split; [unfold cell_sqrtkT_size; cbn [sqrtkT with_sqrtkT];
            now rewrite list_set_length|].
    split.
    { intros j Hj. unfold cell_sqrtkT, cell_sqrtkT_size, at_index in *.
      cbn [sqrtkT with_sqrtkT].
      destruct (Z.ltb_spec j 0); [lia|].
      destruct (Z.eqb_spec j k) as [->|Hne].
      - rewrite list_set_nth_error by lia. reflexivity.
      - rewrite list_set_nth_error_other by lia. reflexivity. }
    repeat split. intros j Hj. now apply cell_at_store_other with (c := c).
  - eexists. split; [reflexivity|].
    split; [now apply cell_at_store with (c := c)|].
    split; [unfold cell_sqrtkT_size; cbn [sqrtkT with_sqrtkT];
            now rewrite length_map|].
    split.
    { intros j Hj. unfold cell_sqrtkT, cell_sqrtkT_size in *.
      cbn [sqrtkT with_sqrtkT].
      rewrite at_index_map.
      destruct (at_index_in_range (sqrtkT c) j Hj) as (a & -> & _).
      reflexivity. }
    repeat split. intros j Hj. now apply cell_at_store_other with (c := c).
Qed.

(** The material cell refilled with material 2 and a void. *)
Lemma cell_material_after_set_fill_witness :
  exists c',
    cell_at (snd (@openmc_cell_set_fill binary64_doubles sample_constants 1
                    (@FILL_MATERIAL sample_constants) [2; -1]
                    material_state)) 1
    = Some c' /\
    @cell_type binary64_doubles c' = @FILL_MATERIAL sample_constants /\
    @cell_material_size binary64_doubles c' = 2 /\
    forall i,
      @cell_material binary64_doubles sample_constants c' i
      = at_index [2; -1] (i - 1).
Proof.
  apply (@cell_material_after_set_fill binary64_doubles sample_constants
           material_state 1
           (@sample_cell binary64_doubles 1 1 [0] [1%float] [] [] true)
           [2; -1]).
  - reflexivity.
  - reflexivity.
  - reflexivity.
Defined.

(** The material cell turned into a universe cell reports its old fill
    target 0, not the index 5 that was passed. *)
Lemma get_fill_after_set_fill_witness :
  @openmc_cell_get_fill binary64_doubles sample_constants 1
    (snd (@openmc_cell_set_fill binary64_doubles sample_constants 1
            (@FILL_UNIVERSE sample_constants) [5] material_state))
  = (0, Some (@FILL_UNIVERSE sample_constants, [0], 1),
     snd (@openmc_cell_set_fill binary64_doubles sample_constants 1
            (@FILL_UNIVERSE sample_constants) [5] material_state)).
Proof.
  apply (proj2 (@get_fill_after_set_fill binary64_doubles sample_constants
                  material_state 1
                  (@sample_cell binary64_doubles 1 1 [0] [1%float] [] []
                     true)
                  [5] sample_constants_distinct eq_refl)
           (@FILL_UNIVERSE sample_constants)).
  discriminate.
Defined.

(** The only temperature of the material cell set to 300 K. *)
Lemma set_temperature_effect_witness :
  exists c',
    @openmc_cell_set_temperature binary64_doubles sample_constants
      sample_sqrt_kT 1 300%float (Some 0) material_state
    = (0, store_cell material_state 1 c') /\
    @cell_sqrtkT binary64_doubles c' 0 = Ok (sample_sqrt_kT 300%float) /\
    material c' = [0].
Proof.
  destruct (@set_temperature_effect binary64_doubles sample_constants
              sample_sqrt_kT material_state 1 300%float (Some 0)
              (@sample_cell binary64_doubles 1 1 [0] [1%float] [] [] true)
              eq_refl)
    as (c' & Hcall & _ & _ & Hread & _ & _ & _ & _ & Hmat & _).
  - cbn. lia.
  - exists c'. split; [exact Hcall|]. split; [|exact Hmat].
    apply (Hread 0). cbn. lia.
Defined.

Section ExprCompile.
Context `{OpCodes}.
Hypothesis Hc : codes_ordered.

Lemma pop_operators_all (token : Z) :
  forall (pending rpn stack : list Z),
    token <> OP_COMPLEMENT ->
    Forall (fun op => op < OP_RIGHT_PAREN /\ token <= op) pending ->
    pop_operators token rpn (pending ++ stack)
    = pop_operators token (rpn ++ pending) stack.
Proof.
  induction pending as [|op pending IH]; intros rpn stack Hne Hall.
  - now rewrite app_nil_r.
  - inversion Hall as [|? ? [Hreg Hle] Hrest]; subst.
    cbn [app pop_operators].
    rewrite (proj2 (Z.ltb_lt _ _) Hreg), (proj2 (Z.eqb_neq _ _) Hne),
            (proj2 (Z.leb_le _ _) Hle).
    cbn. rewrite IH by assumption. now rewrite <- app_assoc.
Qed.

Lemma pop_operators_blocked (token : Z) (rpn stack : list Z) :
  token <> OP_COMPLEMENT ->
  match stack with
  | [] => True
  | op :: _ => op = OP_LEFT_PAREN \/ op < token
  end ->
  pop_operators token rpn stack = (rpn, stack).
Proof.
  unfold codes_ordered in Hc. intros Hne Htop.
  destruct stack as [|op stack]; [reflexivity|].
  cbn [pop_operators].
  destruct (Z.ltb_spec op OP_RIGHT_PAREN) as [Hreg|_]; [|reflexivity].
  rewrite (proj2 (Z.eqb_neq _ _) Hne). cbn.
  destruct (Z.leb_spec token op); [|reflexivity].
  destruct Htop; lia.
Qed.

Lemma pop_operators_complement (rpn stack : list Z) :
  shelf_ok OP_COMPLEMENT stack ->
  pop_operators OP_COMPLEMENT rpn stack = (rpn, stack).
Proof.
  unfold codes_ordered in Hc. intros [Hok _].
  destruct stack as [|op stack]; [reflexivity|].
  inversion Hok as [|? ? Hop _]; subst.
  cbn [pop_operators]. rewrite Z.eqb_refl. cbn.
  destruct (Z.ltb_spec op OP_RIGHT_PAREN); [|reflexivity].
  destruct (Z.ltb_spec OP_COMPLEMENT op); [|reflexivity]. lia.
Qed.

Lemma pop_to_left_paren_pending (cell_id level : Z) :
  forall (pending rpn stack : list Z),
    pending_ok level pending ->
    pop_to_left_paren cell_id rpn (pending ++ OP_LEFT_PAREN :: stack)
    = Ok (rpn ++ pending, stack).
Proof.
  unfold codes_ordered in Hc.
  induction pending as [|op pending IH]; intros rpn stack Hall.
  - cbn. now rewrite Z.eqb_refl, app_nil_r.
  - inversion Hall as [|? ? [Hop _] Hrest]; subst.
    cbn [app pop_to_left_paren].
    destruct (Z.eqb_spec op OP_LEFT_PAREN) as [E|_]; [lia|].
    rewrite IH by assumption. now rewrite <- app_assoc.
Qed.

Lemma drain_stack_pending (cell_id level : Z) :
  forall (pending rpn : list Z),
    pending_ok level pending ->
    drain_stack cell_id rpn pending = Ok (rpn ++ pending).
Proof.
  unfold codes_ordered in Hc.
  induction pending as [|op pending IH]; intros rpn Hall.
  - cbn. now rewrite app_nil_r.
  - inversion Hall as [|? ? [Hop _] Hrest]; subst.
    cbn [drain_stack].
    destruct (Z.leb_spec OP_RIGHT_PAREN op); [lia|].
    rewrite IH by assumption. now rewrite <- app_assoc.
Qed.

Lemma rpn_loop_operand (cell_id token : Z) (rest rpn stack : list Z) :
  token < OP_UNION ->
  rpn_loop cell_id (token :: rest) rpn stack
  = rpn_loop cell_id rest (rpn ++ [token]) stack.
Proof.
  intros Hop. cbn [rpn_loop]. now rewrite (proj2 (Z.ltb_lt _ _) Hop).
Qed.

Lemma rpn_loop_operator (cell_id token : Z) (rest rpn stack : list Z) :
  OP_UNION <= token < OP_RIGHT_PAREN ->
  rpn_loop cell_id (token :: rest) rpn stack
  = rpn_loop cell_id rest (fst (pop_operators token rpn stack))
      (token :: snd (pop_operators token rpn stack)).
Proof.
  intros [Hlo Hhi]. cbn [rpn_loop].
  rewrite (proj2 (Z.ltb_ge _ _) Hlo), (proj2 (Z.ltb_lt _ _) Hhi).
  now destruct (pop_operators token rpn stack).
Qed.

Lemma rpn_loop_left_paren (cell_id : Z) (rest rpn stack : list Z) :
  rpn_loop cell_id (OP_LEFT_PAREN :: rest) rpn stack
  = rpn_loop cell_id rest rpn (OP_LEFT_PAREN :: stack).
Proof.
  unfold codes_ordered in Hc. cbn [rpn_loop].
  destruct (Z.ltb_spec OP_LEFT_PAREN OP_UNION); [lia|].
  destruct (Z.ltb_spec OP_LEFT_PAREN OP_RIGHT_PAREN); [lia|].
  now rewrite Z.eqb_refl.
Qed.

Lemma rpn_loop_right_paren (cell_id : Z) (rest rpn stack : list Z) :
  rpn_loop cell_id (OP_RIGHT_PAREN :: rest) rpn stack
  = ('(rpn', stack') <- pop_to_left_paren cell_id rpn stack ;;
     rpn_loop cell_id rest rpn' stack').
Proof.
  unfold codes_ordered in Hc. cbn [rpn_loop].
  destruct (Z.ltb_spec OP_RIGHT_PAREN OP_UNION); [lia|].
  rewrite Z.ltb_irrefl.
  destruct (Z.eqb_spec OP_RIGHT_PAREN OP_LEFT_PAREN); [lia|]. reflexivity.
Qed.

Lemma shelf_ok_left_paren (level level' : Z) (stack : list Z) :
  shelf_ok level stack -> shelf_ok level' (OP_LEFT_PAREN :: stack).
Proof.
  intros [Hall _]. split; [constructor; auto|]. right. now left.
Qed.

Lemma compiled_in_parens (cell_id level level' : Z) (e e' : region_expr)
    (tokens : list Z) :
  postfix_of e' = postfix_of e ->
  compiled_at cell_id level e tokens ->
  compiled_at cell_id level' e'
    (OP_LEFT_PAREN :: tokens ++ [OP_RIGHT_PAREN]).
Proof.
  intros Hpost Hbody rest rpn stack Hshelf.
  destruct (Hbody (OP_RIGHT_PAREN :: rest) rpn (OP_LEFT_PAREN :: stack)
              (shelf_ok_left_paren _ level _ Hshelf))
    as (out & pending & Hrun & Hout & Hpend).
  exists (out ++ pending), []. repeat split.
  - cbn [app]. rewrite rpn_loop_left_paren, <- app_assoc. cbn [app].
    rewrite Hrun, rpn_loop_right_paren.
    rewrite (pop_to_left_paren_pending cell_id level) by assumption.
    cbn. now rewrite app_assoc.
  - now rewrite app_nil_r, Hpost.
  - constructor.
Qed.

Lemma shelf_ok_weaken (level level' : Z) (stack : list Z) :
  level <= level' -> level' <= OP_COMPLEMENT ->
  shelf_ok level stack -> shelf_ok level' stack.
Proof.
  intros Hle Htop [Hall Hhead]. split; [assumption|].
  destruct (Z.eq_dec level' OP_COMPLEMENT) as [E|N]; [now left|].
  right. destruct Hhead as [E|Hhead]; [lia|].
  destruct stack as [|op stack]; [exact I|].
  destruct Hhead; [now left|right; lia].
Qed.

Lemma pending_ok_weaken (level level' : Z) (pending : list Z) :
  level' <= level -> pending_ok level pending -> pending_ok level' pending.
Proof.
  intros Hle Hall. eapply Forall_impl; [|exact Hall].
  cbn. intros op [Hop Hl]. split; [assumption|lia].
Qed.

Lemma operator_level (level : Z) :
  level = OP_UNION \/ level = OP_INTERSECTION \/ level = OP_COMPLEMENT ->
  OP_UNION <= level <= OP_COMPLEMENT.
Proof. unfold codes_ordered in Hc. intros [E|[E|E]]; lia. Qed.

(** The main loop on the tokens of an expression: the output grows by
    the expression's postorder but for the operators still waiting on the
    stack, which are the last ones of the postorder. *)
Lemma rpn_loop_expr (cell_id : Z) :
  forall (e : region_expr) (level : Z),
    operands_ok e ->
    level = OP_UNION \/ level = OP_INTERSECTION \/ level = OP_COMPLEMENT ->
    compiled_at cell_id level e (infix_at level e).
Proof.
  pose proof Hc as Hord. unfold codes_ordered in Hord.
  induction e as [s|a IHa|a IHa|a IHa b IHb|a IHa b IHb];
    intros level Hops Hlevel; pose proof (operator_level _ Hlevel) as Hrange.
  - (* half-space *)
    cbn [infix_at precedence operands_ok] in *.
    destruct (Z.ltb_spec OP_RIGHT_PAREN level); [lia|].
    intros rest rpn stack _. exists [s], []. repeat split.
    + cbn [app]. now rewrite rpn_loop_operand.
    + constructor.
  - (* group *)
    cbn [infix_at precedence operands_ok] in *.
    destruct (Z.ltb_spec OP_RIGHT_PAREN level); [lia|].
    apply (compiled_in_parens cell_id OP_UNION level a); [reflexivity|].
    apply IHa; auto.
  - (* complement *)
    assert (Hbody : compiled_at cell_id OP_COMPLEMENT (Complement a)
                      (OP_COMPLEMENT :: infix_at OP_COMPLEMENT a)).
    { intros rest rpn stack Hshelf.
      assert (Hshelf' : shelf_ok OP_COMPLEMENT (OP_COMPLEMENT :: stack)).
      { split; [|now left]. constructor; [now auto|apply Hshelf]. }
      destruct (IHa OP_COMPLEMENT Hops (or_intror (or_intror eq_refl))
                  rest rpn _ Hshelf')
        as (out & pending & Hrun & Hout & Hpend).
      exists out, (pending ++ [OP_COMPLEMENT]). repeat split.
      - cbn [app]. rewrite rpn_loop_operator by lia.
        rewrite pop_operators_complement by assumption. cbn [fst snd].
        rewrite Hrun. now rewrite <- app_assoc.
      - cbn [postfix_of]. now rewrite app_assoc, Hout.
      - apply Forall_app. split; [assumption|].
        constructor; [|constructor]. split; [now auto|lia]. }
    cbn [infix_at precedence].
    destruct (Z.ltb_spec OP_COMPLEMENT level); [lia|].
    intros rest rpn stack Hshelf.
    destruct (Hbody rest rpn stack
                (shelf_ok_weaken level _ _ (proj2 Hrange) (Z.le_refl _) Hshelf))
      as (out & pending & Hrun & Hout & Hpend).
    exists out, pending. repeat split; try assumption.
    eapply pending_ok_weaken; [|exact Hpend]. lia.
  - (* intersection *)
    destruct Hops as [Hopa Hopb].
    assert (Hbody : compiled_at cell_id OP_INTERSECTION (Intersection a b)
                      (infix_at OP_INTERSECTION a
                         ++ OP_INTERSECTION :: infix_at OP_COMPLEMENT b)).
    { intros rest rpn stack Hshelf.
      destruct (IHa OP_INTERSECTION Hopa (or_intror (or_introl eq_refl))
                  (OP_INTERSECTION :: infix_at OP_COMPLEMENT b ++ rest)
                  rpn stack Hshelf)
        as (outa & penda & Hruna & Houta & Hpenda).
      assert (Hshelf' : shelf_ok OP_COMPLEMENT (OP_INTERSECTION :: stack)).
      { split; [|now left]. constructor; [now auto|apply Hshelf]. }
      destruct (IHb OP_COMPLEMENT Hopb (or_intror (or_intror eq_refl))
                  rest (rpn ++ postfix_of a) _ Hshelf')
        as (outb & pendb & Hrunb & Houtb & Hpendb).
      exists (postfix_of a ++ outb), (pendb ++ [OP_INTERSECTION]).
      repeat split.
      - rewrite <- app_assoc. cbn [app]. rewrite Hruna.
        rewrite rpn_loop_operator by lia.
        rewrite pop_operators_all.
        + rewrite pop_operators_blocked.
          * cbn [fst snd]. rewrite <- app_assoc, Houta, Hrunb.
            now rewrite <- !app_assoc.
          * lia.
          * destruct Hshelf as [_ [E|Hhead]]; [lia|exact Hhead].
        + lia.
        + eapply Forall_impl; [|exact Hpenda]. cbn. intros op [Hop Hl].
          split; [|exact Hl]. destruct Hop as [E|[E|E]]; lia.
      - cbn [postfix_of]. rewrite <- Houtb. now rewrite <- !app_assoc.
      - apply Forall_app. split.
        + eapply pending_ok_weaken; [|exact Hpendb]. lia.
        + constructor; [|constructor]. split; [now auto|lia]. }
    cbn [infix_at precedence].
    destruct (Z.ltb_spec OP_INTERSECTION level).
    + apply (compiled_in_parens cell_id OP_INTERSECTION level
               (Intersection a b)); [reflexivity|exact Hbody].
    + intros rest rpn stack Hshelf.
      assert (Hshelf' : shelf_ok OP_INTERSECTION stack)
        by (apply (shelf_ok_weaken level); [lia|lia|assumption]).
      destruct (Hbody rest rpn stack Hshelf')
        as (out & pending & Hrun & Hout & Hpend).
      exists out, pending. repeat split; try assumption.
      eapply pending_ok_weaken; [|exact Hpend]. lia.
  - (* union *)
    destruct Hops as [Hopa Hopb].
    assert (Hbody : compiled_at cell_id OP_UNION (Union a b)
                      (infix_at OP_UNION a
                         ++ OP_UNION :: infix_at OP_INTERSECTION b)).
    { intros rest rpn stack Hshelf.
      destruct (IHa OP_UNION Hopa (or_introl eq_refl)
                  (OP_UNION :: infix_at OP_INTERSECTION b ++ rest)
                  rpn stack Hshelf)
        as (outa & penda & Hruna & Houta & Hpenda).
      assert (Hshelf' : shelf_ok OP_INTERSECTION (OP_UNION :: stack)).
      { split; [constructor; [now auto|apply Hshelf]|]. right. right. lia. }
      destruct (IHb OP_INTERSECTION Hopb (or_intror (or_introl eq_refl))
                  rest (rpn ++ postfix_of a) _ Hshelf')
        as (outb & pendb & Hrunb & Houtb & Hpendb).
      exists (postfix_of a ++ outb), (pendb ++ [OP_UNION]).
      repeat split.
      - rewrite <- app_assoc. cbn [app]. rewrite Hruna.
        rewrite rpn_loop_operator by lia.
        rewrite pop_operators_all.
        + rewrite pop_operators_blocked.
          * cbn [fst snd]. rewrite <- app_assoc, Houta, Hrunb.
            now rewrite <- !app_assoc.
          * lia.
          * destruct Hshelf as [_ [E|Hhead]]; [lia|exact Hhead].
        + lia.
        + eapply Forall_impl; [|exact Hpenda]. cbn. intros op [Hop Hl].
          split; [|exact Hl]. destruct Hop as [E|[E|E]]; lia.
      - cbn [postfix_of]. rewrite <- Houtb. now rewrite <- !app_assoc.
      - apply Forall_app. split.
        + eapply pending_ok_weaken; [|exact Hpendb]. lia.
        + constructor; [|constructor]. split; [now auto|lia]. }
    cbn [infix_at precedence].
    destruct (Z.ltb_spec OP_UNION level).
    + apply (compiled_in_parens cell_id OP_UNION level (Union a b));
        [reflexivity|exact Hbody].
    + replace level with OP_UNION by lia. exact Hbody.
Qed.

Lemma generate_rpn_infix_of (cell_id : Z) (e : region_expr) :
  operands_ok e ->
  generate_rpn cell_id (infix_of e) = Ok (postfix_of e).
Proof.
  intros Hops.
  destruct (rpn_loop_expr cell_id e OP_UNION Hops (or_introl eq_refl)
              [] [] [])
    as (out & pending & Hrun & Hout & Hpend).
  { split; [constructor|]. now right. }
  unfold generate_rpn, infix_of.
  rewrite app_nil_r in Hrun. rewrite Hrun. cbn [rpn_loop bind app].
  rewrite app_nil_r.
  rewrite (drain_stack_pending cell_id OP_UNION) by assumption.
  now rewrite Hout.
Qed.


Lemma stack_depth_postfix :
  forall (e : region_expr) (rest : list Z) (depth : nat),
    operands_ok e ->
    stack_depth (postfix_of e ++ rest) depth = stack_depth rest (S depth).
Proof.
  pose proof Hc as Hord. unfold codes_ordered in Hord.
  induction e as [s|a IHa|a IHa|a IHa b IHb|a IHa b IHb];
    intros rest depth Hops; cbn [postfix_of operands_ok] in *.
  - cbn [app stack_depth]. now rewrite (proj2 (Z.ltb_lt _ _) Hops).
  - now apply IHa.
  - rewrite <- app_assoc, IHa by assumption. cbn [app stack_depth].
    destruct (Z.ltb_spec OP_COMPLEMENT OP_UNION); [lia|].
    destruct (Z.eqb_spec OP_COMPLEMENT OP_UNION); [lia|].
    destruct (Z.eqb_spec OP_COMPLEMENT OP_INTERSECTION); [lia|].
    cbn [orb]. now rewrite Z.eqb_refl.
  - destruct Hops as [Ha Hb].
    rewrite <- !app_assoc, IHa, IHb by assumption. cbn [app stack_depth].
    destruct (Z.ltb_spec OP_INTERSECTION OP_UNION); [lia|].
    now rewrite Z.eqb_refl, orb_true_r.
  - destruct Hops as [Ha Hb].
    rewrite <- !app_assoc, IHa, IHb by assumption. cbn [app stack_depth].
    rewrite Z.ltb_irrefl. now rewrite Z.eqb_refl.
Qed.

Lemma postfix_of_nonempty (e : region_expr) : postfix_of e <> [].
Proof.
  induction e; cbn [postfix_of]; try assumption; try discriminate;
    intros E; apply app_eq_nil in E as [_ E];
    try (apply app_eq_nil in E as [_ E]); discriminate.
Qed.

End ExprCompile.

(** The compiler is correct on the region grammar: for every region
    expression whose half-spaces are operand tokens, the infix tokens of
    the expression (union below intersection below complement, binary
    operators associating to the left, parentheses where the precedence
    asks for them or where the user put them) compile to the
    expression's postorder, a well-formed postfix form. *)
Theorem generate_rpn_postorder `{OpCodes} (cell_id : Z) (e : region_expr) :
  codes_ordered ->
  operands_ok e ->
  generate_rpn cell_id (infix_of e) = Ok (postfix_of e) /\
  well_formed_rpn (postfix_of e) = true.
Proof.
  intros Hc Hops. split; [now apply generate_rpn_infix_of|].
  unfold well_formed_rpn.
  pose proof (postfix_of_nonempty e) as Hne.
  pose proof (stack_depth_postfix Hc e [] 0 Hops) as Hdepth.
  rewrite app_nil_r in Hdepth.
  destruct (postfix_of e); [congruence|]. now rewrite Hdepth.
Qed.


Section ExprMeaning.
Context `{OpCodes} `{Doubles}.
Hypothesis Hc : codes_ordered.
Variable global_surfaces : Z -> Surface.
Variables (r : Position) (u : Direction) (on_surface : Z).

#[local] Abbreviation holds' := (holds global_surfaces r u on_surface).
#[local] Abbreviation loop' := (complex_loop global_surfaces r u on_surface).
#[local] Abbreviation step' := (complex_step global_surfaces r u on_surface).

Lemma complex_step_union (a b : bool) (below : list bool) :
  step' (b :: a :: below) OP_UNION = Ok ((a || b) :: below).
Proof. unfold complex_step. now rewrite Z.eqb_refl. Qed.

Lemma complex_step_complement (b : bool) (below : list bool) :
  step' (b :: below) OP_COMPLEMENT = Ok (negb b :: below).
Proof.
  unfold codes_ordered in Hc. unfold complex_step.
  destruct (Z.eqb_spec OP_COMPLEMENT OP_UNION); [lia|].
  destruct (Z.eqb_spec OP_COMPLEMENT OP_INTERSECTION); [lia|].
  now rewrite Z.eqb_refl.
Qed.

(** The stack evaluator on the postorder of an expression pushes the
    expression's value. *)
Lemma complex_loop_expr :
  forall (e : region_expr) (rest : list Z) (stack : list bool),
    operands_ok e ->
    loop' (postfix_of e ++ rest) stack = loop' rest (holds' e :: stack).
Proof.
  induction e as [s|a IHa|a IHa|a IHa b IHb|a IHa b IHb];
    intros rest stack Hops; cbn [postfix_of holds operands_ok] in *.
  - cbn [app complex_loop].
    now rewrite (complex_step_operand Hc) by assumption.
  - now apply IHa.
  - rewrite <- app_assoc, IHa by assumption.
    cbn [app complex_loop]. now rewrite complex_step_complement.
  - destruct Hops as [Ha Hb].
    rewrite <- !app_assoc, IHa, IHb by assumption.
    cbn [app complex_loop]. now rewrite (complex_step_intersection Hc).
  - destruct Hops as [Ha Hb].
    rewrite <- !app_assoc, IHa, IHb by assumption.
    cbn [app complex_loop]. now rewrite complex_step_union.
Qed.

Lemma contains_complex_rpn_expr (e : region_expr) :
  operands_ok e ->
  contains_complex_rpn global_surfaces r u on_surface (postfix_of e)
  = Ok (holds' e).
Proof.
  intros Hops. unfold contains_complex_rpn.
  rewrite <- (app_nil_r (postfix_of e)), complex_loop_expr by assumption.
  reflexivity.
Qed.

Lemma contains_simple_rpn_expr :
  forall e : region_expr,
    operands_ok e -> conjunctive e = true ->
    contains_simple_rpn global_surfaces r u on_surface (postfix_of e)
    = holds' e.
Proof.
  unfold codes_ordered in Hc.
  induction e as [s|a IHa|a IHa|a IHa b IHb|a IHa b IHb];
    intros Hops Hconj; cbn [postfix_of holds operands_ok conjunctive] in *;
    try discriminate.
  - rewrite contains_simple_rpn_operand by assumption.
    cbn. now rewrite andb_true_r.
  - now apply IHa.
  - destruct Hops as [Ha Hb]. apply andb_prop in Hconj as [Hca Hcb].
    rewrite !contains_simple_rpn_app, IHa, IHb by assumption.
    rewrite contains_simple_rpn_operator by lia.
    cbn. now rewrite andb_true_r.
Qed.

End ExprMeaning.

Section ExprSimple.
Context `{OpCodes}.
Hypothesis Hc : codes_ordered.

Lemma is_simple_app (pre post : list Z) :
  is_simple (pre ++ post) = is_simple pre && is_simple post.
Proof.
  induction pre as [|t pre IH]; [reflexivity|].
  cbn [app is_simple]. now destruct (_ || _).
Qed.

Lemma is_simple_postfix :
  forall e : region_expr,
    operands_ok e -> is_simple (postfix_of e) = conjunctive e.
Proof.
  unfold codes_ordered in Hc.
  induction e as [s|a IHa|a IHa|a IHa b IHb|a IHa b IHb];
    intros Hops; cbn [postfix_of operands_ok conjunctive] in *.
  - cbn [is_simple].
    destruct (Z.eqb_spec s OP_COMPLEMENT); [lia|].
    destruct (Z.eqb_spec s OP_UNION); [lia|]. reflexivity.
  - now apply IHa.
  - rewrite is_simple_app. cbn [is_simple].
    rewrite Z.eqb_refl. cbn. now rewrite andb_false_r.
  - destruct Hops as [Ha Hb].
    rewrite !is_simple_app, IHa, IHb by assumption. cbn [is_simple].
    destruct (Z.eqb_spec OP_INTERSECTION OP_COMPLEMENT); [lia|].
    destruct (Z.eqb_spec OP_INTERSECTION OP_UNION); [lia|].
    cbn. now rewrite andb_true_r.
  - rewrite !is_simple_app. cbn [is_simple].
    rewrite Z.eqb_refl, orb_true_r. now rewrite !andb_false_r.
Qed.

End ExprSimple.

Section ExprBinding.
Context `{OpCodes}.
Hypothesis Hc : codes_ordered.
Variable surface_map : Z -> Z.

Lemma bind_surface_operator (token : Z) :
  OP_UNION <= token -> bind_surface surface_map token = token.
Proof.
  intros Hop. unfold bind_surface.
  now rewrite (proj2 (Z.ltb_ge _ _) Hop).
Qed.

Lemma map_bind_infix :
  forall (e : region_expr) (level : Z),
    map (bind_surface surface_map) (infix_at level e)
    = infix_at level (bind_expr surface_map e).
Proof.
  unfold codes_ordered in Hc.
  assert (Hl : bind_surface surface_map OP_LEFT_PAREN = OP_LEFT_PAREN)
    by (apply bind_surface_operator; lia).
  assert (Hr : bind_surface surface_map OP_RIGHT_PAREN = OP_RIGHT_PAREN)
    by (apply bind_surface_operator; lia).
  assert (Hn : bind_surface surface_map OP_COMPLEMENT = OP_COMPLEMENT)
    by (apply bind_surface_operator; lia).
  assert (Hi : bind_surface surface_map OP_INTERSECTION = OP_INTERSECTION)
    by (apply bind_surface_operator; lia).
  assert (Hu : bind_surface surface_map OP_UNION = OP_UNION)
    by (apply bind_surface_operator; lia).
  induction e as [s|a IHa|a IHa|a IHa b IHb|a IHa b IHb]; intros level;
    cbn [infix_at bind_expr precedence];
    destruct (_ <? level);
    cbn [map app]; rewrite ?map_app; cbn [map];
    rewrite ?map_app; cbn [map];
    rewrite ?Hl, ?Hr, ?Hn, ?Hi, ?Hu, ?IHa, ?IHb; reflexivity.
Qed.

End ExprBinding.

Section ExprCells.
Context `{OpCodes} `{Doubles}.
Variable global_surfaces : Z -> Surface.
Variables (r : Position) (u : Direction) (on_surface : Z).

Lemma contains_postfix_of (e : region_expr) :
  codes_ordered ->
  operands_ok e ->
  (if is_simple (postfix_of e)
   then Ok (contains_simple_rpn global_surfaces r u on_surface (postfix_of e))
   else contains_complex_rpn global_surfaces r u on_surface (postfix_of e))
  = Ok (holds global_surfaces r u on_surface e).
Proof.
  intros Hc Hops. rewrite (is_simple_postfix Hc) by assumption.
  destruct (conjunctive e) eqn:Hconj.
  - now rewrite (contains_simple_rpn_expr Hc).
  - now apply contains_complex_rpn_expr.
Qed.

(** A cell whose postfix form is the postorder of a region expression,
    with the simple flag the constructor computes, contains a point
    exactly when the boolean expression holds there, half-spaces decided
    by the three-case rule; neither evaluator reads outside its stack. *)
Theorem contains_region_expr (c : Cell) (e : region_expr) :
  codes_ordered ->
  operands_ok e ->
  rpn c = postfix_of e ->
  simple c = is_simple (rpn c) ->
  contains global_surfaces r u on_surface c
  = Ok (holds global_surfaces r u on_surface e).
Proof.
  intros Hc Hops Hrpn Hsimple.
  unfold contains, contains_simple, contains_complex.
  rewrite Hsimple, Hrpn. now apply contains_postfix_of.
Qed.

(** From the region string to the containment test: when the string
    tokenizes to the infix form of an expression, the constructed cell
    stores the bound infix form and its postorder, is simple exactly
    when the expression is a pure intersection, and contains a point
    exactly when the bound expression holds there. *)
Theorem constructed_region_meaning (surface_map : Z -> Z)
    (region_spec : string) (e : region_expr) (c : Cell) :
  codes_ordered ->
  tokenize region_spec = Ok (infix_of e) ->
  operands_ok (bind_expr surface_map e) ->
  constructed surface_map region_spec c ->
  region c = infix_of (bind_expr surface_map e) /\
  rpn c = postfix_of (bind_expr surface_map e) /\
  simple c = conjunctive e /\
  contains global_surfaces r u on_surface c
  = Ok (holds global_surfaces r u on_surface (bind_expr surface_map e)).
Proof.
  intros Hc Htok Hops Hcons.
  unfold constructed, compile_region in Hcons.
  rewrite Htok in Hcons. cbn [bind] in Hcons.
  unfold infix_of in Hcons. rewrite (map_bind_infix Hc) in Hcons.
  fold (infix_of (bind_expr surface_map e)) in Hcons.
  rewrite (generate_rpn_infix_of Hc) in Hcons by assumption.
  cbn [bind] in Hcons. inversion Hcons as [[Hregion Hrpn Hsimple]].
  assert (Hconj : conjunctive (bind_expr surface_map e) = conjunctive e).
  { clear. induction e; cbn; congruence. }
  repeat split.
  - rewrite (is_simple_postfix Hc) by assumption. exact Hconj.
  - unfold contains, contains_simple, contains_complex.
    rewrite <- Hsimple, <- Hrpn. now apply contains_postfix_of.
Qed.

End ExprCells.

(** C2.  Let [s] be an operand of a cell: a nonzero token below
    [OP_UNION].  With [on_surface = s] both evaluators decide the operand
    satisfied: the simple path passes over it and the stack evaluator
    pushes [true].  With [on_surface = - s] they decide it unsatisfied:
    the simple path returns [false] and the stack evaluator pushes
    [false].  In both cases [contains] does not depend on the sense the
    surface of [s] reports.  With [on_surface = 0] the operand is decided
    by the sense of its surface compared with its sign.  These decisions
    are what [contains] returns: the simple path is the conjunction of
    the decisions of the operands; a cell compiled from a region
    expression contains the point exactly when the expression holds with
    its half-spaces so decided; the cell of the single operand [s]
    contains the point with [on_surface = s], does not with
    [on_surface = - s], and with [on_surface = 0] does exactly when the
    sense agrees with the sign; and a simple cell with the operand [s]
    does not contain a point with [on_surface = - s]. *)
Theorem contains_on_surface_override `{OpCodes} `{Doubles}
  (surfaces : Z -> Surface) (r : Position) (u : Direction) (s : Z) :
  codes_ordered -> s <> 0 -> s < OP_UNION ->
  (forall pre post,
      contains_simple_rpn surfaces r u s (pre ++ s :: post)
      = contains_simple_rpn surfaces r u s (pre ++ post)) /\
  (forall stack, complex_step surfaces r u s stack s = Ok (true :: stack)) /\
  (forall pre post,
      contains_simple_rpn surfaces r u (- s) (pre ++ s :: post) = false) /\
  (forall stack,
      complex_step surfaces r u (- s) stack s = Ok (false :: stack)) /\
  (forall surfaces' c,
      (forall k, k <> Z.abs s - 1 ->
                 sense (surfaces k) r u = sense (surfaces' k) r u) ->
      contains surfaces r u s c = contains surfaces' r u s c /\
      contains surfaces r u (- s) c = contains surfaces' r u (- s) c) /\
  (forall stack,
      complex_step surfaces r u 0 stack s
      = Ok (Bool.eqb (sense (surfaces (Z.abs s - 1)) r u) (0 <? s) :: stack)) /\
  (forall rest,
      contains_simple_rpn surfaces r u 0 (s :: rest)
      = Bool.eqb (sense (surfaces (Z.abs s - 1)) r u) (0 <? s)
        && contains_simple_rpn surfaces r u 0 rest) /\
  (operand_decision surfaces r u s s = true /\
   operand_decision surfaces r u (- s) s = false /\
   operand_decision surfaces r u 0 s
   = Bool.eqb (sense (surfaces (Z.abs s - 1)) r u) (0 <? s)) /\
  (forall on_surface tokens,
      contains_simple_rpn surfaces r u on_surface tokens
      = forallb (operand_decision surfaces r u on_surface)
          (filter (fun t => t <? OP_UNION) tokens)) /\
  (forall on_surface e c,
      operands_ok e ->
      rpn c = postfix_of e ->
      simple c = is_simple (rpn c) ->
      contains surfaces r u on_surface c
      = Ok (holds surfaces r u on_surface e)) /\
  (forall c,
      rpn c = [s] ->
      contains surfaces r u s c = Ok true /\
      contains surfaces r u (- s) c = Ok false /\
      contains surfaces r u 0 c
      = Ok (Bool.eqb (sense (surfaces (Z.abs s - 1)) r u) (0 <? s))) /\
  (forall c,
      simple c = true -> In s (rpn c) ->
      contains surfaces r u (- s) c = Ok false).
Proof.
  intros Hc Hs Hop.
  split; [|split; [|split; [|split; [|split; [|split; [|split;
    [|split; [|split; [|split; [|split]]]]]]]]]].
  - intros pre post.
    rewrite !contains_simple_rpn_app, contains_simple_rpn_operand by exact Hop.
    now rewrite operand_decision_on.
  - intros stack. rewrite complex_step_operand by assumption.
    now rewrite operand_decision_on.
  - intros pre post.
    rewrite contains_simple_rpn_app, contains_simple_rpn_operand by exact Hop.
    rewrite operand_decision_opposite by exact Hs. apply andb_false_r.
  - intros stack. rewrite complex_step_operand by assumption.
    now rewrite operand_decision_opposite.
  - intros surfaces' c Hagree. split.
    + apply contains_independent.
      apply operand_decision_independent with (s := s);
        [assumption|now left].
    + apply contains_independent.
      apply operand_decision_independent with (s := s);
        [assumption|now right].
  - intros stack. rewrite complex_step_operand by assumption.
    now rewrite operand_decision_off.
  - intros rest. rewrite contains_simple_rpn_operand by exact Hop.
    now rewrite operand_decision_off.
  - split; [apply operand_decision_on|].
    split; [now apply operand_decision_opposite|].
    now apply operand_decision_off.
  - intros on_surface tokens. apply contains_simple_rpn_decisions.
  - intros on_surface e c Hops Hrpn Hsimple.
    unfold contains, contains_simple, contains_complex.
    rewrite Hsimple, Hrpn. now apply contains_postfix_of.
  - intros c Hrpn.
    rewrite !(contains_single_operand r u surfaces _ c s Hc Hop Hrpn).
    rewrite operand_decision_on, operand_decision_opposite by exact Hs.
    rewrite operand_decision_off by exact Hs.
    repeat split; reflexivity.
  - intros c Hsimple Hin. now apply contains_simple_opposite.
Qed.

(** Witness of C2: the cell of the region "1", at a point on the
    negative side of surface 1.  On the surface with its orientation
    the point is in the cell, with the opposite one it is not, and with
    no override the sense decides. *)
Lemma contains_on_surface_override_witness :
  @contains top_codes binary64_doubles negative_surfaces origin heading
    1 cell_8 = Ok true /\
  @contains top_codes binary64_doubles negative_surfaces origin heading
    (-1) cell_8 = Ok false /\
  @contains top_codes binary64_doubles negative_surfaces origin heading
    0 cell_8 = Ok false.
Proof.
  pose proof (@contains_on_surface_override top_codes binary64_doubles
                negative_surfaces origin heading 1 top_codes_ordered)
    as Hthm.
  destruct Hthm as (_ & _ & _ & _ & _ & _ & _ & _ & _ & _ & Hcell & _);
    [discriminate|reflexivity|].
  exact (Hcell cell_8 eq_refl).
Defined.


Example sample_region_tokens :
  @tokenize top_codes "1 -2 | ~(3 4)" = Ok (@infix_of top_codes sample_region) /\
  @infix_of top_codes sample_region = region cell_9 /\
  @postfix_of top_codes sample_region = rpn cell_9.
Proof. repeat split; reflexivity. Qed.

Lemma generate_rpn_postorder_witness :
  @generate_rpn top_codes 9 (@infix_of top_codes sample_region)
  = Ok (@postfix_of top_codes sample_region) /\
  @well_formed_rpn top_codes (@postfix_of top_codes sample_region) = true.
Proof.
  apply (@generate_rpn_postorder top_codes 9 sample_region top_codes_ordered).
  repeat split; reflexivity.
Defined.

Lemma contains_region_expr_witness :
  @contains top_codes binary64_doubles negative_surfaces origin heading 0
    cell_9
  = Ok (@holds binary64_doubles negative_surfaces origin heading 0
          sample_region).
Proof.
  apply (@contains_region_expr top_codes binary64_doubles negative_surfaces
           origin heading 0 cell_9 sample_region top_codes_ordered).
  - repeat split; reflexivity.
  - reflexivity.
  - reflexivity.
Defined.

Lemma constructed_region_meaning_witness :
  simple cell_9 = false /\
  @contains top_codes binary64_doubles negative_surfaces origin heading 0
    cell_9
  = Ok true.
Proof.
  destruct (@constructed_region_meaning top_codes binary64_doubles
              negative_surfaces origin heading 0 (fun k => k - 1)
              "1 -2 | ~(3 4)" sample_region cell_9 top_codes_ordered
              eq_refl)
    as (_ & _ & Hsimple & Hcontains).
  - repeat split; reflexivity.
  - reflexivity.
  - split; [exact Hsimple|exact Hcontains].
Defined.

Example stream_magnitude_samples :
  map stream_magnitude [0; 7; 42; 999999; 1000000; 1234567; 9999995;
                        2147483647; 1234565; 1234575; 2147483648]
  = map list_ascii_of_string
      ["0"; "7"; "42"; "999999"; "1e+06"; "1.23457e+06"; "1e+07";
       "2.14748e+09"; "1.23456e+06"; "1.23458e+06"; "2.14748e+09"]%string.
Proof. vm_compute. reflexivity. Qed.

Section DigitFacts.

Lemma digit_char_spec (d : Z) :
  0 <= d < 10 ->
  isdigit (digit_char d) = true /\ digit_value (digit_char d) = d.
Proof.
  intros Hd.
  assert (Hcases : d = 0 \/ d = 1 \/ d = 2 \/ d = 3 \/ d = 4 \/ d = 5 \/
                   d = 6 \/ d = 7 \/ d = 8 \/ d = 9) by lia.
  repeat (destruct Hcases as [->|Hcases]; [split; reflexivity|]).
  subst d. split; reflexivity.
Qed.

Lemma decimal_snoc (ds : list ascii) (c : ascii) :
  decimal (ds ++ [c]) = 10 * decimal ds + digit_value c.
Proof. unfold decimal. now rewrite fold_left_app. Qed.

Lemma digits_of_spec :
  forall (fuel : nat) (n : Z),
    (0 < fuel)%nat -> 0 <= n < 10 ^ Z.of_nat fuel ->
    forallb isdigit (digits_of fuel n) = true /\
    decimal (digits_of fuel n) = n /\
    digits_of fuel n <> [].
Proof.
  induction fuel as [|fuel IH]; intros n Hfuel Hn; [lia|].
  cbn [digits_of]. destruct (Z.ltb_spec n 10) as [Hsmall|Hbig].
  - destruct (digit_char_spec n ltac:(lia)) as [Hd Hv].
    repeat split; [cbn; now rewrite Hd|unfold decimal; cbn; lia|discriminate].
  - rewrite Nat2Z.inj_succ, Z.pow_succ_r in Hn by lia.
    assert (Hq : 0 <= n / 10 < 10 ^ Z.of_nat fuel).
    { split; [apply Z.div_pos; lia|apply Z.div_lt_upper_bound; lia]. }
    assert (Hpos : (0 < fuel)%nat).
    { destruct fuel; [|lia]. cbn in Hq. assert (1 <= n / 10); [|lia].
      apply Z.div_le_lower_bound; lia. }
    destruct (IH (n / 10) Hpos Hq) as (Hall & Hdec & Hne).
    destruct (digit_char_spec (n mod 10)) as [Hd Hv];
      [apply Z.mod_pos_bound; lia|].
    repeat split.
    + rewrite forallb_app, Hall. cbn. now rewrite Hd.
    + rewrite decimal_snoc, Hdec, Hv.
      pose proof (Z.div_mod n 10 ltac:(lia)). lia.
    + intros E. now apply app_eq_nil in E as [_ E].
Qed.

Lemma decimal_digits_spec (n : Z) :
  0 <= n ->
  forallb isdigit (decimal_digits n) = true /\
  decimal (decimal_digits n) = n /\
  decimal_digits n <> [].
Proof.
  intros Hn. unfold decimal_digits. apply digits_of_spec; [lia|].
  split; [exact Hn|].
  rewrite Nat2Z.inj_succ, Z2Nat.id by apply Z.log2_nonneg.
  destruct (Z.eq_dec n 0) as [->|Hne]; [reflexivity|].
  apply Z.lt_le_trans with (2 ^ Z.succ (Z.log2 n)).
  - apply Z.log2_spec. lia.
  - apply Z.pow_le_mono_l. split; [lia|lia].
Qed.

Lemma unsigned_literal (ds : list ascii) :
  ds <> [] -> forallb isdigit ds = true ->
  is_literal ds = true /\ literal_value ds = decimal ds.
Proof.
  destruct ds as [|c ds]; [congruence|]. intros _.
  unfold is_literal, literal_value.
  destruct c as [[] [] [] [] [] [] [] []];
    cbn -[forallb Nat.eqb length decimal]; intros Hall;
    try discriminate Hall; split; (exact Hall || reflexivity).
Qed.

Lemma negative_literal (ds : list ascii) :
  ds <> [] -> forallb isdigit ds = true ->
  is_literal ("-"%char :: ds) = true /\
  literal_value ("-"%char :: ds) = - decimal ds.
Proof.
  intros Hne Hall. split; [|reflexivity].
  cbn -[forallb]. rewrite Hall.
  destruct ds; [congruence|reflexivity].
Qed.

Lemma stream_copysign_literal (id_ token : Z) :
  Z.abs id_ < 10 ^ 6 ->
  is_literal (stream_copysign id_ token) = true /\
  literal_value (stream_copysign id_ token)
  = (if token <? 0 then - Z.abs id_ else Z.abs id_).
Proof.
  intros Hsmall. unfold stream_copysign, stream_magnitude.
  rewrite (proj2 (Z.ltb_lt _ _) Hsmall).
  destruct (decimal_digits_spec (Z.abs id_) (Z.abs_nonneg _))
    as (Hall & Hdec & Hne).
  destruct (token <? 0); cbn [app].
  - destruct (negative_literal _ Hne Hall) as [Hl Hv].
    split; [exact Hl|]. now rewrite Hv, Hdec.
  - destruct (unsigned_literal _ Hne Hall) as [Hl Hv].
    split; [exact Hl|]. now rewrite Hv, Hdec.
Qed.

End DigitFacts.

Section ReadBack.
Context `{OpCodes}.
Hypothesis Hc : codes_ordered.
Variable surface_id : Z -> Z.

#[local] Abbreviation text_of := (token_text surface_id).
#[local] Abbreviation users := (user_token surface_id).

Lemma scan_tokens_operator (c : ascii) (code : Z) (rest : list ascii)
    (tokens : list Z) (fuel : nat) :
  (c = "("%char /\ code = OP_LEFT_PAREN) \/
  (c = ")"%char /\ code = OP_RIGHT_PAREN) \/
  (c = "|"%char /\ code = OP_UNION) \/
  (c = "~"%char /\ code = OP_COMPLEMENT) ->
  (length (c :: rest) <= fuel)%nat ->
  scan_tokens fuel (c :: rest) tokens
  = scan_tokens fuel rest (tokens ++ [code]).
Proof.
  intros Hcase Hfuel.
  destruct fuel as [|fuel]; [cbn in Hfuel; lia|].
  cbn [length] in Hfuel.
  transitivity (scan_tokens fuel rest (tokens ++ [code]));
    [|apply scan_tokens_fuel; lia].
  destruct Hcase as [[-> ->]|[[-> ->]|[[-> ->]|[-> ->]]]]; reflexivity.
Qed.

Lemma token_text_head (token : Z) :
  text_of token = [] \/ exists tl, text_of token = " "%char :: tl.
Proof.
  unfold token_text.
  repeat match goal with
         | |- context [if ?b then _ else _] => destruct b
         end; eauto.
Qed.

Lemma region_text_no_leading_digit (region : list Z) (rest : list ascii) :
  no_leading_digit rest ->
  no_leading_digit (flat_map text_of region ++ rest).
Proof.
  intros Hrest. induction region as [|t region IH]; [exact Hrest|].
  cbn [flat_map]. rewrite <- app_assoc.
  destruct (token_text_head t) as [->|[tl ->]]; [exact IH|reflexivity].
Qed.

Lemma user_token_operator (token : Z) :
  OP_UNION <= token -> users token = token.
Proof.
  intros Hop. unfold user_token. now rewrite (proj2 (Z.ltb_ge _ _) Hop).
Qed.

(** The first pass of the tokenizer on the text of one token. *)
Lemma scan_token_text (token : Z) (rest : list ascii) (tokens : list Z)
    (fuel : nat) :
  readable surface_id token ->
  no_leading_digit rest ->
  (length (text_of token ++ rest) <= fuel)%nat ->
  scan_tokens fuel (text_of token ++ rest) tokens
  = scan_tokens fuel rest
      (tokens ++ if token =? OP_INTERSECTION then [] else [users token]).
Proof.
  pose proof Hc as Hord. unfold codes_ordered in Hord.
  intros Hread Hrest Hfuel.
  assert (Hspace : forall tl,
             (length (" "%char :: tl) <= fuel)%nat ->
             scan_tokens fuel (" "%char :: tl) tokens
             = scan_tokens fuel tl tokens).
  { intros tl Hlen.
    now apply (scan_tokens_space [" "%char] tl tokens fuel eq_refl). }
  unfold token_text in *.
  destruct (Z.eqb_spec token OP_LEFT_PAREN) as [->|N1].
  { destruct (Z.eqb_spec OP_LEFT_PAREN OP_INTERSECTION); [lia|].
    rewrite user_token_operator by lia. cbn [app] in *.
    rewrite Hspace by exact Hfuel.
    apply scan_tokens_operator; [now left|]. cbn [length] in *. lia. }
  destruct (Z.eqb_spec token OP_RIGHT_PAREN) as [->|N2].
  { destruct (Z.eqb_spec OP_RIGHT_PAREN OP_INTERSECTION); [lia|].
    rewrite user_token_operator by lia. cbn [app] in *.
    rewrite Hspace by exact Hfuel.
    apply scan_tokens_operator; [now right; left|]. cbn [length] in *. lia. }
  destruct (Z.eqb_spec token OP_COMPLEMENT) as [->|N3].
  { destruct (Z.eqb_spec OP_COMPLEMENT OP_INTERSECTION); [lia|].
    rewrite user_token_operator by lia. cbn [app] in *.
    rewrite Hspace by exact Hfuel.
    apply scan_tokens_operator; [now right; right; right|].
    cbn [length] in *. lia. }
  destruct (Z.eqb_spec token OP_INTERSECTION) as [->|N4].
  { cbn [app]. now rewrite app_nil_r. }
  destruct (Z.eqb_spec token OP_UNION) as [->|N5].
  { rewrite user_token_operator by lia. cbn [app] in *.
    rewrite Hspace by exact Hfuel.
    apply scan_tokens_operator; [now right; right; left|].
    cbn [length] in *. lia. }
  destruct Hread as [E|[E|[E|[E|[E|(Hop & Hsix & Hid)]]]]]; try contradiction.
  destruct (stream_copysign_literal
              (surface_id (Z.abs token - 1)) token Hsix) as [Hlit Hval].
  cbn [app] in *. rewrite Hspace by exact Hfuel.
  rewrite scan_tokens_literal; try assumption.
  - rewrite Hval. unfold user_token.
    now rewrite (proj2 (Z.ltb_lt _ _) Hop).
  - rewrite Hval. unfold INT_MIN, INT_MAX.
    destruct (token <? 0); lia.
  - cbn [length] in Hfuel. lia.
Qed.

(** The first pass on the text of a region: the tokens with the surface
    ids back in place and the intersections left out. *)
Lemma scan_region_text_app :
  forall (region : list Z) (rest : list ascii) (tokens : list Z)
         (fuel : nat),
    Forall (readable surface_id) region ->
    no_leading_digit rest ->
    (length (flat_map text_of region ++ rest) <= fuel)%nat ->
    scan_tokens fuel (flat_map text_of region ++ rest) tokens
    = scan_tokens fuel rest
        (tokens ++ map users (without_intersections region)).
Proof.
  intros region.
  induction region as [|t region IH]; intros rest tokens fuel Hall Hrest Hfuel.
  - cbn. now rewrite app_nil_r.
  - inversion Hall as [|? ? Ht Hregion]; subst.
    cbn [flat_map] in *. rewrite <- app_assoc in *.
    rewrite scan_token_text; [|assumption| |assumption].
    + rewrite IH; [|assumption|assumption|rewrite length_app in Hfuel; lia].
      unfold without_intersections. cbn [filter].
      destruct (t =? OP_INTERSECTION); cbn [negb map].
      * now rewrite app_nil_r.
      * now rewrite <- app_assoc.
    + now apply region_text_no_leading_digit.
Qed.

Lemma scan_region_text :
  forall (region : list Z) (tokens : list Z) (fuel : nat),
    Forall (readable surface_id) region ->
    (length (flat_map text_of region) <= fuel)%nat ->
    scan_tokens fuel (flat_map text_of region) tokens
    = Ok (tokens ++ map users (without_intersections region)).
Proof.
  intros region tokens fuel Hall Hfuel.
  rewrite <- (app_nil_r (flat_map text_of region)) in *.
  rewrite scan_region_text_app by (assumption || exact I).
  now destruct fuel.
Qed.

Lemma user_token_compat (token : Z) :
  readable surface_id token ->
  left_compat (users token) = left_compat token /\
  right_compat (users token) = right_compat token.
Proof.
  pose proof Hc as Hord. unfold codes_ordered in Hord.
  intros Hread.
  destruct (Z.lt_ge_cases token OP_UNION) as [Hop|Hop];
    [|now rewrite user_token_operator].
  destruct Hread as [E|[E|[E|[E|[E|(_ & _ & Hid)]]]]]; try lia.
  assert (Hu : users token < OP_UNION).
  { unfold user_token. rewrite (proj2 (Z.ltb_lt _ _) Hop).
    destruct (token <? 0); lia. }
  unfold left_compat, right_compat.
  now rewrite (proj2 (Z.ltb_lt _ _) Hu), (proj2 (Z.ltb_lt _ _) Hop).
Qed.

Lemma with_intersections_pair (t t' : Z) (tokens : list Z) :
  with_intersections (t :: t' :: tokens)
  = if left_compat t && right_compat t'
    then t :: OP_INTERSECTION :: with_intersections (t' :: tokens)
    else t :: with_intersections (t' :: tokens).
Proof. reflexivity. Qed.

Lemma with_intersections_users :
  forall tokens : list Z,
    Forall (readable surface_id) tokens ->
    with_intersections (map users tokens)
    = map users (with_intersections tokens).
Proof.
  pose proof Hc as Hord. unfold codes_ordered in Hord.
  induction tokens as [|t tokens IH]; intros Hall; [reflexivity|].
  inversion Hall as [|? ? Ht Hrest]; subst.
  destruct tokens as [|t' tokens]; [reflexivity|].
  inversion Hrest as [|? ? Ht' _]; subst.
  change (map users (t :: t' :: tokens))
    with (users t :: users t' :: map users tokens).
  rewrite !with_intersections_pair.
  change (users t' :: map users tokens) with (map users (t' :: tokens)).
  rewrite (proj1 (user_token_compat t Ht)),
          (proj2 (user_token_compat t' Ht')).
  rewrite IH by assumption.
  destruct (left_compat t && right_compat t'); cbn [map]; [|reflexivity].
  now rewrite (user_token_operator OP_INTERSECTION) by lia.
Qed.

End ReadBack.

Lemma tokenize_region_text `{OpCodes} (surface_id : Z -> Z)
    (region : list Z) :
  codes_ordered ->
  region <> [] ->
  Forall (readable surface_id) region ->
  second_pass_form region ->
  tokenize (string_of_list_ascii (flat_map (token_text surface_id) region))
  = Ok (map (user_token surface_id) region).
Proof.
  intros Hc Hne Hall Hform.
  unfold tokenize. rewrite list_ascii_of_string_of_list_ascii.
  pose proof (scan_region_text Hc surface_id region []
                (length (flat_map (token_text surface_id) region))
                Hall (Nat.le_refl _)) as Hscan.
  cbn [app] in Hscan.
  unfold second_pass_form in Hform.
  assert (Hraw : Forall (readable surface_id)
                   (without_intersections region)).
  { apply Forall_forall. intros x Hx.
    apply filter_In in Hx as [Hx _].
    revert x Hx. now apply Forall_forall. }
  destruct (without_intersections region) as [|f raw] eqn:Eraw;
    [cbn in Hform; congruence|].
  destruct (flat_map (token_text surface_id) region) as [|c cs];
    [discriminate Hscan|].
  rewrite Hscan. cbn [bind map].
  rewrite (add_intersections_nonempty Hc).
  change (user_token surface_id f :: map (user_token surface_id) raw)
    with (map (user_token surface_id) (f :: raw)).
  rewrite (with_intersections_users Hc) by assumption.
  now rewrite Hform.
Qed.

Section OperandForm.
Context `{OpCodes}.
Hypothesis Hc : codes_ordered.

Lemma with_intersections_app (xs : list Z) (p q : Z) (ys : list Z) :
  with_intersections ((xs ++ [p]) ++ q :: ys)
  = with_intersections (xs ++ [p])
      ++ (if left_compat p && right_compat q then [OP_INTERSECTION] else [])
      ++ with_intersections (q :: ys).
Proof.
  induction xs as [|a xs IH].
  - cbn [app]. rewrite with_intersections_pair.
    now destruct (left_compat p && right_compat q).
  - destruct xs as [|b xs].
    + cbn [app] in *. rewrite !(with_intersections_pair a p), IH.
      now destruct (left_compat a && right_compat p).
    + cbn [app] in *. rewrite !(with_intersections_pair a b), IH.
      now destruct (left_compat a && right_compat b).
Qed.

Lemma without_intersections_app (a b : list Z) :
  without_intersections (a ++ b)
  = without_intersections a ++ without_intersections b.
Proof. apply filter_app. Qed.

Lemma without_intersections_keep (t : Z) (tokens : list Z) :
  t <> OP_INTERSECTION ->
  without_intersections (t :: tokens) = t :: without_intersections tokens.
Proof.
  intros Hne. unfold without_intersections. cbn [filter].
  now rewrite (proj2 (Z.eqb_neq _ _) Hne).
Qed.

Lemma without_intersections_drop (tokens : list Z) :
  without_intersections (OP_INTERSECTION :: tokens)
  = without_intersections tokens.
Proof.
  unfold without_intersections. cbn [filter]. now rewrite Z.eqb_refl.
Qed.

Lemma compat_of_codes :
  left_compat OP_LEFT_PAREN = false /\ right_compat OP_LEFT_PAREN = true /\
  left_compat OP_RIGHT_PAREN = true /\ right_compat OP_RIGHT_PAREN = false /\
  left_compat OP_COMPLEMENT = false /\ right_compat OP_COMPLEMENT = true /\
  left_compat OP_UNION = false /\ right_compat OP_UNION = false.
Proof.
  unfold codes_ordered in Hc. unfold left_compat, right_compat.
  repeat split;
    repeat match goal with
           | |- context [?a <? ?b] => destruct (Z.ltb_spec a b); try lia
           | |- context [?a =? ?b] => destruct (Z.eqb_spec a b); try lia
           end; reflexivity.
Qed.

Lemma operand_form_operand (s : Z) : s < OP_UNION -> operand_form [s].
Proof.
  unfold codes_ordered in Hc. intros Hop.
  assert (Hraw : without_intersections [s] = [s])
    by (apply without_intersections_keep; lia).
  unfold operand_form, second_pass_form. rewrite Hraw.
  repeat split.
  - exists s, []. split; [reflexivity|]. unfold right_compat.
    now rewrite (proj2 (Z.ltb_lt _ _) Hop).
  - exists [], s. split; [reflexivity|]. unfold left_compat.
    now rewrite (proj2 (Z.ltb_lt _ _) Hop).
Qed.

Lemma operand_form_parens (tokens : list Z) :
  operand_form tokens ->
  operand_form (OP_LEFT_PAREN :: tokens ++ [OP_RIGHT_PAREN]).
Proof.
  pose proof Hc as Hord. unfold codes_ordered in Hord.
  destruct compat_of_codes as (Ll & Lr & Rl & Rr & _).
  intros (Hform & (q & ys & Hq & Hrq) & (xs & p & Hp & Hlp)).
  assert (Hraw : without_intersections
                   (OP_LEFT_PAREN :: tokens ++ [OP_RIGHT_PAREN])
                 = OP_LEFT_PAREN
                     :: without_intersections tokens ++ [OP_RIGHT_PAREN]).
  { rewrite without_intersections_keep, without_intersections_app by lia.
    now rewrite (without_intersections_keep OP_RIGHT_PAREN) by lia. }
  unfold operand_form, second_pass_form in *. rewrite Hraw.
  repeat split.
  - rewrite Hq. cbn [app]. rewrite with_intersections_pair, Ll. cbn [andb].
    change (q :: ys ++ [OP_RIGHT_PAREN]) with ((q :: ys) ++ [OP_RIGHT_PAREN]).
    rewrite <- Hq, Hp, with_intersections_app, Rr, andb_false_r.
    rewrite <- Hp, Hform. reflexivity.
  - eexists _, _. split; [reflexivity|exact Lr].
  - exists (OP_LEFT_PAREN :: without_intersections tokens), OP_RIGHT_PAREN.
    split; [reflexivity|exact Rl].
Qed.

Lemma operand_form_complement (tokens : list Z) :
  operand_form tokens -> operand_form (OP_COMPLEMENT :: tokens).
Proof.
  pose proof Hc as Hord. unfold codes_ordered in Hord.
  destruct compat_of_codes as (_ & _ & _ & _ & Cl & Cr & _).
  intros (Hform & (q & ys & Hq & Hrq) & (xs & p & Hp & Hlp)).
  unfold operand_form, second_pass_form in *.
  rewrite without_intersections_keep by lia.
  repeat split.
  - rewrite Hq, with_intersections_pair, Cl. cbn [andb].
    now rewrite <- Hq, Hform.
  - eexists _, _. split; [reflexivity|exact Cr].
  - exists (OP_COMPLEMENT :: xs), p. split; [now rewrite Hp|exact Hlp].
Qed.

Lemma operand_form_intersection (a b : list Z) :
  operand_form a -> operand_form b ->
  operand_form (a ++ OP_INTERSECTION :: b).
Proof.
  intros (Hfa & (qa & ysa & Hqa & Hrqa) & (xsa & pa & Hpa & Hlpa))
         (Hfb & (qb & ysb & Hqb & Hrqb) & (xsb & pb & Hpb & Hlpb)).
  unfold operand_form, second_pass_form in *.
  rewrite without_intersections_app, without_intersections_drop.
  repeat split.
  - rewrite Hpa, Hqb, with_intersections_app, Hlpa, Hrqb. cbn [andb app].
    now rewrite <- Hpa, <- Hqb, Hfa, Hfb.
  - rewrite Hqa. eexists _, _. split; [reflexivity|exact Hrqa].
  - rewrite Hpb. exists (without_intersections a ++ xsb), pb.
    split; [now rewrite app_assoc|exact Hlpb].
Qed.

Lemma operand_form_union (a b : list Z) :
  operand_form a -> operand_form b ->
  operand_form (a ++ OP_UNION :: b).
Proof.
  pose proof Hc as Hord. unfold codes_ordered in Hord.
  destruct compat_of_codes as (_ & _ & _ & _ & _ & _ & Ul & Ur).
  intros (Hfa & (qa & ysa & Hqa & Hrqa) & (xsa & pa & Hpa & Hlpa))
         (Hfb & (qb & ysb & Hqb & Hrqb) & (xsb & pb & Hpb & Hlpb)).
  unfold operand_form, second_pass_form in *.
  rewrite without_intersections_app, without_intersections_keep by lia.
  repeat split.
  - rewrite Hpa, with_intersections_app, Ur, andb_false_r. cbn [app].
    rewrite Hqb, with_intersections_pair, Ul. cbn [andb].
    now rewrite <- Hpa, <- Hqb, Hfa, Hfb.
  - rewrite Hqa. eexists _, _. split; [reflexivity|exact Hrqa].
  - rewrite Hpb. exists (without_intersections a ++ OP_UNION :: xsb), pb.
    split; [now rewrite <- app_assoc|exact Hlpb].
Qed.

(** The infix form of an expression is what the second pass of the
    tokenizer makes of it without its intersections. *)
Lemma infix_at_operand_form :
  forall (e : region_expr) (level : Z),
    operands_ok e -> operand_form (infix_at level e).
Proof.
  induction e as [s|a IHa|a IHa|a IHa b IHb|a IHa b IHb];
    intros level Hops; cbn [infix_at operands_ok] in *;
    destruct (_ <? level);
    repeat first
      [ apply operand_form_parens
      | apply operand_form_complement
      | apply operand_form_intersection
      | apply operand_form_union
      | now apply operand_form_operand
      | now apply IHa
      | now apply IHb
      | apply IHa; tauto
      | apply IHb; tauto ].
Qed.

End OperandForm.

Section ExprText.
Context `{OpCodes}.
Hypothesis Hc : codes_ordered.
Hypothesis Hcodes : 10 ^ 6 <= OP_UNION.
Variables surface_map surface_id : Z -> Z.

Lemma bind_surface_known (s : Z) :
  s < OP_UNION -> Z.abs s < 10 ^ 6 ->
  surface_known surface_map surface_id s ->
  readable surface_id (bind_surface surface_map s) /\
  bind_surface surface_map s < OP_UNION /\
  user_token surface_id (bind_surface surface_map s) = s.
Proof.
  intros Hop Hsix (Hk & Hkop & Hid).
  assert (Hb : bind_surface surface_map s
               = if s <? 0 then - (surface_map (Z.abs s) + 1)
                 else surface_map (Z.abs s) + 1).
  { unfold bind_surface. rewrite (proj2 (Z.ltb_lt _ _) Hop).
    now rewrite Z.abs_eq by lia. }
  assert (Hbop : bind_surface surface_map s < OP_UNION)
    by (rewrite Hb; destruct (s <? 0); lia).
  assert (Hindex : Z.abs (bind_surface surface_map s) - 1
                   = surface_map (Z.abs s))
    by (rewrite Hb; destruct (s <? 0); lia).
  repeat split.
  - do 5 right. rewrite Hindex, Hid. repeat split; lia.
  - exact Hbop.
  - unfold user_token. rewrite (proj2 (Z.ltb_lt _ _) Hbop), Hindex, Hid.
    rewrite Hb. destruct (Z.ltb_spec s 0).
    + destruct (Z.ltb_spec (- (surface_map (Z.abs s) + 1)) 0); lia.
    + destruct (Z.ltb_spec (surface_map (Z.abs s) + 1) 0); lia.
Qed.

Lemma bound_infix :
  forall (e : region_expr) (level : Z),
    operands_ok e ->
    Forall (fun s => Z.abs s < 10 ^ 6 /\
                     surface_known surface_map surface_id s)
           (halfspaces e) ->
    operands_ok (bind_expr surface_map e) /\
    Forall (readable surface_id) (infix_at level (bind_expr surface_map e)) /\
    map (user_token surface_id) (infix_at level (bind_expr surface_map e))
    = infix_at level e.
Proof.
  pose proof Hc as Hord. unfold codes_ordered in Hord.
  assert (Rl : readable surface_id OP_LEFT_PAREN) by (now left).
  assert (Rr : readable surface_id OP_RIGHT_PAREN) by (now right; left).
  assert (Rc : readable surface_id OP_COMPLEMENT)
    by (now right; right; left).
  assert (Ri : readable surface_id OP_INTERSECTION)
    by (now right; right; right; left).
  assert (Ru : readable surface_id OP_UNION)
    by (now right; right; right; right; left).
  assert (Ul : user_token surface_id OP_LEFT_PAREN = OP_LEFT_PAREN)
    by (apply user_token_operator; lia).
  assert (Ur : user_token surface_id OP_RIGHT_PAREN = OP_RIGHT_PAREN)
    by (apply user_token_operator; lia).
  assert (Uc : user_token surface_id OP_COMPLEMENT = OP_COMPLEMENT)
    by (apply user_token_operator; lia).
  assert (Ui : user_token surface_id OP_INTERSECTION = OP_INTERSECTION)
    by (apply user_token_operator; lia).
  assert (Uu : user_token surface_id OP_UNION = OP_UNION)
    by (apply user_token_operator; lia).
  induction e as [s|a IHa|a IHa|a IHa b IHb|a IHa b IHb];
    intros level Hops Hknown;
    cbn [infix_at bind_expr precedence operands_ok halfspaces] in *.
  - inversion Hknown as [|? ? [Hsix Hs] _]; subst.
    destruct (bind_surface_known s Hops Hsix Hs) as (Hr & Hb & Hu).
    split; [exact Hb|].
    destruct (_ <? level); cbn [map app]; rewrite ?Ul, ?Ur, Hu;
      (split; [|reflexivity]);
      repeat first [ apply Forall_cons | apply Forall_app; split
                   | apply Forall_nil | assumption ].
  - destruct (IHa OP_UNION Hops Hknown) as (Ho & Hr & Hu).
    split; [exact Ho|].
    destruct (_ <? level); cbn [map app]; rewrite ?map_app; cbn [map];
      rewrite ?map_app; cbn [map]; rewrite ?Ul, ?Ur, Hu;
      (split; [|reflexivity]);
      repeat first [ apply Forall_cons | apply Forall_app; split
                   | apply Forall_nil | assumption ].
  - destruct (IHa OP_COMPLEMENT Hops Hknown) as (Ho & Hr & Hu).
    split; [exact Ho|].
    destruct (_ <? level); cbn [map app]; rewrite ?map_app; cbn [map];
      rewrite ?Ul, ?Ur, ?Uc, Hu;
      (split; [|reflexivity]);
      repeat first [ apply Forall_cons | apply Forall_app; split
                   | apply Forall_nil | assumption ].
  - apply Forall_app in Hknown as [Hka Hkb]. destruct Hops as [Hoa Hob].
    destruct (IHa OP_INTERSECTION Hoa Hka) as (Ho1 & Hr1 & Hu1).
    destruct (IHb OP_COMPLEMENT Hob Hkb) as (Ho2 & Hr2 & Hu2).
    split; [now split|].
    destruct (_ <? level); cbn [map app]; rewrite ?map_app; cbn [map];
      rewrite ?map_app; cbn [map]; rewrite ?Ul, ?Ur, ?Ui, Hu1, Hu2;
      (split; [|reflexivity]);
      repeat first [ apply Forall_cons | apply Forall_app; split
                   | apply Forall_nil | assumption ].
  - apply Forall_app in Hknown as [Hka Hkb]. destruct Hops as [Hoa Hob].
    destruct (IHa OP_UNION Hoa Hka) as (Ho1 & Hr1 & Hu1).
    destruct (IHb OP_INTERSECTION Hob Hkb) as (Ho2 & Hr2 & Hu2).
    split; [now split|].
    destruct (_ <? level); cbn [map app]; rewrite ?map_app; cbn [map];
      rewrite ?map_app; cbn [map]; rewrite ?Ul, ?Ur, ?Uu, Hu1, Hu2;
      (split; [|reflexivity]);
      repeat first [ apply Forall_cons | apply Forall_app; split
                   | apply Forall_nil | assumption ].
Qed.

End ExprText.

Section LargeIds.

Lemma isdigit_value (d : ascii) :
  isdigit d = true -> 0 <= digit_value d <= 9.
Proof.
  unfold isdigit, digit_value. intros Hd.
  apply andb_prop in Hd as [Hlo Hhi].
  apply Nat.leb_le in Hlo. apply Nat.leb_le in Hhi. lia.
Qed.

(** From [10^6] on the magnitude is written in the scientific style:
    one digit, then the decimal point or the exponent mark. *)
Lemma stream_magnitude_large (m : Z) :
  10 ^ 6 <= m ->
  exists d c tail,
    stream_magnitude m = d :: c :: tail /\
    isdigit d = true /\ (c = "."%char \/ c = "e"%char).
Proof.
  intros Hm. unfold stream_magnitude.
  destruct (Z.ltb_spec m (10 ^ 6)) as [|_]; [lia|].
  set (k := Z.of_nat (length (decimal_digits m))).
  set (scale := 10 ^ (k - 6)).
  set (q' := if (scale <? 2 * (m mod scale)) ||
                ((scale =? 2 * (m mod scale)) && Z.odd (m / scale))
             then m / scale + 1 else m / scale).
  assert (Hq : 0 <= q').
  { assert (0 <= m / scale).
    { destruct (Z.eq_dec scale 0) as [->|Hne]; [now rewrite Z.div_0_r|].
      apply Z.div_pos; [lia|].
      assert (0 <= scale) by (apply Z.pow_nonneg; lia). lia. }
    subst q'. destruct (_ || _); lia. }
  assert (Hshape : forall mantissa x,
             0 <= mantissa ->
             exists d c tail,
               firstn 1 (decimal_digits mantissa)
                 ++ match strip_trailing_zeros
                            (skipn 1 (decimal_digits mantissa)) with
                    | [] => []
                    | _ => "."%char
                           :: strip_trailing_zeros
                                (skipn 1 (decimal_digits mantissa))
                    end
                 ++ ["e"%char; "+"%char]
                 ++ (if x <? 10 then ["0"%char] else [])
                 ++ decimal_digits x
               = d :: c :: tail /\
               isdigit d = true /\ (c = "."%char \/ c = "e"%char)).
  { intros mantissa x Hpos.
    destruct (decimal_digits_spec mantissa Hpos) as (Hall & _ & Hne).
    destruct (decimal_digits mantissa) as [|d ds]; [congruence|].
    cbn [forallb] in Hall. apply andb_prop in Hall as [Hd _].
    cbn [firstn skipn app].
    destruct (strip_trailing_zeros ds); cbn [app]; eauto 10. }
  destruct (q' =? 10 ^ 6); apply Hshape; [|exact Hq].
  apply Z.pow_nonneg. lia.
Qed.

End LargeIds.

(** The text of a region in the form the tokenizer produces, with
    surface ids of at most six digits, tokenizes back to the region
    with the ids in place of the indices. *)
Theorem region_text_reads_back `{OpCodes} (surface_id : Z -> Z)
    (region : list Z) :
  codes_ordered ->
  region <> [] ->
  Forall (readable surface_id) region ->
  second_pass_form region ->
  exists text,
    region_text surface_id region = Some text /\
    tokenize text = Ok (map (user_token surface_id) region).
Proof.
  intros Hc Hne Hall Hform.
  destruct region as [|t region]; [congruence|].
  eexists. split; [reflexivity|].
  now apply tokenize_region_text.
Qed.

(** The second pass of the tokenizer on the tokens of a region
    expression written without its intersections: it puts back exactly
    the intersections of the expression, and nothing else. *)
Theorem second_pass_restores_intersections `{OpCodes} (e : region_expr) :
  codes_ordered ->
  operands_ok e ->
  add_intersections (without_intersections (infix_of e)) = Ok (infix_of e).
Proof.
  intros Hc Hops.
  destruct (infix_at_operand_form Hc e OP_UNION Hops)
    as (Hform & (q & ys & Hq & _) & _).
  unfold infix_of. unfold second_pass_form in Hform.
  rewrite Hq in *. rewrite (add_intersections_nonempty Hc).
  now rewrite Hform.
Qed.

(** The region a cell writes is the region it read: for a cell built
    from the expression [e], whose surfaces are in the model under ids
    of at most six digits, the text of the [region] attribute tokenizes
    to the infix form of [e]. *)
Theorem hdf5_region_round_trip `{OpCodes} (surface_map surface_id : Z -> Z)
    (e : region_expr) :
  codes_ordered ->
  10 ^ 6 <= OP_UNION ->
  operands_ok e ->
  Forall (fun s => Z.abs s < 10 ^ 6 /\
                   surface_known surface_map surface_id s)
         (halfspaces e) ->
  exists text,
    region_text surface_id (infix_of (bind_expr surface_map e)) = Some text /\
    tokenize text = Ok (infix_of e).
Proof.
  intros Hc Hcodes Hops Hknown.
  destruct (bound_infix Hc Hcodes surface_map surface_id e OP_UNION
              Hops Hknown) as (Hbound & Hread & Husers).
  destruct (infix_at_operand_form Hc (bind_expr surface_map e) OP_UNION
              Hbound) as (Hform & (q & ys & Hq & _) & _).
  unfold infix_of.
  destruct (infix_at OP_UNION (bind_expr surface_map e)) as [|t region];
    [discriminate Hq|].
  eexists. split; [reflexivity|].
  rewrite tokenize_region_text by (assumption || discriminate).
  now rewrite Husers.
Qed.

(** A surface id of seven digits or more is written in the scientific
    style, which is no region syntax: the text of a region that holds
    such an operand does not tokenize; the tokenizer stops at the
    decimal point or at the exponent mark. *)
Theorem region_text_large_id `{OpCodes} (surface_id : Z -> Z)
    (before after : list Z) (token : Z) :
  codes_ordered ->
  Forall (readable surface_id) before ->
  token < OP_UNION ->
  10 ^ 6 <= Z.abs (surface_id (Z.abs token - 1)) ->
  exists text c,
    region_text surface_id (before ++ token :: after) = Some text /\
    tokenize text = Fail (InvalidCharacter c) /\
    (c = "."%char \/ c = "e"%char).
Proof.
  intros Hc Hbefore Hop Hbig.
  pose proof Hc as Hord. unfold codes_ordered in Hord.
  destruct (stream_magnitude_large _ Hbig) as (d & c & tail & Hmag & Hd & Hcase).
  assert (Htext : exists lit,
             token_text surface_id token = " "%char :: lit ++ c :: tail /\
             is_literal lit = true /\
             INT_MIN <= literal_value lit <= INT_MAX).
  { unfold token_text.
    destruct (Z.eqb_spec token OP_LEFT_PAREN); [lia|].
    destruct (Z.eqb_spec token OP_RIGHT_PAREN); [lia|].
    destruct (Z.eqb_spec token OP_COMPLEMENT); [lia|].
    destruct (Z.eqb_spec token OP_INTERSECTION); [lia|].
    destruct (Z.eqb_spec token OP_UNION); [lia|].
    unfold stream_copysign. rewrite Hmag.
    pose proof (isdigit_value d Hd) as Hv.
    assert (Hdec : decimal [d] = digit_value d) by (unfold decimal; cbn; lia).
    destruct (token <? 0); cbn [app].
    - exists ["-"%char; d].
      destruct (negative_literal [d]) as [Hl Hval];
        [discriminate|cbn; now rewrite Hd|].
      split; [reflexivity|]. split; [exact Hl|].
      rewrite Hval, Hdec. unfold INT_MIN, INT_MAX. lia.
    - exists [d].
      destruct (unsigned_literal [d]) as [Hl Hval];
        [discriminate|cbn; now rewrite Hd|].
      split; [reflexivity|]. split; [exact Hl|].
      rewrite Hval, Hdec. unfold INT_MIN, INT_MAX. lia. }
  destruct Htext as (lit & Htext & Hlit & Hrange).
  assert (Hregion : before ++ token :: after <> [])
    by (now destruct before).
  destruct (before ++ token :: after) as [|t0 region] eqn:Eregion;
    [congruence|].
  exists (string_of_list_ascii
            (flat_map (token_text surface_id) (t0 :: region))), c.
  split; [reflexivity|]. split; [|exact Hcase].
  unfold tokenize. rewrite list_ascii_of_string_of_list_ascii.
  rewrite <- Eregion, flat_map_app. cbn [flat_map]. rewrite Htext.
  set (rest := tail ++ flat_map (token_text surface_id) after).
  replace ((" "%char :: lit ++ c :: tail)
             ++ flat_map (token_text surface_id) after)
    with ([" "%char] ++ lit ++ c :: rest)
    by (cbn [app]; now rewrite <- app_assoc).
  set (chars := flat_map (token_text surface_id) before
                  ++ [" "%char] ++ lit ++ c :: rest).
  assert (Hscan : scan_tokens (length chars) chars []
                  = Fail (InvalidCharacter c)).
  { subst chars.
    rewrite (scan_region_text_app Hc);
      [|assumption|reflexivity|apply Nat.le_refl].
    rewrite scan_tokens_space;
      [|reflexivity|rewrite !length_app; cbn [length]; lia].
    rewrite scan_tokens_literal;
      [|assumption|assumption|destruct Hcase; subst c; reflexivity
       |rewrite !length_app; cbn [length]; lia].
    rewrite !length_app. cbn [length].
    replace (length (flat_map (token_text surface_id) before)
               + S (length lit + S (length rest)))%nat
      with (S (length (flat_map (token_text surface_id) before)
               + S (length lit + length rest)))%nat by lia.
    destruct Hcase; subst c; reflexivity. }
  destruct chars as [|c0 cs] eqn:Echars.
  - subst chars. apply app_eq_nil in Echars as [_ Echars]. discriminate Echars.
  - now rewrite Hscan.
Qed.

Example region_text_samples :
  @region_text top_codes (fun k => k + 1) (region cell_9)
  = Some " 1 -2 | ~ ( 3 4 )"%string /\
  @region_text top_codes (fun k => 1000000 + k) [1; INT_MAX - 3; -2]
  = Some " 1e+06 -1e+06"%string /\
  @region_text top_codes (fun k => k + 1) [] = None.
Proof. repeat split; reflexivity. Qed.

Lemma region_text_reads_back_witness :
  exists text,
    @region_text top_codes (fun k => k + 1) (region cell_9) = Some text /\
    @tokenize top_codes text
    = Ok (map (@user_token top_codes (fun k => k + 1)) (region cell_9)).
Proof.
  apply (@region_text_reads_back top_codes (fun k => k + 1) (region cell_9)
           top_codes_ordered).
  - discriminate.
  - repeat (apply Forall_cons || apply Forall_nil);
      first [ now left | now (right; left) | now (right; right; left)
            | now (right; right; right; left)
            | now (right; right; right; right; left)
            | do 5 right; repeat split; reflexivity ].
  - reflexivity.
Defined.

Lemma second_pass_restores_intersections_witness :
  @add_intersections top_codes
    (@without_intersections top_codes (@infix_of top_codes sample_region))
  = Ok (@infix_of top_codes sample_region).
Proof.
  apply (@second_pass_restores_intersections top_codes sample_region
           top_codes_ordered).
  repeat split; reflexivity.
Defined.

Lemma hdf5_region_round_trip_witness :
  exists text,
    @region_text top_codes (fun k => k + 1)
      (@infix_of top_codes
         (@bind_expr top_codes (fun k => k - 1) sample_region)) = Some text /\
    @tokenize top_codes text = Ok (@infix_of top_codes sample_region).
Proof.
  apply (@hdf5_region_round_trip top_codes (fun k => k - 1) (fun k => k + 1)
           sample_region top_codes_ordered).
  - vm_compute. discriminate.
  - repeat split; reflexivity.
  - repeat (apply Forall_cons || apply Forall_nil);
      repeat split; try reflexivity; vm_compute; discriminate.
Defined.

Lemma region_text_large_id_witness :
  exists text c,
    @region_text top_codes (fun k => 1000000 + k) ([] ++ 1 :: [INT_MAX - 3; -2])
    = Some text /\
    @tokenize top_codes text = Fail (InvalidCharacter c) /\
    (c = "."%char \/ c = "e"%char).
Proof.
  apply (@region_text_large_id top_codes (fun k => 1000000 + k) []
           [INT_MAX - 3; -2] 1 top_codes_ordered).
  - constructor.
  - reflexivity.
  - vm_compute. discriminate.
Defined.

Section UniverseTable.
Context `{Doubles}.

Lemma distinct_first_in (ids : list Z) (x : Z) :
  In x (distinct_first ids) <-> In x ids.
Proof.
  induction ids as [|a ids IH]; [reflexivity|].
  cbn [distinct_first In]. destruct (Z.eq_dec a x) as [->|Hne].
  - tauto.
  - rewrite <- IH. split.
    + intros [E|Hin]; [tauto|]. right. now apply in_remove in Hin.
    + intros [E|Hin]; [tauto|]. right. apply in_in_remove; congruence.
Qed.

Lemma distinct_first_nodup (ids : list Z) : NoDup (distinct_first ids).
Proof.
  induction ids as [|a ids IH]; [constructor|].
  cbn [distinct_first]. constructor.
  - apply remove_In.
  - clear - IH. induction IH as [|x l Hx Hl IHl]; [constructor|].
    cbn [remove]. destruct (Z.eq_dec a x); [exact IHl|].
    constructor; [|exact IHl]. intros Hin. now apply in_remove in Hin.
Qed.

Lemma distinct_first_snoc (ids : list Z) (x : Z) :
  distinct_first (ids ++ [x])
  = if existsb (Z.eqb x) ids then distinct_first ids
    else distinct_first ids ++ [x].
Proof.
  induction ids as [|a ids IH]; [reflexivity|].
  cbn [app distinct_first existsb]. rewrite IH.
  destruct (Z.eqb_spec x a) as [->|Hne]; cbn [orb].
  - destruct (existsb (Z.eqb a) ids); [reflexivity|].
    rewrite remove_app. cbn [remove].
    destruct (Z.eq_dec a a); [|congruence]. now rewrite app_nil_r.
  - destruct (existsb (Z.eqb x) ids); [reflexivity|].
    rewrite remove_app. cbn [remove].
    destruct (Z.eq_dec a x); [congruence|reflexivity].
Qed.

Lemma existsb_eqb_in (ids : list Z) (x : Z) :
  existsb (Z.eqb x) ids = true <-> In x ids.
Proof.
  rewrite existsb_exists. split.
  - intros (y & Hin & E). apply Z.eqb_eq in E. now subst.
  - intros Hin. exists x. split; [exact Hin|apply Z.eqb_refl].
Qed.

Lemma cells_in_snoc (uid : Z) :
  forall (cells : list Cell) (c : Cell) (i : Z),
    cells_in uid (cells ++ [c]) i
    = cells_in uid cells i
        ++ if universe c =? uid then [i + Z.of_nat (length cells)] else [].
Proof.
  induction cells as [|a cells IH]; intros c i.
  - cbn. rewrite Z.add_0_r. now destruct (universe c =? uid).
  - cbn [app cells_in length]. rewrite IH.
    replace (i + 1 + Z.of_nat (length cells))
      with (i + Z.of_nat (S (length cells))) by lia.
    now destruct (universe a =? uid).
Qed.

Lemma cells_in_absent (uid : Z) :
  forall (cells : list Cell) (i : Z),
    ~ In uid (map universe cells) -> cells_in uid cells i = [].
Proof.
  induction cells as [|a cells IH]; intros i Hnot; [reflexivity|].
  cbn [cells_in map In] in *.
  destruct (Z.eqb_spec (universe a) uid); [tauto|]. apply IH. tauto.
Qed.

Lemma cells_in_spec (uid : Z) :
  forall (cells : list Cell) (i j : Z),
    In j (cells_in uid cells i) <->
    exists c, i <= j /\ nth_error cells (Z.to_nat (j - i)) = Some c /\
              universe c = uid.
Proof.
  induction cells as [|a cells IH]; intros i j.
  - cbn. split; [tauto|]. intros (c & _ & Hn & _).
    now destruct (Z.to_nat (j - i)).
  - cbn [cells_in].
    assert (Hrest : In j (cells_in uid cells (i + 1)) <->
                    exists c, i < j /\
                              nth_error (a :: cells) (Z.to_nat (j - i)) = Some c /\
                              universe c = uid).
    { rewrite IH. split; intros (c & Hle & Hn & Hu); exists c.
      - replace (Z.to_nat (j - i)) with (S (Z.to_nat (j - (i + 1)))) by lia.
        repeat split; [lia|exact Hn|exact Hu].
      - replace (Z.to_nat (j - i)) with (S (Z.to_nat (j - (i + 1)))) in Hn
          by lia.
        repeat split; [lia|exact Hn|exact Hu]. }
    destruct (Z.eqb_spec (universe a) uid) as [E|Hne]; cbn [In];
      rewrite ?Hrest; split.
    + intros [<-|(c & Hlt & Hn & Hu)].
      * exists a. rewrite Z.sub_diag. repeat split; [lia|exact E].
      * exists c. repeat split; [lia|exact Hn|exact Hu].
    + intros (c & Hle & Hn & Hu).
      destruct (Z.eq_dec i j) as [E'|Hlt]; [now left|right].
      exists c. repeat split; [lia|exact Hn|exact Hu].
    + intros (c & Hlt & Hn & Hu). exists c.
      repeat split; [lia|exact Hn|exact Hu].
    + intros (c & Hle & Hn & Hu).
      destruct (Z.eq_dec i j) as [<-|Hlt].
      * rewrite Z.sub_diag in Hn. cbn in Hn. congruence.
      * exists c. repeat split; [lia|exact Hn|exact Hu].
Qed.

Lemma cells_in_nodup (uid : Z) :
  forall (cells : list Cell) (i : Z), NoDup (cells_in uid cells i).
Proof.
  induction cells as [|a cells IH]; intros i; [constructor|].
  cbn [cells_in]. destruct (universe a =? uid); [|apply IH].
  constructor; [|apply IH].
  intros Hin. apply cells_in_spec in Hin as (c & Hle & _). lia.
Qed.

End UniverseTable.

Section PopulateLoop.
Context `{Doubles}.

Lemma index_of_snoc (x y : Z) :
  forall (ids : list Z) (i : Z),
    index_of x (ids ++ [y]) i
    = match index_of x ids i with
      | Some k => Some k
      | None => if y =? x then Some (i + Z.of_nat (length ids)) else None
      end.
Proof.
  induction ids as [|a ids IH]; intros i.
  - cbn. now rewrite Z.add_0_r.
  - cbn [app index_of length]. destruct (a =? x); [reflexivity|].
    rewrite IH. replace (i + 1 + Z.of_nat (length ids))
      with (i + Z.of_nat (S (length ids))) by lia. reflexivity.
Qed.

Lemma index_of_none (x : Z) :
  forall (ids : list Z) (i : Z), index_of x ids i = None <-> ~ In x ids.
Proof.
  induction ids as [|a ids IH]; intros i; cbn [index_of In]; [tauto|].
  destruct (Z.eqb_spec a x).
  - split; [discriminate|tauto].
  - rewrite IH. tauto.
Qed.

Lemma index_of_some (x : Z) :
  forall (ids : list Z) (i k : Z),
    index_of x ids i = Some k ->
    i <= k /\ nth_error ids (Z.to_nat (k - i)) = Some x.
Proof.
  induction ids as [|a ids IH]; intros i k; cbn [index_of]; [discriminate|].
  destruct (Z.eqb_spec a x) as [->|Hne].
  - intros [= <-]. rewrite Z.sub_diag. split; [lia|reflexivity].
  - intros Hk. apply IH in Hk as [Hle Hn].
    replace (Z.to_nat (k - i)) with (S (Z.to_nat (k - (i + 1)))) by lia.
    split; [lia|exact Hn].
Qed.

Lemma list_set_map {A : Type} (f f' : Z -> A) (x : Z) :
  forall (ids : list Z) (k : nat),
    NoDup ids ->
    nth_error ids k = Some x ->
    (forall y, In y ids -> y <> x -> f' y = f y) ->
    list_set (map f ids) k (f' x) = map f' ids.
Proof.
  induction ids as [|a ids IH]; intros k Hnd Hk Hsame.
  - now destruct k.
  - inversion Hnd as [|? ? Hnot Hnd']; subst.
    destruct k as [|k]; cbn [nth_error] in Hk.
    + injection Hk as ->. cbn [map list_set]. f_equal.
      apply map_ext_in. intros y Hy. symmetry. apply Hsame; [now right|].
      intros ->. contradiction.
    + cbn [map list_set]. f_equal.
      * symmetry. apply Hsame; [now left|].
        intros ->. apply Hnot. eapply nth_error_In. exact Hk.
      * apply IH; [assumption|assumption|].
        intros y Hy. apply Hsame. now right.
Qed.

(** One round of the loop keeps the table: after the cells [done] the
    universes are the table of [done] and the map sends every id to the
    position of its universe. *)
Lemma populate_step_table (done : list Cell) (c : Cell)
    (entries : list (Z * Z)) :
  (forall uid,
      map_find entries uid
      = index_of uid (distinct_first (map universe done)) 0) ->
  exists entries',
    populate_step (Z.of_nat (length done)) c (universes_of done) entries
    = Ok (universes_of (done ++ [c]), entries') /\
    (forall uid,
        map_find entries' uid
        = index_of uid (distinct_first (map universe (done ++ [c]))) 0).
Proof.
  intros Hmap. unfold populate_step. rewrite Hmap.
  set (ids := distinct_first (map universe done)) in *.
  assert (Hsnoc : distinct_first (map universe (done ++ [c]))
                  = if existsb (Z.eqb (universe c)) (map universe done)
                    then ids else ids ++ [universe c]).
  { rewrite map_app. cbn [map]. apply distinct_first_snoc. }
  assert (Hother : forall y, y <> universe c ->
             cells_in y (done ++ [c]) 0 = cells_in y done 0).
  { intros y Hy. rewrite cells_in_snoc.
    destruct (Z.eqb_spec (universe c) y); [congruence|apply app_nil_r]. }
  destruct (index_of (universe c) ids 0) as [k|] eqn:Hk.
  - (* the universe exists *)
    apply index_of_some in Hk as [Hle Hnth]. rewrite Z.sub_0_r in Hnth.
    assert (Hin : In (universe c) (map universe done)).
    { apply distinct_first_in. eapply nth_error_In. exact Hnth. }
    rewrite (proj2 (existsb_eqb_in _ _) Hin) in Hsnoc.
    unfold universes_of at 1. fold ids.
    unfold at_index. destruct (Z.ltb_spec k 0); [lia|].
    rewrite nth_error_map, Hnth. cbn [option_map bind Universe.id Universe.cells].
    exists entries. split; [|intros uid; now rewrite Hsnoc].
    f_equal. f_equal. unfold universes_of. rewrite Hsnoc. fold ids.
    rewrite <- (list_set_map
                  (fun uid => {| Universe.id := uid;
                                 Universe.cells := cells_in uid done 0 |})
                  (fun uid => {| Universe.id := uid;
                                 Universe.cells := cells_in uid (done ++ [c]) 0 |})
                  (universe c) ids (Z.to_nat k));
      [|apply distinct_first_nodup|exact Hnth
       |intros y _ Hy; now rewrite Hother].
    do 2 f_equal. rewrite cells_in_snoc, Z.eqb_refl. reflexivity.
  - (* a new universe *)
    apply index_of_none in Hk.
    assert (Hnot : ~ In (universe c) (map universe done)).
    { intros Hin. apply Hk. now apply distinct_first_in. }
    assert (Hex : existsb (Z.eqb (universe c)) (map universe done) = false).
    { destruct (existsb _ _) eqn:E; [|reflexivity].
      apply existsb_eqb_in in E. contradiction. }
    rewrite Hex in Hsnoc.
    eexists. split.
    + f_equal. f_equal. unfold universes_of. rewrite Hsnoc. fold ids.
      rewrite map_app. cbn [map]. f_equal.
      * apply map_ext_in. intros y Hy. rewrite Hother; [reflexivity|].
        intros ->. contradiction.
      * rewrite cells_in_snoc, Z.eqb_refl, (cells_in_absent _ _ _ Hnot).
        reflexivity.
    + intros uid. cbn [map_find]. rewrite Hsnoc, index_of_snoc, Hmap.
      unfold universes_of. rewrite length_map. fold ids.
      destruct (Z.eqb_spec (universe c) uid) as [<-|Hne].
      * now rewrite (proj2 (index_of_none _ _ _) Hk).
      * now destruct (index_of uid ids 0).
Qed.

Lemma populate_table :
  forall (rest done : list Cell) (entries : list (Z * Z)),
    (forall uid,
        map_find entries uid
        = index_of uid (distinct_first (map universe done)) 0) ->
    exists entries',
      populate rest (Z.of_nat (length done)) (universes_of done) entries
      = Ok (universes_of (done ++ rest), entries') /\
      (forall uid,
          map_find entries' uid
          = index_of uid (distinct_first (map universe (done ++ rest))) 0).
Proof.
  induction rest as [|c rest IH]; intros done entries Hmap.
  - exists entries. rewrite app_nil_r. now split.
  - destruct (populate_step_table done c entries Hmap)
      as (entries1 & Hstep & Hmap1).
    cbn [populate]. rewrite Hstep. cbn [bind].
    destruct (IH (done ++ [c]) entries1 Hmap1) as (entries2 & Hrun & Hmap2).
    rewrite length_app in Hrun. cbn [length] in Hrun.
    replace (Z.of_nat (length done) + 1)
      with (Z.of_nat (length done + 1)) by lia.
    rewrite <- app_assoc in Hrun, Hmap2. cbn [app] in Hrun, Hmap2.
    exists entries2. now split.
Qed.

End PopulateLoop.

Section ReadCellsFacts.
Context `{Doubles}.
Variable Node : Type.
Variable construct : Node -> checked Cell.
Variable openmc_check_overlaps : bool.

Lemma construct_cells_all :
  forall (nodes : list Node) (cells before : list Cell),
    Forall2 (fun node c => construct node = Done c) nodes cells ->
    construct_cells Node construct nodes before = Done (before ++ cells).
Proof.
  induction nodes as [|node nodes IH]; intros cells before Hall;
    inversion Hall as [|? c ? cells' Hc Hrest]; subst.
  - now rewrite app_nil_r.
  - cbn [construct_cells]. rewrite Hc, (IH cells') by assumption.
    now rewrite <- app_assoc.
Qed.

Lemma construct_cells_fatal :
  forall (nodes after : list Node) (node : Node) (cells before : list Cell)
         (e : fatal),
    Forall2 (fun node c => construct node = Done c) nodes cells ->
    construct node = Fatal e ->
    construct_cells Node construct (nodes ++ node :: after) before = Fatal e.
Proof.
  induction nodes as [|n nodes IH]; intros after node cells before e Hall He;
    inversion Hall as [|? c ? cells' Hc Hrest]; subst.
  - cbn. now rewrite He.
  - cbn [app construct_cells]. rewrite Hc. now apply IH with (cells := cells').
Qed.

Lemma construct_cells_cases :
  forall nodes : list Node,
    (exists cells,
        Forall2 (fun node c => construct node = Done c) nodes cells) \/
    (exists before node after cells e,
        nodes = before ++ node :: after /\
        Forall2 (fun node c => construct node = Done c) before cells /\
        construct node = Fatal e).
Proof.
  induction nodes as [|node nodes IH]; [left; exists []; constructor|].
  destruct (construct node) as [c|e] eqn:Hnode.
  - destruct IH as [(cells & Hall)
                   |(before & n & after & cells & e & -> & Hall & He)].
    + left. exists (c :: cells). now constructor.
    + right. exists (node :: before), n, after, (c :: cells), e.
      repeat split; [now constructor|exact He].
  - right. exists [], node, nodes, [], e. repeat split; [constructor|exact Hnode].
Qed.

(** The first call of [read_cells] on cells that all construct. *)
Lemma read_cells_table (nodes : list Node) (cells : list Cell) :
  nodes <> [] ->
  Forall2 (fun node c => construct node = Done c) nodes cells ->
  exists entries,
    read_cells Node construct openmc_check_overlaps nodes no_globals
    = Done {| Globals.n_cells := Z.of_nat (length nodes);
              Globals.global_cells := cells;
              Globals.global_universes := universes_of cells;
              Globals.universe_map := entries;
              Globals.overlap_check_count :=
                if openmc_check_overlaps
                then repeat 0 (length nodes) else [] |} /\
    (forall uid,
        map_find entries uid
        = index_of uid (distinct_first (map universe cells)) 0).
Proof.
  intros Hne Hall. unfold read_cells.
  cbn [no_globals Globals.n_cells Globals.global_cells
       Globals.global_universes Globals.universe_map
       Globals.overlap_check_count].
  destruct (Z.eqb_spec (0 + Z.of_nat (length nodes)) 0) as [E|_].
  { destruct nodes; [congruence|cbn [length] in E; lia]. }
  rewrite (construct_cells_all nodes cells [] Hall). cbn [app].
  destruct (populate_table cells [] [] (fun _ => eq_refl))
    as (entries & Hrun & Hmap).
  cbn [length app] in Hrun, Hmap. change (Z.of_nat 0) with 0 in Hrun.
  change (universes_of []) with (@nil Universe.t) in Hrun.
  rewrite Hrun. exists entries. split; [|exact Hmap].
  do 2 f_equal. destruct openmc_check_overlaps; [|reflexivity].
  unfold resize. cbn [firstn length app].
  rewrite firstn_nil. cbn [app]. f_equal. lia.
Qed.

Lemma cell_ids_cells_in (g : Globals.t) (uid : Z) :
  forall (rest done : list Cell),
    Globals.global_cells g = done ++ rest ->
    cell_ids g (cells_in uid rest (Z.of_nat (length done)))
    = Ok (map id (filter (fun c => universe c =? uid) rest)).
Proof.
  induction rest as [|c rest IH]; intros done Hcells; [reflexivity|].
  cbn [cells_in filter].
  assert (Hnext : cell_ids g (cells_in uid rest (Z.of_nat (length done) + 1))
                  = Ok (map id (filter (fun c => universe c =? uid) rest))).
  { replace (Z.of_nat (length done) + 1)
      with (Z.of_nat (length (done ++ [c])))
      by (rewrite length_app; cbn [length]; lia).
    apply IH. rewrite Hcells, <- app_assoc. reflexivity. }
  destruct (universe c =? uid); [|exact Hnext].
  cbn [cell_ids map]. rewrite Hnext.
  unfold at_index. destruct (Z.ltb_spec (Z.of_nat (length done)) 0); [lia|].
  rewrite Nat2Z.id, Hcells, nth_error_app2, Nat.sub_diag by lia.
  reflexivity.
Qed.

End ReadCellsFacts.

(** The first call of [read_cells], on elements whose cells all
    construct: the cells are stored in input order and counted, there
    is one universe for every universe id that occurs, in the order of
    first appearance, each with the indices of its cells in rising
    order, and [universe_map] sends every id to the position of its
    universe and knows no other id. *)
Theorem read_cells_universe_table `{Doubles} (Node : Type)
    (construct : Node -> checked Cell) (openmc_check_overlaps : bool)
    (nodes : list Node) (cells : list Cell) :
  nodes <> [] ->
  Forall2 (fun node c => construct node = Done c) nodes cells ->
  exists g,
    read_cells Node construct openmc_check_overlaps nodes no_globals = Done g /\
    Globals.n_cells g = Z.of_nat (length cells) /\
    Globals.global_cells g = cells /\
    Globals.global_universes g = universes_of cells /\
    (forall uid,
        map_find (Globals.universe_map g) uid
        = index_of uid (map Universe.id (Globals.global_universes g)) 0) /\
    (forall uid k,
        map_find (Globals.universe_map g) uid = Some k ->
        universe_id g k = Ok uid) /\
    Globals.overlap_check_count g
    = if openmc_check_overlaps then repeat 0 (length cells) else [].
Proof.
  intros Hne Hall.
  destruct (read_cells_table Node construct openmc_check_overlaps
              nodes cells Hne Hall) as (entries & Hrun & Hmap).
  pose proof (Forall2_length Hall) as Hlen.
  assert (Hids : map Universe.id (universes_of cells)
                 = distinct_first (map universe cells)).
  { unfold universes_of. rewrite map_map. cbn [Universe.id]. apply map_id. }
  eexists. split; [exact Hrun|].
  cbn [Globals.n_cells Globals.global_cells Globals.global_universes
       Globals.universe_map Globals.overlap_check_count].
  rewrite Hlen, Hids. repeat split; try reflexivity.
  - exact Hmap.
  - intros uid k Hk. rewrite Hmap in Hk.
    apply index_of_some in Hk as [Hle Hnth]. rewrite Z.sub_0_r in Hnth.
    unfold universe_id, at_index. cbn [Globals.global_universes].
    destruct (Z.ltb_spec k 0); [lia|].
    unfold universes_of. rewrite nth_error_map, Hnth. reflexivity.
Qed.

(** The universes [read_cells] builds partition the cells: no two
    universes share an id, a cell index is listed by a universe exactly
    when that cell names the universe, no index is listed twice, and
    every universe id of a cell has its universe. *)
Theorem read_cells_universes_partition `{Doubles} (Node : Type)
    (construct : Node -> checked Cell) (openmc_check_overlaps : bool)
    (nodes : list Node) (cells : list Cell) (g : Globals.t) :
  Forall2 (fun node c => construct node = Done c) nodes cells ->
  read_cells Node construct openmc_check_overlaps nodes no_globals = Done g ->
  NoDup (map Universe.id (Globals.global_universes g)) /\
  (forall u i,
      In u (Globals.global_universes g) ->
      (In i (Universe.cells u) <->
       exists c, 0 <= i /\ nth_error cells (Z.to_nat i) = Some c /\
                 universe c = Universe.id u)) /\
  (forall u, In u (Globals.global_universes g) ->
     Universe.cells u <> [] /\ NoDup (Universe.cells u)) /\
  (forall c, In c cells ->
      exists u, In u (Globals.global_universes g) /\
                Universe.id u = universe c).
Proof.
  intros Hall Hrun.
  assert (Hne : nodes <> []).
  { intros ->. unfold read_cells in Hrun. cbn in Hrun. discriminate Hrun. }
  destruct (read_cells_table Node construct openmc_check_overlaps
              nodes cells Hne Hall) as (entries & Hrun' & _).
  rewrite Hrun' in Hrun. injection Hrun as <-.
  cbn [Globals.global_universes]. unfold universes_of.
  assert (Hmember : forall u,
             In u (map (fun uid => {| Universe.id := uid;
                                      Universe.cells := cells_in uid cells 0 |})
                       (distinct_first (map universe cells))) ->
             Universe.cells u = cells_in (Universe.id u) cells 0 /\
             In (Universe.id u) (map universe cells)).
  { intros u Hu. apply in_map_iff in Hu as (uid & <- & Hin).
    split; [reflexivity|]. now apply distinct_first_in. }
  split; [|split; [|split]].
  - rewrite map_map. cbn [Universe.id]. rewrite map_id.
    apply distinct_first_nodup.
  - intros u i Hu. destruct (Hmember u Hu) as [Hcells _].
    rewrite Hcells, cells_in_spec.
    split; intros (c & Hle & Hn & Hc); exists c;
      rewrite Z.sub_0_r in *; now repeat split.
  - intros u Hu. destruct (Hmember u Hu) as [Hcells Hin].
    split; [|rewrite Hcells; apply cells_in_nodup].
    intros Hempty.
    apply in_map_iff in Hin as (c & Hc & Hin).
    apply In_nth_error in Hin as (n & Hn).
    assert (Hi : In (Z.of_nat n) (cells_in (Universe.id u) cells 0)).
    { apply cells_in_spec. exists c. rewrite Z.sub_0_r, Nat2Z.id.
      repeat split; [lia|exact Hn|exact Hc]. }
    rewrite <- Hcells, Hempty in Hi. exact Hi.
  - intros c Hc. eexists. split.
    + apply in_map. apply distinct_first_in. apply in_map. exact Hc.
    + reflexivity.
Qed.

(** [Universe::to_hdf5] after [read_cells]: every universe writes a
    [cells] dataset, reads no cell outside [global_cells], and the
    dataset holds the ids of the cells that name the universe, in
    input order. *)
Theorem universe_to_hdf5_after_read_cells `{Doubles} (Node : Type)
    (construct : Node -> checked Cell) (openmc_check_overlaps : bool)
    (nodes : list Node) (cells : list Cell) (g : Globals.t)
    (u : Universe.t) :
  Forall2 (fun node c => construct node = Done c) nodes cells ->
  read_cells Node construct openmc_check_overlaps nodes no_globals = Done g ->
  In u (Globals.global_universes g) ->
  exists written,
    Universe_to_hdf5 g u = Ok (Some written) /\
    written <> [] /\
    written
    = map id (filter (fun c => universe c =? Universe.id u) cells).
Proof.
  intros Hall Hrun Hu.
  assert (Hne : nodes <> []).
  { intros ->. unfold read_cells in Hrun. cbn in Hrun. discriminate Hrun. }
  destruct (read_cells_table Node construct openmc_check_overlaps
              nodes cells Hne Hall) as (entries & Hrun' & _).
  rewrite Hrun' in Hrun. injection Hrun as Hg.
  assert (Hcells : Globals.global_cells g = cells) by (now rewrite <- Hg).
  assert (Hunis : Globals.global_universes g = universes_of cells)
    by (now rewrite <- Hg).
  clear Hg Hrun'. rewrite Hunis in Hu. unfold universes_of in Hu.
  apply in_map_iff in Hu as (uid & <- & Hin).
  apply (proj1 (distinct_first_in _ _)) in Hin.
  cbn [Universe.id]. unfold Universe_to_hdf5. cbn [Universe.cells].
  pose proof (cell_ids_cells_in g uid cells [] Hcells) as Hids.
  cbn [length] in Hids. change (Z.of_nat 0) with 0 in Hids.
  assert (Hsome : filter (fun c => universe c =? uid) cells <> []).
  { apply in_map_iff in Hin as (c & Hc & Hin). intros Hempty.
    assert (Hf : In c (filter (fun c => universe c =? uid) cells)).
    { apply filter_In. split; [exact Hin|]. now apply Z.eqb_eq. }
    now rewrite Hempty in Hf. }
  destruct (cells_in uid cells 0) as [|i rest] eqn:Ecells.
  - cbn in Hids. injection Hids as Hids.
    destruct (filter _ cells); [congruence|discriminate].
  - rewrite Hids. cbn [bind]. eexists. split; [reflexivity|].
    split; [|reflexivity].
    destruct (filter _ cells); [congruence|discriminate].
Qed.

(** The first call of [read_cells] fails in two ways only: there is no
    cell element, or the constructor fails on one, and then with the
    error of the first such element.  The loop over the universes never
    reads outside [global_universes]. *)
Theorem read_cells_failure `{Doubles} (Node : Type)
    (construct : Node -> checked Cell) (openmc_check_overlaps : bool)
    (nodes : list Node) (e : fatal) :
  read_cells Node construct openmc_check_overlaps nodes no_globals = Fatal e ->
  (nodes = [] /\ e = NoCellsFound) \/
  (exists before node after cells,
      nodes = before ++ node :: after /\
      Forall2 (fun node c => construct node = Done c) before cells /\
      construct node = Fatal e).
Proof.
  intros Hrun. destruct nodes as [|n nodes].
  { left. split; [reflexivity|]. cbn in Hrun. congruence. }
  right.
  destruct (construct_cells_cases Node construct (n :: nodes))
    as [(cells & Hall)|(before & node & after & cells & e' & Hsplit & Hall & He)].
  - destruct (read_cells_table Node construct openmc_check_overlaps
                (n :: nodes) cells ltac:(discriminate) Hall)
      as (entries & Hdone & _).
    rewrite Hdone in Hrun. discriminate Hrun.
  - exists before, node, after, cells. split; [exact Hsplit|].
    split; [exact Hall|].
    rewrite Hsplit in Hrun. unfold read_cells in Hrun.
    cbn [no_globals Globals.n_cells Globals.global_cells] in Hrun.
    rewrite (construct_cells_fatal Node construct before after node cells []
               e' Hall He) in Hrun.
    destruct (Z.eqb_spec (0 + Z.of_nat (length (before ++ node :: after))) 0)
      as [E|_]; [|congruence].
    rewrite length_app in E. cbn in E. lia.
Qed.

Lemma read_cells_universe_table_witness :
  exists g,
    @read_cells binary64_doubles Cell Done true three_cells no_globals
    = Done g /\
    Globals.global_universes g
    = [{| Universe.id := 5; Universe.cells := [0; 2] |};
       {| Universe.id := 7; Universe.cells := [1] |}] /\
    Globals.universe_map g = [(7, 1); (5, 0)].
Proof.
  destruct (@read_cells_universe_table binary64_doubles Cell Done true
              three_cells three_cells)
    as (g & Hrun & _ & _ & Hunis & _).
  - discriminate.
  - repeat constructor.
  - exists g. split; [exact Hrun|].
    split; [rewrite Hunis; reflexivity|].
    cbv in Hrun. injection Hrun as <-. reflexivity.
Defined.

Lemma read_cells_universes_partition_witness :
  NoDup (map Universe.id
           [{| Universe.id := 5; Universe.cells := [0; 2] |};
            {| Universe.id := 7; Universe.cells := [1] |}]).
Proof.
  apply (@read_cells_universes_partition binary64_doubles Cell Done true
           three_cells three_cells
           (@Globals.Build_t binary64_doubles 3 three_cells
              [{| Universe.id := 5; Universe.cells := [0; 2] |};
               {| Universe.id := 7; Universe.cells := [1] |}]
              [(7, 1); (5, 0)] [0; 0; 0])).
  - repeat constructor.
  - reflexivity.
Defined.

Lemma universe_to_hdf5_after_read_cells_witness :
  exists written,
    Universe_to_hdf5
      (@Globals.Build_t binary64_doubles 3 three_cells
         [{| Universe.id := 5; Universe.cells := [0; 2] |};
          {| Universe.id := 7; Universe.cells := [1] |}]
         [(7, 1); (5, 0)] [0; 0; 0])
      {| Universe.id := 5; Universe.cells := [0; 2] |}
    = Ok (Some written) /\
    written <> [] /\
    written = [10; 12].
Proof.
  apply (@universe_to_hdf5_after_read_cells binary64_doubles Cell Done true
           three_cells three_cells).
  - repeat constructor.
  - reflexivity.
  - now left.
Defined.

Lemma read_cells_failure_witness :
  (@nil (@Cell binary64_doubles) = [] /\ NoCellsFound = NoCellsFound) \/
  (exists before node after cells,
      @nil (@Cell binary64_doubles) = before ++ node :: after /\
      Forall2 (fun node c => Done node = Done c) before cells /\
      @Done (@Cell binary64_doubles) node = Fatal NoCellsFound).
Proof.
  apply (@read_cells_failure binary64_doubles Cell Done true [] NoCellsFound).
  reflexivity.
Defined.

Section ConstructorFacts.
Context `{OpCodes} `{Doubles} `{ApiConstants}.
Variables (C_NONE : Z) (zero : double) (sqrt_kT : double -> double).
Variable rotation_matrix : double -> double -> double -> list double.
Variables (surface_map : Z -> Z) (unassigned_type : Z).

#[local] Abbreviation new_cell :=
  (Cell_new C_NONE zero sqrt_kT rotation_matrix surface_map unassigned_type).

Lemma and_then_done {A B : Type} (m : checked A) (k : A -> checked B)
    (b : B) :
  and_then m k = Done b -> exists a, m = Done a /\ k a = Done b.
Proof. destruct m as [a|e]; [now exists a|discriminate]. Qed.

Lemma raise_done {A : Type} (m : outcome A) (a : A) :
  raise m = Done a -> m = Ok a.
Proof. destruct m; cbn; congruence. Qed.

Lemma read_materials_length :
  forall (mats : list string) (ms : list Z),
    read_materials mats = Ok ms -> length ms = length mats.
Proof.
  induction mats as [|mat mats IH]; intros ms; cbn [read_materials].
  - now intros [= <-].
  - destruct (read_material mat); [|discriminate]. cbn [bind].
    destruct (read_materials mats) as [ms'|]; [|discriminate]. cbn [bind].
    intros [= <-]. cbn [length]. now rewrite (IH ms').
Qed.

Lemma read_material_node_done (cell_id : Z) (node : cell_node)
    (ms : list Z) :
  read_material_node cell_id node = Done ms ->
  match node_material node with
  | None => ms = []
  | Some mats =>
      mats <> [] /\ read_materials mats = Ok ms /\ ms <> []
  end.
Proof.
  unfold read_material_node.
  destruct (node_material node) as [[|mat mats]|]; [discriminate| |congruence].
  intros Hr. apply raise_done in Hr.
  split; [discriminate|]. split; [exact Hr|].
  apply read_materials_length in Hr. destruct ms; [discriminate|discriminate].
Qed.

Lemma read_temperature_node_done (cell_id : Z) (ms : list Z)
    (node : cell_node) (ts : list double) :
  read_temperature_node zero sqrt_kT cell_id ms node = Done ts ->
  match node_temperature node with
  | None => ts = []
  | Some temps =>
      ms <> [] /\ ts = map sqrt_kT temps /\
      Forall (fun T => d_lt T zero = false) temps
  end.
Proof.
  unfold read_temperature_node.
  destruct (node_temperature node) as [temps|]; [|congruence].
  destruct ms as [|m ms]; [discriminate|].
  destruct (existsb _ temps) eqn:Hneg; [discriminate|].
  intros [= <-]. split; [discriminate|]. split; [reflexivity|].
  apply Forall_forall. intros T HT.
  destruct (d_lt T zero) eqn:E; [|reflexivity].
  assert (existsb (fun T => d_lt T zero) temps = true)
    by (apply existsb_exists; now exists T).
  congruence.
Qed.

Lemma read_translation_node_done (cell_id fill_ : Z) (node : cell_node)
    (xyz : list double) :
  read_translation_node C_NONE cell_id fill_ node = Done xyz ->
  match node_translation node with
  | None => xyz = []
  | Some given => xyz = given /\ fill_ <> C_NONE /\ length xyz = 3%nat
  end.
Proof.
  unfold read_translation_node.
  destruct (node_translation node) as [given|]; [|congruence].
  destruct (Z.eqb_spec fill_ C_NONE); [discriminate|].
  destruct (Nat.eqb_spec (length given) 3); cbn [negb]; [|discriminate].
  intros [= <-]. now repeat split.
Qed.

Lemma read_rotation_node_done (cell_id fill_ : Z) (node : cell_node)
    (rot : list double) :
  read_rotation_node C_NONE rotation_matrix cell_id fill_ node = Done rot ->
  match node_rotation node with
  | None => rot = []
  | Some given =>
      fill_ <> C_NONE /\ length given = 3%nat /\ firstn 3 rot = given
  end.
Proof.
  unfold read_rotation_node.
  destruct (node_rotation node) as [given|]; [|congruence].
  destruct (Z.eqb_spec fill_ C_NONE); [discriminate|].
  destruct given as [|phi [|theta [|psi [|extra given]]]]; try discriminate.
  intros [= <-]. now repeat split.
Qed.

End ConstructorFacts.

(** What holds of every cell the constructor returns.  The id is the
    one given; exactly one of the fill and material elements was there;
    a cell with materials has no fill target, no translation and no
    rotation, and one material for every entry of the element; a cell
    with temperatures has materials, and its [sqrtkT] holds the
    converted temperatures, none of which was below zero; a translation
    has three entries; and the region fields are those the compiler
    gives for the region text. *)
Theorem constructor_invariants `{OpCodes} `{Doubles} `{ApiConstants}
    (C_NONE : Z) (zero : double) (sqrt_kT : double -> double)
    (rotation_matrix : double -> double -> double -> list double)
    (surface_map : Z -> Z) (unassigned_type : Z)
    (node : cell_node) (c : Cell) (x : cell_extras) :
  Cell_new C_NONE zero sqrt_kT rotation_matrix surface_map unassigned_type
    node = Done (c, x) ->
  (exists text, node_id node = Some text /\ std_stoi text = Ok (id c)) /\
  (node_fill node = None <-> node_material node <> None) /\
  (material c <> [] <-> node_material node <> None) /\
  (forall mats, node_material node = Some mats ->
     read_materials mats = Ok (material c) /\
     length (material c) = length mats /\
     fill c = C_NONE /\ translation x = [] /\ rotation x = []) /\
  (sqrtkT c <> [] -> material c <> []) /\
  (forall temps, node_temperature node = Some temps ->
     sqrtkT c = map sqrt_kT temps /\
     Forall (fun T => d_lt T zero = false) temps) /\
  (translation x <> [] -> length (translation x) = 3%nat) /\
  constructed surface_map
    match node_region node with Some text => text | None => ""%string end c.
Proof.
  unfold Cell_new. intros Hnew.
  apply and_then_done in Hnew as (cell_id & Hid & Hnew).
  apply and_then_done in Hnew as (cell_universe & Huniverse & Hnew).
  assert (Hone : (node_fill node = None <-> node_material node <> None) /\
                 exists cell_fill ms ts compiled xyz rot,
                   match node_fill node with
                   | Some text => raise (std_stoi text)
                   | None => Done C_NONE
                   end = Done cell_fill /\
                   read_material_node cell_id node = Done ms /\
                   read_temperature_node zero sqrt_kT cell_id ms node
                   = Done ts /\
                   compile_region cell_id surface_map
                     match node_region node with
                     | Some text => text
                     | None => ""%string
                     end = Ok compiled /\
                   read_translation_node C_NONE cell_id cell_fill node
                   = Done xyz /\
                   read_rotation_node C_NONE rotation_matrix cell_id
                     cell_fill node = Done rot /\
                   c = {| id := cell_id; type := unassigned_type;
                          universe := cell_universe; fill := cell_fill;
                          material := ms; sqrtkT := ts;
                          region := fst (fst compiled);
                          rpn := snd (fst compiled);
                          simple := snd compiled |} /\
                   x = {| name := match node_name node with
                                  | Some text => text
                                  | None => ""%string
                                  end;
                          translation := xyz; rotation := rot |}).
  { destruct (node_fill node) as [fill_text|] eqn:Hfill,
             (node_material node) as [mats|] eqn:Hmat;
      try discriminate Hnew.
    - split; [split; [discriminate|congruence]|].
      apply and_then_done in Hnew as (cell_fill & Hf & Hnew).
      apply and_then_done in Hnew as (ms & Hm & Hnew).
      apply and_then_done in Hnew as (ts & Ht & Hnew).
      apply and_then_done in Hnew as (compiled & Hr & Hnew).
      apply and_then_done in Hnew as (xyz & Hx & Hnew).
      apply and_then_done in Hnew as (rot & Hrot & Hnew).
      apply raise_done in Hr. injection Hnew as <- <-.
      exists cell_fill, ms, ts, compiled, xyz, rot. now repeat split.
    - split; [split; [discriminate|reflexivity]|].
      apply and_then_done in Hnew as (cell_fill & Hf & Hnew).
      apply and_then_done in Hnew as (ms & Hm & Hnew).
      apply and_then_done in Hnew as (ts & Ht & Hnew).
      apply and_then_done in Hnew as (compiled & Hr & Hnew).
      apply and_then_done in Hnew as (xyz & Hx & Hnew).
      apply and_then_done in Hnew as (rot & Hrot & Hnew).
      apply raise_done in Hr. injection Hnew as <- <-.
      exists cell_fill, ms, ts, compiled, xyz, rot. now repeat split. }
  destruct Hone as (Hone & cell_fill & ms & ts & compiled & xyz & rot &
                    Hf & Hm & Ht & Hr & Hx & Hrot & -> & ->).
  apply read_material_node_done in Hm.
  apply read_temperature_node_done in Ht.
  apply read_translation_node_done in Hx.
  apply read_rotation_node_done in Hrot.
  cbn [id fill material sqrtkT translation rotation].
  split.
  { destruct (node_id node) as [text|]; [|discriminate Hid].
    exists text. split; [reflexivity|]. now apply raise_done. }
  split; [exact Hone|].
  split.
  { destruct (node_material node) as [mats|].
    - split; [discriminate|]. intros _. apply Hm.
    - split; [congruence|congruence]. }
  split.
  { intros mats Hmats. rewrite Hmats in Hm, Hone.
    destruct Hm as (_ & Hread & _).
    assert (Hnofill : node_fill node = None) by (apply Hone; discriminate).
    rewrite Hnofill in Hf. injection Hf as <-.
    split; [exact Hread|].
    split; [now apply read_materials_length|].
    split; [reflexivity|].
    split.
    - destruct (node_translation node); [|exact Hx]. now destruct Hx as (_ & ? & _).
    - destruct (node_rotation node); [|exact Hrot]. now destruct Hrot as (? & _). }
  split.
  { intros Hts. destruct (node_temperature node); [apply Ht|congruence]. }
  split.
  { intros temps Htemps. rewrite Htemps in Ht. now destruct Ht as (_ & ? & ?). }
  split.
  { intros Hxyz. destruct (node_translation node); [apply Hx|congruence]. }
  unfold constructed. cbn [id region rpn simple]. rewrite Hr.
  now destruct compiled as [[? ?] ?].
Qed.

Lemma constructor_invariants_witness :
  exists c x,
    sample_Cell_new sample_node = Done (c, x) /\
    material c = [1; -1] /\ fill c = -1 /\
    sqrtkT c = [sample_sqrt_kT 300%float] /\
    rpn c = [1; -2; INT_MAX - 3].
Proof.
  set (c := @Build_Cell binary64_doubles 3 0 0 (-1) [1; -1]
              [sample_sqrt_kT 300%float]
              [1; INT_MAX - 3; -2] [1; -2; INT_MAX - 3] true).
  set (x := @Build_cell_extras binary64_doubles ""%string [] []).
  destruct (@constructor_invariants top_codes binary64_doubles
              sample_constants (-1) 0%float sample_sqrt_kT
              (fun _ _ _ => []) (fun k => k - 1) 0 sample_node c x)
    as (_ & _ & _ & Hmats & _ & Htemps & _ & _).
  - reflexivity.
  - exists c, x. split; [reflexivity|].
    destruct (Hmats _ eq_refl) as (_ & _ & Hfill & _).
    destruct (Htemps _ eq_refl) as (Hsqrt & _).
    split; [reflexivity|]. split; [exact Hfill|].
    split; [exact Hsqrt|reflexivity].
Defined.

Section CompilerTokens.
Context `{OpCodes}.
Hypothesis Hc : codes_ordered.

#[local] Abbreviation regular := (fun t : Z => t <? OP_RIGHT_PAREN).
#[local] Abbreviation operand := (fun t : Z => t <? OP_UNION).

(** The operator stack holds operators and left parentheses, never an
    operand. *)
#[local] Abbreviation operators_only :=
  (Forall (fun op : Z => OP_UNION <= op < OP_RIGHT_PAREN \/ op = OP_LEFT_PAREN)).

Lemma filter_regular_stack (popped : list Z) :
  operators_only popped -> ~ In OP_LEFT_PAREN popped ->
  filter regular popped = popped /\ filter operand popped = [].
Proof.
  induction popped as [|op popped IH]; intros Hall Hnot; [now split|].
  inversion Hall as [|? ? Hop Hrest]; subst.
  cbn [In] in Hnot.
  destruct IH as [IH1 IH2]; [assumption|tauto|].
  cbn [filter]. rewrite IH1, IH2.
  destruct Hop as [[Hlo Hhi]|E]; [|exfalso; apply Hnot; now left].
  rewrite (proj2 (Z.ltb_lt _ _) Hhi), (proj2 (Z.ltb_ge _ _) Hlo). now split.
Qed.

Lemma pop_operators_moves (token : Z) :
  forall (stack rpn : list Z),
    exists popped,
      pop_operators token rpn stack
      = (rpn ++ popped, skipn (length popped) stack) /\
      stack = popped ++ skipn (length popped) stack /\
      Forall (fun op => op < OP_RIGHT_PAREN) popped.
Proof.
  induction stack as [|op below IH]; intros rpn.
  - exists []. cbn. now rewrite app_nil_r.
  - cbn [pop_operators].
    destruct (Z.ltb_spec op OP_RIGHT_PAREN) as [Hreg|Hpar]; cbn [andb].
    + destruct (_ || _).
      * destruct (IH (rpn ++ [op])) as (popped & Hpop & Hstack & Hall).
        exists (op :: popped). cbn [length skipn app].
        rewrite Hpop, <- app_assoc. cbn [app].
        repeat split; [now f_equal|now constructor].
      * exists []. cbn. now rewrite app_nil_r.
    + exists []. cbn. now rewrite app_nil_r.
Qed.

Lemma pop_to_left_paren_moves (cell_id : Z) :
  forall (stack rpn rpn' stack' : list Z),
    pop_to_left_paren cell_id rpn stack = Ok (rpn', stack') ->
    exists popped,
      rpn' = rpn ++ popped /\
      stack = popped ++ OP_LEFT_PAREN :: stack' /\
      ~ In OP_LEFT_PAREN popped.
Proof.
  induction stack as [|op below IH]; intros rpn rpn' stack';
    cbn [pop_to_left_paren]; [discriminate|].
  destruct (Z.eqb_spec op OP_LEFT_PAREN) as [->|Hne].
  - intros [= <- <-]. exists []. rewrite app_nil_r. now repeat split.
  - intros Hpop. apply IH in Hpop as (popped & -> & -> & Hnot).
    exists (op :: popped). rewrite <- app_assoc.
    repeat split. cbn [In]. tauto.
Qed.

Lemma drain_stack_moves (cell_id : Z) :
  forall (stack rpn rpn' : list Z),
    drain_stack cell_id rpn stack = Ok rpn' ->
    rpn' = rpn ++ stack /\ Forall (fun op => op < OP_RIGHT_PAREN) stack.
Proof.
  induction stack as [|op below IH]; intros rpn rpn'; cbn [drain_stack].
  - intros [= <-]. now rewrite app_nil_r.
  - destruct (Z.leb_spec OP_RIGHT_PAREN op); [discriminate|].
    intros Hdrain. apply IH in Hdrain as [-> Hall].
    rewrite <- app_assoc. split; [reflexivity|now constructor].
Qed.

(** The main loop moves tokens and loses none but parentheses: the
    output and the regular operators on the stack are, up to order, what
    they were plus the regular tokens read; the operands of the output
    are those it had and those read, in that order. *)
Lemma rpn_loop_tokens (cell_id : Z) :
  forall (infix rpn stack rpn' stack' : list Z),
    operators_only stack ->
    rpn_loop cell_id infix rpn stack = Ok (rpn', stack') ->
    operators_only stack' /\
    Permutation (rpn' ++ filter regular stack')
                (rpn ++ filter regular stack ++ filter regular infix) /\
    filter operand rpn' = filter operand rpn ++ filter operand infix.
Proof.
  pose proof Hc as Hord. unfold codes_ordered in Hord.
  induction infix as [|token rest IH]; intros rpn stack rpn' stack' Hstack.
  - cbn. intros [= <- <-]. rewrite !app_nil_r. now repeat split.
  - cbn [rpn_loop filter].
    destruct (Z.ltb_spec token OP_UNION) as [Hoperand|Hoperator].
    + (* an operand *)
      destruct (Z.ltb_spec token OP_RIGHT_PAREN); [|lia].
      intros Hrun. apply IH in Hrun as (Hs & Hperm & Hops); [|assumption].
      split; [exact Hs|]. split.
      * rewrite Hperm, <- app_assoc. cbn [app].
        apply Permutation_app_head. apply Permutation_middle.
      * rewrite Hops, filter_app. cbn [filter].
        rewrite (proj2 (Z.ltb_lt _ _) Hoperand). now rewrite <- app_assoc.
    + destruct (Z.ltb_spec token OP_RIGHT_PAREN) as [Hregular|Hparen].
      * (* a regular operator *)
        destruct (pop_operators_moves token stack rpn)
          as (popped & Hpop & Hsplit & Hall).
        rewrite Hpop. intros Hrun.
        remember (skipn (length popped) stack) as below eqn:Ebelow.
        clear Ebelow.
        assert (Hparts : operators_only popped /\ operators_only below)
          by (apply Forall_app; now rewrite <- Hsplit).
        destruct Hparts as [Hpopped Hbelow].
        assert (Hnot : ~ In OP_LEFT_PAREN popped).
        { intros Hin. rewrite Forall_forall in Hall.
          apply Hall in Hin. lia. }
        destruct (filter_regular_stack popped Hpopped Hnot) as [Hreg Hnone].
        apply IH in Hrun as (Hs & Hperm & Hops);
          [|constructor; [left; lia|exact Hbelow]].
        split; [exact Hs|]. split.
        -- rewrite Hperm. cbn [filter].
           rewrite (proj2 (Z.ltb_lt _ _) Hregular).
           rewrite Hsplit, filter_app, Hreg.
           rewrite <- !app_assoc. apply Permutation_app_head.
           apply Permutation_app_head. cbn [app].
           apply Permutation_middle.
        -- rewrite Hops, filter_app, Hnone, app_nil_r. reflexivity.
      * destruct (Z.eqb_spec token OP_LEFT_PAREN) as [->|Hright].
        -- (* a left parenthesis *)
           intros Hrun.
           apply IH in Hrun as (Hs & Hperm & Hops);
             [|constructor; [now right|exact Hstack]].
           split; [exact Hs|]. split; [|exact Hops].
           rewrite Hperm. cbn [filter].
           destruct (Z.ltb_spec OP_LEFT_PAREN OP_RIGHT_PAREN); [lia|].
           reflexivity.
        -- (* a right parenthesis *)
           destruct (pop_to_left_paren cell_id rpn stack)
             as [[rpn1 stack1]|f] eqn:Hpop; [|discriminate].
           cbn [bind]. intros Hrun.
           apply pop_to_left_paren_moves in Hpop as (popped & -> & -> & Hnot).
           apply Forall_app in Hstack as [Hpopped Hbelow].
           inversion Hbelow as [|? ? _ Hbelow']; subst.
           destruct (filter_regular_stack popped Hpopped Hnot) as [Hreg Hnone].
           apply IH in Hrun as (Hs & Hperm & Hops); [|assumption].
           split; [exact Hs|]. split.
           ++ rewrite Hperm, filter_app, Hreg. cbn [filter].
              destruct (Z.ltb_spec OP_LEFT_PAREN OP_RIGHT_PAREN); [lia|].
              now rewrite <- !app_assoc.
           ++ rewrite Hops, filter_app, Hnone, app_nil_r. reflexivity.
Qed.

Lemma generate_rpn_tokens (cell_id : Z) (infix rpn : list Z) :
  generate_rpn cell_id infix = Ok rpn ->
  Permutation rpn (filter regular infix) /\
  filter operand rpn = filter operand infix.
Proof.
  unfold generate_rpn.
  destruct (rpn_loop cell_id infix [] []) as [[rpn1 stack1]|f] eqn:Hloop;
    [|discriminate].
  cbn [bind]. intros Hdrain.
  apply rpn_loop_tokens in Hloop as (Hstack & Hperm & Hops);
    [|constructor].
  apply drain_stack_moves in Hdrain as [-> Hall].
  cbn [app filter] in Hperm, Hops.
  assert (Hnot : ~ In OP_LEFT_PAREN stack1).
  { intros Hin. rewrite Forall_forall in Hall. apply Hall in Hin.
    unfold codes_ordered in Hc. lia. }
  destruct (filter_regular_stack stack1 Hstack Hnot) as [Hreg Hnone].
  rewrite Hreg in Hperm. split; [exact Hperm|].
  now rewrite filter_app, Hnone, app_nil_r.
Qed.

End CompilerTokens.

(** The compiler keeps every token but the parentheses: the postfix
    form is a rearrangement of the operands and regular operators of
    the infix form, it holds no parenthesis, and its operands stand in
    the order in which the region lists them. *)
Theorem generate_rpn_keeps_tokens `{OpCodes} (cell_id : Z)
    (infix rpn : list Z) :
  codes_ordered ->
  generate_rpn cell_id infix = Ok rpn ->
  Permutation rpn (filter (fun t => t <? OP_RIGHT_PAREN) infix) /\
  filter (fun t => t <? OP_UNION) rpn = filter (fun t => t <? OP_UNION) infix /\
  Forall (fun t => t < OP_RIGHT_PAREN) rpn /\
  (length rpn <= length infix)%nat.
Proof.
  intros Hc Hgen.
  destruct (generate_rpn_tokens Hc cell_id infix rpn Hgen) as [Hperm Hops].
  split; [exact Hperm|]. split; [exact Hops|]. split.
  - apply Forall_forall. intros t Ht.
    apply (Permutation_in _ Hperm) in Ht.
    apply filter_In in Ht as [_ Ht]. now apply Z.ltb_lt.
  - rewrite (Permutation_length Hperm). apply filter_length_le.
Qed.

Section DistanceOrder.
Context `{OpCodes} `{Doubles}.
Variable global_surfaces : Z -> Surface.
Variables (r : Position) (u : Direction) (on_surface : Z).

Lemma distance_rpn_operands :
  forall (tokens : list Z) (acc : double * Z),
    distance_rpn global_surfaces r u on_surface tokens acc
    = distance_rpn global_surfaces r u on_surface
        (filter (fun t => t <? OP_UNION) tokens) acc.
Proof.
  unfold distance_rpn.
  induction tokens as [|t tokens IH]; intros [m s]; [reflexivity|].
  cbn [fold_left filter].
  destruct (Z.ltb_spec t OP_UNION) as [Hop|Hop]; cbn [fold_left].
  - apply IH.
  - rewrite <- IH. f_equal. unfold distance_step.
    now rewrite (proj2 (Z.leb_le _ _) Hop).
Qed.

End DistanceOrder.

(** [Cell::distance] of a constructed cell goes through the surfaces of
    the region in the order in which the region names them, whatever
    the operators and parentheses between them: it is the running-minimum
    loop over the operands of the infix form, and two cells that name the
    same surfaces in the same order report the same pair. *)
Theorem distance_follows_region_order `{OpCodes} `{Doubles}
    (global_surfaces : Z -> Surface) (r : Position) (u : Direction)
    (on_surface : Z) (surface_map : Z -> Z) (region_spec : string)
    (c : Cell) :
  codes_ordered ->
  constructed surface_map region_spec c ->
  Cell_distance global_surfaces r u on_surface c
  = distance_rpn global_surfaces r u on_surface
      (filter (fun t => t <? OP_UNION) (region c)) (INFTY, INT_MAX) /\
  forall (region_spec' : string) (c' : Cell),
    constructed surface_map region_spec' c' ->
    filter (fun t => t <? OP_UNION) (region c')
    = filter (fun t => t <? OP_UNION) (region c) ->
    Cell_distance global_surfaces r u on_surface c'
    = Cell_distance global_surfaces r u on_surface c.
Proof.
  intros Hc Hcons.
  assert (Horder : forall spec cell,
             constructed surface_map spec cell ->
             Cell_distance global_surfaces r u on_surface cell
             = distance_rpn global_surfaces r u on_surface
                 (filter (fun t => t <? OP_UNION) (region cell))
                 (INFTY, INT_MAX)).
  { intros spec cell. unfold constructed, compile_region.
    destruct (tokenize spec) as [tokens|f]; cbn [bind]; [|discriminate].
    destruct (generate_rpn _ _) as [postfix|f] eqn:Hgen; cbn [bind];
      [|discriminate].
    intros E. injection E as Hregion Hrpn _.
    rewrite Hregion, Hrpn in Hgen.
    apply (generate_rpn_tokens Hc) in Hgen as [_ Hops].
    unfold Cell_distance. now rewrite distance_rpn_operands, Hops. }
  split; [now apply Horder with (spec := region_spec)|].
  intros spec' c' Hcons' Hsame.
  rewrite (Horder spec' c' Hcons'), (Horder region_spec c Hcons).
  now rewrite Hsame.
Qed.

Lemma generate_rpn_keeps_tokens_witness :
  Permutation (rpn cell_9)
    (filter (fun t => t <? @OP_RIGHT_PAREN top_codes) (region cell_9)) /\
  filter (fun t => t <? @OP_UNION top_codes) (rpn cell_9)
  = filter (fun t => t <? @OP_UNION top_codes) (region cell_9) /\
  Forall (fun t => t < @OP_RIGHT_PAREN top_codes) (rpn cell_9) /\
  (length (rpn cell_9) <= length (region cell_9))%nat.
Proof.
  apply (@generate_rpn_keeps_tokens top_codes 9 (region cell_9) (rpn cell_9)
           top_codes_ordered).
  reflexivity.
Defined.

Lemma distance_follows_region_order_witness :
  @Cell_distance top_codes binary64_doubles tie_surfaces origin heading 0
    cell_9
  = @distance_rpn top_codes binary64_doubles tie_surfaces origin heading 0
      [1; -2; 3; 4] (@INFTY binary64_doubles, INT_MAX).
Proof.
  apply (proj1 (@distance_follows_region_order top_codes binary64_doubles
                  tie_surfaces origin heading 0 (fun k => k - 1)
                  "1 -2 | ~(3 4)" cell_9 top_codes_ordered eq_refl)).
Defined.

Section ScanFailures.
Context `{OpCodes}.

Lemma take_drop_digits (s : list ascii) :
  s = take_digits s ++ drop_digits s.
Proof.
  induction s as [|c s IH]; [reflexivity|].
  cbn [take_digits drop_digits]. destruct (isdigit c); [|reflexivity].
  cbn [app]. now f_equal.
Qed.

Lemma take_digits_digits (s : list ascii) :
  forallb isdigit (take_digits s) = true.
Proof.
  induction s as [|c s IH]; [reflexivity|].
  cbn [take_digits]. destruct (isdigit c) eqn:E; [|reflexivity].
  cbn [forallb]. now rewrite E.
Qed.

Lemma drop_digits_no_leading_digit (s : list ascii) :
  no_leading_digit (drop_digits s).
Proof.
  induction s as [|c s IH]; [exact I|].
  cbn [drop_digits]. destruct (isdigit c) eqn:E; [exact IH|exact E].
Qed.

(** [std::stoi] on what the first loop hands it: a sign or a digit,
    then digits. *)
Lemma stoi_cases (c : ascii) (ds : list ascii) :
  ((c =? "-")%char || (c =? "+")%char || isdigit c) = true ->
  forallb isdigit ds = true ->
  (((c =? "-")%char || (c =? "+")%char) = true /\ ds = [] /\
   stoi (c :: ds) = Fail StoiInvalidArgument) \/
  (is_literal (c :: ds) = true /\
   stoi (c :: ds)
   = if (INT_MIN <=? literal_value (c :: ds)) &&
        (literal_value (c :: ds) <=? INT_MAX)
     then Ok (literal_value (c :: ds)) else Fail StoiOutOfRange).
Proof.
  intros Hhead Hds.
  destruct ds as [|d ds].
  - destruct c as [[] [] [] [] [] [] [] []]; try discriminate Hhead;
      first [ left; repeat split; reflexivity
            | right; split; reflexivity ].
  - right.
    assert (Hlit : is_literal (c :: d :: ds) = true).
    { unfold is_literal.
      destruct c as [[] [] [] [] [] [] [] []]; try discriminate Hhead;
        cbn -[forallb]; exact Hds. }
    split; [exact Hlit|].
    destruct ((INT_MIN <=? literal_value (c :: d :: ds)) &&
              (literal_value (c :: d :: ds) <=? INT_MAX)) eqn:Hrange.
    + apply stoi_literal; [exact Hlit|].
      apply andb_prop in Hrange as [H1 H2].
      apply Z.leb_le in H1. apply Z.leb_le in H2. lia.
    + unfold stoi, literal_value in *.
      destruct c as [[] [] [] [] [] [] [] []]; try discriminate Hhead;
        cbv beta iota;
        first [ rewrite (take_digits_all (d :: ds) Hds)
              | change (take_digits (?a :: d :: ds))
                  with (a :: take_digits (d :: ds));
                rewrite (take_digits_all (d :: ds) Hds) ];
        cbv beta iota; now rewrite Hrange.
Qed.


(** Why the first loop fails. *)
Lemma scan_tokens_failure :
  forall (fuel : nat) (rest : list ascii) (tokens : list Z) (f : failure),
    (length rest <= fuel)%nat ->
    scan_tokens fuel rest tokens = Fail f ->
    exists before after,
      rest = before ++ after /\
      ((exists c tl, after = c :: tl /\ f = InvalidCharacter c /\
                     region_char c = false) \/
       (exists sign tl, after = sign :: tl /\ f = StoiInvalidArgument /\
                        (sign = "-"%char \/ sign = "+"%char) /\
                        no_leading_digit tl) \/
       (exists lit tl, after = lit ++ tl /\ f = StoiOutOfRange /\
                       is_literal lit = true /\ no_leading_digit tl /\
                       ~ INT_MIN <= literal_value lit <= INT_MAX)).
Proof.
  induction fuel as [|fuel IH]; intros rest tokens f Hfuel Hscan.
  { destruct rest; [discriminate Hscan|cbn in Hfuel; lia]. }
  destruct rest as [|c tl]; [discriminate Hscan|].
  cbn [length] in Hfuel. cbn [scan_tokens] in Hscan.
  assert (Hnext : forall tokens',
             scan_tokens fuel tl tokens' = Fail f ->
             exists before after,
               c :: tl = before ++ after /\
               ((exists c tl, after = c :: tl /\ f = InvalidCharacter c /\
                              region_char c = false) \/
                (exists sign tl, after = sign :: tl /\
                                 f = StoiInvalidArgument /\
                                 (sign = "-"%char \/ sign = "+"%char) /\
                                 no_leading_digit tl) \/
                (exists lit tl, after = lit ++ tl /\ f = StoiOutOfRange /\
                                is_literal lit = true /\
                                no_leading_digit tl /\
                                ~ INT_MIN <= literal_value lit <= INT_MAX))).
  { intros tokens' Hrec.
    apply IH in Hrec as (before & after & -> & Hcase); [|lia].
    exists (c :: before), after. now split. }
  destruct (c =? "(")%char eqn:E1; [now apply Hnext in Hscan|].
  destruct (c =? ")")%char eqn:E2; [now apply Hnext in Hscan|].
  destruct (c =? "|")%char eqn:E3; [now apply Hnext in Hscan|].
  destruct (c =? "~")%char eqn:E4; [now apply Hnext in Hscan|].
  destruct ((c =? "-")%char || (c =? "+")%char || isdigit c) eqn:E5.
  - destruct (stoi_cases c (take_digits tl) E5 (take_digits_digits tl))
      as [(Hsign & Hnone & Hstoi)|(Hlit & Hstoi)].
    + rewrite Hstoi in Hscan. cbn [bind] in Hscan. injection Hscan as <-.
      exists [], (c :: tl). split; [reflexivity|]. right. left.
      exists c, tl. repeat split.
      * apply orb_prop in Hsign as [E|E]; apply Ascii.eqb_eq in E; auto.
      * rewrite (take_drop_digits tl), Hnone. cbn [app].
        apply drop_digits_no_leading_digit.
    + rewrite Hstoi in Hscan.
      destruct ((INT_MIN <=? _) && (_ <=? INT_MAX)) eqn:Hrange;
        cbn [bind] in Hscan.
      * apply IH in Hscan as (before & after & Hsplit & Hcase);
          [|pose proof (drop_digits_length tl); lia].
        exists ((c :: take_digits tl) ++ before), after.
        split; [|exact Hcase].
        rewrite <- app_assoc, <- Hsplit. cbn [app]. f_equal.
        apply take_drop_digits.
      * injection Hscan as <-.
        exists [], (c :: tl). split; [reflexivity|]. right. right.
        exists (c :: take_digits tl), (drop_digits tl).
        split; [cbn [app]; f_equal; apply take_drop_digits|].
        split; [reflexivity|]. split; [exact Hlit|].
        split; [apply drop_digits_no_leading_digit|].
        intros [Hlo Hhi]. apply Z.leb_le in Hlo. apply Z.leb_le in Hhi.
        rewrite Hlo, Hhi in Hrange. discriminate Hrange.
  - destruct (isspace c) eqn:E6; [now apply Hnext in Hscan|].
    injection Hscan as <-.
    exists [], (c :: tl). split; [reflexivity|]. left.
    exists c, tl. repeat split. unfold region_char.
    rewrite E1, E2, E3, E4, E6. cbn [orb].
    apply orb_false_elim in E5 as [E5 Hd].
    apply orb_false_elim in E5 as [Em Ep].
    now rewrite Em, Ep, Hd.
Qed.

(** What the first loop returns: the tokens it had and those of the
    text, and these are none only for blank text. *)
Lemma scan_tokens_blank :
  forall (fuel : nat) (rest : list ascii) (tokens tokens' : list Z),
    scan_tokens fuel rest tokens = Ok tokens' ->
    exists new,
      tokens' = tokens ++ new /\
      (new = [] -> forallb isspace rest = true).
Proof.
  induction fuel as [|fuel IH]; intros rest tokens tokens' Hscan.
  { destruct rest; [|discriminate Hscan]. injection Hscan as <-.
    exists []. now rewrite app_nil_r. }
  destruct rest as [|c tl].
  { injection Hscan as <-. exists []. now rewrite app_nil_r. }
  cbn [scan_tokens] in Hscan.
  assert (Hpush : forall t rest',
             scan_tokens fuel rest' (tokens ++ [t]) = Ok tokens' ->
             exists new,
               tokens' = tokens ++ new /\
               (new = [] -> forallb isspace (c :: tl) = true)).
  { intros t rest' Hrec. apply IH in Hrec as (new & -> & _).
    exists (t :: new). rewrite <- app_assoc. split; [reflexivity|].
    discriminate. }
  destruct (c =? "(")%char; [now apply Hpush in Hscan|].
  destruct (c =? ")")%char; [now apply Hpush in Hscan|].
  destruct (c =? "|")%char; [now apply Hpush in Hscan|].
  destruct (c =? "~")%char; [now apply Hpush in Hscan|].
  destruct ((c =? "-")%char || (c =? "+")%char || isdigit c).
  - destruct (stoi (c :: take_digits tl)) as [v|]; [|discriminate Hscan].
    cbn [bind] in Hscan. now apply Hpush in Hscan.
  - destruct (isspace c) eqn:Hspace; [|discriminate Hscan].
    apply IH in Hscan as (new & -> & Hblank).
    exists new. split; [reflexivity|].
    intros Hnew. cbn [forallb]. now rewrite Hspace, Hblank.
Qed.

End ScanFailures.

(** Why [tokenize] fails.  A region string fails in one of four ways:
    at a character that is no part of the region syntax, with the
    invalid-character error; at a sign that no digit follows, with the
    [std::invalid_argument] of [std::stoi]; at a literal outside [int],
    with its [std::out_of_range]; and, for a string that is blank but
    not empty, with an access outside the empty token vector.  Every
    other string tokenizes. *)
Theorem tokenize_failure `{OpCodes} (region_spec : string) (f : failure) :
  codes_ordered ->
  tokenize region_spec = Fail f ->
  exists before after,
    list_ascii_of_string region_spec = before ++ after /\
    ((exists c tl, after = c :: tl /\ f = InvalidCharacter c /\
                   region_char c = false) \/
     (exists sign tl, after = sign :: tl /\ f = StoiInvalidArgument /\
                      (sign = "-"%char \/ sign = "+"%char) /\
                      no_leading_digit tl) \/
     (exists lit tl, after = lit ++ tl /\ f = StoiOutOfRange /\
                     is_literal lit = true /\ no_leading_digit tl /\
                     ~ INT_MIN <= literal_value lit <= INT_MAX) \/
     (f = OutOfRangeAccess /\ before = [] /\ after <> [] /\
      forallb isspace after = true)).
Proof.
  intros Hc. unfold tokenize.
  destruct (list_ascii_of_string region_spec) as [|c s] eqn:Echars;
    [discriminate|].
  destruct (scan_tokens (length (c :: s)) (c :: s) []) as [tokens|f0] eqn:Hscan;
    cbn [bind].
  - intros Hadd. destruct tokens as [|t tokens].
    + rewrite add_intersections_empty in Hadd. injection Hadd as <-.
      apply scan_tokens_blank in Hscan as (new & Hnew & Hblank).
      exists [], (c :: s). split; [reflexivity|]. do 3 right.
      repeat split; [discriminate|]. apply Hblank.
      now destruct new.
    + now rewrite (add_intersections_nonempty Hc) in Hadd.
  - intros [= <-].
    apply scan_tokens_failure in Hscan as (before & after & Hsplit & Hcase);
      [|apply Nat.le_refl].
    exists before, after. split; [exact Hsplit|].
    destruct Hcase as [Hcase|[Hcase|Hcase]]; auto.
Qed.

Section ScanSuccess.
Context `{OpCodes}.
Hypothesis Hc : codes_ordered.

Lemma stoi_range (str : list ascii) (v : Z) :
  stoi str = Ok v -> INT_MIN <= v <= INT_MAX.
Proof.
  unfold stoi.
  destruct (match str with
            | "-"%char :: tl => (true, tl)
            | "+"%char :: tl => (false, tl)
            | _ => (false, str)
            end) as [negative body].
  destruct (take_digits body) as [|d ds]; [discriminate|].
  destruct (Z.leb_spec INT_MIN
              (if negative then - decimal (d :: ds) else decimal (d :: ds)));
    [|discriminate].
  destruct (Z.leb_spec
              (if negative then - decimal (d :: ds) else decimal (d :: ds))
              INT_MAX); [|discriminate].
  cbn [andb]. intros [= <-]. lia.
Qed.

(** What the first loop accepts: text in the characters of the region
    syntax, and tokens that fit [int32_t]. *)
Lemma scan_tokens_accepts :
  forall (fuel : nat) (rest : list ascii) (tokens tokens' : list Z),
    Forall (fun t => INT_MIN <= t <= INT_MAX) tokens ->
    scan_tokens fuel rest tokens = Ok tokens' ->
    forallb region_char rest = true /\
    Forall (fun t => INT_MIN <= t <= INT_MAX) tokens'.
Proof.
  pose proof Hc as Hord. unfold codes_ordered in Hord.
  induction fuel as [|fuel IH]; intros rest tokens tokens' Hall Hscan.
  { destruct rest; [|discriminate Hscan]. injection Hscan as <-. now split. }
  destruct rest as [|c tl].
  { injection Hscan as <-. now split. }
  cbn [scan_tokens] in Hscan. cbn [forallb]. unfold region_char at 1.
  assert (Hpush : forall t, INT_MIN <= t <= INT_MAX ->
             Forall (fun t => INT_MIN <= t <= INT_MAX) (tokens ++ [t])).
  { intros t Ht. apply Forall_app. split; [exact Hall|now constructor]. }
  destruct (c =? "(")%char;
    [apply IH in Hscan as [-> ?]; [now split|apply Hpush; lia]|].
  destruct (c =? ")")%char;
    [apply IH in Hscan as [-> ?]; [now split|apply Hpush; lia]|].
  destruct (c =? "|")%char;
    [apply IH in Hscan as [-> ?]; [now split|apply Hpush; lia]|].
  destruct (c =? "~")%char;
    [apply IH in Hscan as [-> ?]; [now split|apply Hpush; lia]|].
  destruct ((c =? "-")%char || (c =? "+")%char || isdigit c) eqn:E5.
  - destruct (stoi (c :: take_digits tl)) as [v|] eqn:Hstoi;
      [|discriminate Hscan].
    cbn [bind] in Hscan. apply stoi_range in Hstoi.
    apply IH in Hscan as [Hrest Htokens]; [|now apply Hpush].
    split; [|exact Htokens]. cbn [orb].
    replace ((c =? "-")%char || (c =? "+")%char || isdigit c || isspace c)
      with true by (now rewrite E5).
    cbn [andb]. rewrite (take_drop_digits tl), forallb_app, Hrest.
    rewrite andb_true_r. clear.
    induction tl as [|d tl IHtl]; [reflexivity|].
    cbn [take_digits]. destruct (isdigit d) eqn:Hd; [|reflexivity].
    cbn [forallb]. rewrite IHtl, andb_true_r. unfold region_char.
    rewrite Hd. now rewrite !orb_true_r.
  - destruct (isspace c) eqn:E6; [|discriminate Hscan].
    apply IH in Hscan as [-> ?]; [|exact Hall].
    cbn [orb]. rewrite E5. now split.
Qed.

Lemma with_intersections_forall (P : Z -> Prop) :
  P OP_INTERSECTION ->
  forall tokens : list Z,
    Forall P tokens -> Forall P (with_intersections tokens).
Proof.
  intros Hi. induction tokens as [|t tokens IH]; intros Hall; [constructor|].
  inversion Hall as [|? ? Ht Hrest]; subst.
  destruct tokens as [|t' tokens]; [now constructor|].
  rewrite with_intersections_pair.
  destruct (left_compat t && right_compat t'); repeat constructor; auto.
Qed.

End ScanSuccess.

(** What [tokenize] accepts.  A string that tokenizes is written in the
    characters of the region syntax alone; its tokens fit [int32_t];
    and it has no token only if it is the empty string. *)
Theorem tokenize_success `{OpCodes} (region_spec : string)
    (tokens : list Z) :
  codes_ordered ->
  tokenize region_spec = Ok tokens ->
  forallb region_char (list_ascii_of_string region_spec) = true /\
  Forall (fun t => INT_MIN <= t <= INT_MAX) tokens /\
  (tokens = [] <-> region_spec = ""%string).
Proof.
  intros Hc. pose proof Hc as Hord. unfold codes_ordered in Hord.
  unfold tokenize.
  destruct (list_ascii_of_string region_spec) as [|c s] eqn:Echars.
  - intros [= <-]. repeat split; [constructor|].
    intros _. destruct region_spec; [reflexivity|discriminate Echars].
  - destruct (scan_tokens (length (c :: s)) (c :: s) []) as [raw|f] eqn:Hscan;
      cbn [bind]; [|discriminate].
    apply (scan_tokens_accepts Hc) in Hscan as [Hchars Hraw]; [|constructor].
    intros Hadd. destruct raw as [|t raw].
    { rewrite add_intersections_empty in Hadd. discriminate Hadd. }
    rewrite (add_intersections_nonempty Hc) in Hadd.
    assert (Htokens : tokens = with_intersections (t :: raw)) by congruence.
    clear Hadd. rewrite Htokens.
    split; [exact Hchars|]. split.
    + apply with_intersections_forall; [lia|exact Hraw].
    + split.
      * intros Hnone. destruct raw as [|t' raw]; [discriminate Hnone|].
        rewrite with_intersections_pair in Hnone.
        destruct (_ && _); discriminate Hnone.
      * intros ->. discriminate Echars.
Qed.

Lemma tokenize_failure_witness :
  exists before after,
    list_ascii_of_string "1 - 2" = before ++ after /\
    ((exists c tl, after = c :: tl /\
                   StoiInvalidArgument = InvalidCharacter c /\
                   region_char c = false) \/
     (exists sign tl, after = sign :: tl /\
                      StoiInvalidArgument = StoiInvalidArgument /\
                      (sign = "-"%char \/ sign = "+"%char) /\
                      no_leading_digit tl) \/
     (exists lit tl, after = lit ++ tl /\
                     StoiInvalidArgument = StoiOutOfRange /\
                     is_literal lit = true /\ no_leading_digit tl /\
                     ~ INT_MIN <= literal_value lit <= INT_MAX) \/
     (StoiInvalidArgument = OutOfRangeAccess /\ before = [] /\
      after <> [] /\ forallb isspace after = true)).
Proof.
  apply (@tokenize_failure top_codes "1 - 2" StoiInvalidArgument
           top_codes_ordered).
  reflexivity.
Defined.

Lemma tokenize_success_witness :
  forallb region_char (list_ascii_of_string "1 -2 | ~(3 4)") = true /\
  Forall (fun t => INT_MIN <= t <= INT_MAX) (region cell_9) /\
  (region cell_9 = [] <-> "1 -2 | ~(3 4)"%string = ""%string).
Proof.
  apply (@tokenize_success top_codes "1 -2 | ~(3 4)" (region cell_9)
           top_codes_ordered).
  reflexivity.
Defined.

Example tokenize_failures :
  @tokenize top_codes "1 & 2" = Fail (InvalidCharacter "&") /\
  @tokenize top_codes "1 - 2" = Fail StoiInvalidArgument /\
  @tokenize top_codes "1 99999999999" = Fail StoiOutOfRange /\
  @tokenize top_codes "   " = Fail OutOfRangeAccess.
Proof. repeat split; reflexivity. Qed.

Section StackBound.
Context `{OpCodes} `{Doubles}.
Variable global_surfaces : Z -> Surface.
Variables (r : Position) (u : Direction) (on_surface : Z).

Lemma complex_step_grows (stack stack' : list bool) (token : Z) :
  complex_step global_surfaces r u on_surface stack token = Ok stack' ->
  (1 <= length stack' <= S (length stack))%nat.
Proof.
  unfold complex_step.
  destruct (token =? OP_UNION);
    [destruct stack as [|b [|a below]]; try discriminate;
     intros [= <-]; cbn [length]; lia|].
  destruct (token =? OP_INTERSECTION);
    [destruct stack as [|b [|a below]]; try discriminate;
     intros [= <-]; cbn [length]; lia|].
  destruct (token =? OP_COMPLEMENT);
    [destruct stack as [|b below]; try discriminate;
     intros [= <-]; cbn [length]; lia|].
  destruct (token =? on_surface); [intros [= <-]; cbn [length]; lia|].
  destruct (- token =? on_surface); intros [= <-]; cbn [length]; lia.
Qed.

Lemma complex_loop_grows :
  forall (tokens : list Z) (stack stack' : list bool),
    complex_loop global_surfaces r u on_surface tokens stack = Ok stack' ->
    (length stack' <= length stack + length tokens)%nat /\
    (tokens <> [] -> 1 <= length stack')%nat.
Proof.
  induction tokens as [|t tokens IH]; intros stack stack'.
  - cbn. intros [= <-]. split; [lia|congruence].
  - cbn [complex_loop].
    destruct (complex_step global_surfaces r u on_surface stack t)
      as [stack1|f] eqn:Hstep; [|discriminate].
    cbn [bind]. intros Hloop.
    apply complex_step_grows in Hstep.
    pose proof (IH stack1 stack' Hloop) as [Hle Hpos].
    cbn [length]. split; [lia|]. intros _.
    destruct tokens as [|t' tokens]; [|apply Hpos; discriminate].
    cbn in Hloop. injection Hloop as <-. lia.
Qed.

End StackBound.

(** The stack of [contains_complex] is an array of [rpn.size()]
    entries.  Whenever the evaluator has got through a part of the
    postfix form without reading below the stack, the stack holds at
    least one entry and at most as many as there were tokens: the index
    [i_stack] stays below [rpn.size()], and the final read of
    [stack[i_stack]] is inside the array. *)
Theorem contains_complex_stack_bound `{OpCodes} `{Doubles}
    (global_surfaces : Z -> Surface) (r : Position) (u : Direction)
    (on_surface : Z) (c : Cell) (done rest : list Z) (stack : list bool) :
  rpn c = done ++ rest ->
  done <> [] ->
  complex_loop global_surfaces r u on_surface done [] = Ok stack ->
  (1 <= length stack <= length done)%nat /\
  (length stack <= length (rpn c))%nat.
Proof.
  intros Hrpn Hne Hloop.
  apply complex_loop_grows in Hloop as [Hle Hpos].
  cbn [length] in Hle. rewrite Hrpn, length_app.
  specialize (Hpos Hne). lia.
Qed.

Lemma contains_complex_stack_bound_witness :
  (1 <= length [true; false] <= length [1; -2]%Z)%nat /\
  (length [true; false] <= length (rpn cell_1))%nat.
Proof.
  apply (@contains_complex_stack_bound top_codes binary64_doubles
           negative_surfaces origin heading 0 cell_1 [1; -2]
           [INT_MAX - 3; 3; INT_MAX - 3] [true; false]).
  - reflexivity.
  - discriminate.
  - reflexivity.
Defined.

Section WrittenFacts.
Context `{OpCodes}.
Hypothesis Hc : codes_ordered.

(** The first loop on a written region. *)
Lemma scan_written :
  forall (items : list (list ascii * list ascii)) (raw tokens : list Z)
         (trail : list ascii) (fuel : nat),
    Forall2 spells (map snd items) raw ->
    well_spaced items trail ->
    (length (written items trail) <= fuel)%nat ->
    scan_tokens fuel (written items trail) tokens = Ok (tokens ++ raw).
Proof.
  induction items as [|[sep text] items IH];
    intros raw tokens trail fuel Hspell Hspaced Hfuel;
    inversion Hspell as [|? t ? raw' Ht Hrest]; subst.
  - unfold written in *. cbn [flat_map app well_spaced] in *.
    rewrite <- (app_nil_r trail).
    rewrite scan_tokens_space
      by (assumption || (rewrite app_nil_r; exact Hfuel)).
    rewrite app_nil_r. now destruct fuel.
  - destruct Hspaced as (Hsep & Hnext & Hspaced).
    unfold written in *. cbn [flat_map fst snd] in *.
    rewrite <- !app_assoc in *.
    rewrite scan_tokens_space by assumption.
    rewrite length_app in Hfuel.
    assert (Hitem : scan_tokens fuel
                      (text ++ flat_map (fun p => fst p ++ snd p) items
                            ++ trail) tokens
                    = scan_tokens fuel
                        (flat_map (fun p => fst p ++ snd p) items ++ trail)
                        (tokens ++ [t])).
    { destruct Ht as [[-> ->]|[[-> ->]|[[-> ->]|[[-> ->]|[Hlit ->]]]]].
      - apply scan_tokens_operator; [now left|cbn [app length] in *; lia].
      - apply scan_tokens_operator;
          [now right; left|cbn [app length] in *; lia].
      - apply scan_tokens_operator;
          [now right; right; left|cbn [app length] in *; lia].
      - apply scan_tokens_operator;
          [now right; right; right|cbn [app length] in *; lia].
      - destruct (operand_literal_range Hc text Hlit) as [Hl Hr].
        apply scan_tokens_literal; [exact Hl|exact Hr|now apply Hnext|lia]. }
    rewrite Hitem, (IH raw' (tokens ++ [t]) trail fuel Hrest Hspaced).
    + now rewrite <- app_assoc.
    + rewrite length_app in Hfuel. lia.
Qed.

End WrittenFacts.

(** The tokenizer is correct on the region grammar: however a region
    expression is written (any whitespace before a token and at the
    end, none needed except that no digit may follow a literal
    directly; any spelling of a literal with its value), the string
    tokenizes to the infix form of the expression, implicit
    intersections included. *)
Theorem tokenize_written_region `{OpCodes} (e : region_expr)
    (items : list (list ascii * list ascii)) (trail : list ascii) :
  codes_ordered ->
  operands_ok e ->
  Forall2 spells (map snd items) (without_intersections (infix_of e)) ->
  well_spaced items trail ->
  tokenize (string_of_list_ascii (written items trail)) = Ok (infix_of e).
Proof.
  intros Hc Hops Hspell Hspaced.
  destruct (infix_at_operand_form Hc e OP_UNION Hops)
    as (Hform & (q & ys & Hq & _) & _).
  fold (infix_of e) in Hform, Hq. unfold second_pass_form in Hform.
  unfold tokenize. rewrite list_ascii_of_string_of_list_ascii.
  pose proof (scan_written Hc items _ [] trail _ Hspell Hspaced
                (Nat.le_refl _)) as Hscan.
  cbn [app] in Hscan. rewrite Hq in Hscan, Hform.
  destruct (written items trail) as [|c cs]; [discriminate Hscan|].
  rewrite Hscan. cbn [bind].
  now rewrite (add_intersections_nonempty Hc), Hform.
Qed.

(** From the written region to the containment test.  A cell
    constructed from any writing of a region expression stores the
    postorder of the expression with the surface ids bound, is simple
    exactly when the expression is a pure intersection, and contains a
    point exactly when the bound expression holds there; neither
    evaluator reads outside its stack. *)
Theorem written_region_semantics `{OpCodes} `{Doubles}
    (global_surfaces : Z -> Surface) (r : Position) (u : Direction)
    (on_surface : Z) (surface_map : Z -> Z) (e : region_expr)
    (items : list (list ascii * list ascii)) (trail : list ascii)
    (c : Cell) :
  codes_ordered ->
  operands_ok e ->
  operands_ok (bind_expr surface_map e) ->
  Forall2 spells (map snd items) (without_intersections (infix_of e)) ->
  well_spaced items trail ->
  constructed surface_map (string_of_list_ascii (written items trail)) c ->
  rpn c = postfix_of (bind_expr surface_map e) /\
  simple c = conjunctive e /\
  contains global_surfaces r u on_surface c
  = Ok (holds global_surfaces r u on_surface (bind_expr surface_map e)).
Proof.
  intros Hc Hops Hbound Hspell Hspaced Hcons.
  destruct (infix_at_operand_form Hc e OP_UNION Hops)
    as (Hform & (q & ys & Hq & _) & _).
  fold (infix_of e) in Hform, Hq. unfold second_pass_form in Hform.
  unfold constructed, compile_region, tokenize in Hcons.
  rewrite list_ascii_of_string_of_list_ascii in Hcons.
  pose proof (scan_written Hc items _ [] trail _ Hspell Hspaced
                (Nat.le_refl _)) as Hscan.
  cbn [app] in Hscan. rewrite Hq in Hscan, Hform.
  destruct (written items trail) as [|c0 cs]; [discriminate Hscan|].
  rewrite Hscan in Hcons. cbn [bind] in Hcons.
  rewrite (add_intersections_nonempty Hc), Hform in Hcons.
  cbn [bind] in Hcons.
  unfold infix_of in Hcons. rewrite (map_bind_infix Hc) in Hcons.
  fold (infix_of (bind_expr surface_map e)) in Hcons.
  rewrite (generate_rpn_infix_of Hc) in Hcons by assumption.
  cbn [bind] in Hcons. inversion Hcons as [[Hregion Hrpn Hsimple]].
  assert (Hconj : conjunctive (bind_expr surface_map e) = conjunctive e).
  { clear. induction e; cbn; congruence. }
  split; [reflexivity|]. split.
  - rewrite (is_simple_postfix Hc) by assumption. exact Hconj.
  - unfold contains, contains_simple, contains_complex.
    rewrite <- Hsimple, <- Hrpn. now apply contains_postfix_of.
Qed.

(** The region "1 -2|~ (3 4)": no space is needed around the bar. *)
Lemma tokenize_written_region_witness :
  @tokenize top_codes "1 -2|~ (3 4) " = Ok (@infix_of top_codes sample_region).
Proof.
  apply (@tokenize_written_region top_codes sample_region
           (map (fun p => (list_ascii_of_string (fst p),
                           list_ascii_of_string (snd p)))
                [(""%string, "1"%string); (" ", "-2"); ("", "|"); ("", "~");
                 (" ", "("); ("", "3"); (" ", "4"); ("", ")")]%string)
           [" "%char] top_codes_ordered).
  - repeat split; reflexivity.
  - repeat (apply Forall2_cons || apply Forall2_nil);
      first [ now left | now (right; left) | now (right; right; left)
            | now (right; right; right; left)
            | do 4 right; repeat split; try reflexivity;
              vm_compute; discriminate ].
  - repeat split; intros; try reflexivity; try discriminate.
Defined.

Lemma written_region_semantics_witness :
  @contains top_codes binary64_doubles negative_surfaces origin heading 0
    cell_9 = Ok true.
Proof.
  apply (@written_region_semantics top_codes binary64_doubles
           negative_surfaces origin heading 0 (fun k => k - 1) sample_region
           (map (fun p => (list_ascii_of_string (fst p),
                           list_ascii_of_string (snd p)))
                [(""%string, "1"%string); (" ", "-2"); (" ", "|"); (" ", "~");
                 ("", "("); ("", "3"); (" ", "4"); ("", ")")]%string)
           [] cell_9 top_codes_ordered).
  - repeat split; reflexivity.
  - repeat split; reflexivity.
  - repeat (apply Forall2_cons || apply Forall2_nil);
      first [ now left | now (right; left) | now (right; right; left)
            | now (right; right; right; left)
            | do 4 right; repeat split; try reflexivity;
              vm_compute; discriminate ].
  - repeat split; intros; try reflexivity; try discriminate.
  - reflexivity.
Defined.
